(** * Tmr-hiro-grd-tools: the PAC archive reader and the GRD image codec

    A shallow embedding of [ExPac.py] and [Grd2Png.py].

    Python integers are unbounded: they are [Z] here, and counters that the
    source only ever takes from [range] or increments from a non-negative
    start are [nat].  Byte strings, [bytearray]s and file contents are
    [list Z] whose elements are byte values.  A Python exception is the
    [Raise] outcome of the [result] monad below; a function that returns
    [None] to its caller returns [Ok None]. *)

From Stdlib Require Import ZArith List Lia Bool String Ascii.
From stdpp Require Import base list.
Import ListNotations.

Local Open Scope Z_scope.

(** ** Outcomes of Python code *)

Inductive exn : Type :=
| IndexError          (* subscript out of range *)
| StructError         (* struct.unpack on a buffer of the wrong size *)
| OSError             (* seek to a negative offset *)
| UnicodeDecodeError. (* bytes.decode('utf-8') on malformed input *)

(** [Timeout] is not a Python outcome: it marks a loop model that ran out of
    fuel.  Every loop below is given fuel that is proved or computed to be
    enough wherever a result is claimed. *)
Inductive result (A : Type) : Type :=
| Ok (a : A)
| Raise (e : exn)
| Timeout.
Arguments Ok {A} a.
Arguments Raise {A} e.
Arguments Timeout {A}.

Definition bind {A B : Type} (m : result A) (k : A -> result B) : result B :=
  match m with
  | Ok a => k a
  | Raise e => Raise e
  | Timeout => Timeout
  end.

Declare Scope result_scope.
Delimit Scope result_scope with result.
Notation "'let*' x ':=' m 'in' k" := (bind m (fun x => k))
  (at level 10, x name, m at level 100, k at level 200) : result_scope.
Notation "'let*' ' p ':=' m 'in' k" := (bind m (fun x => let 'p := x in k))
  (at level 10, p strict pattern, m at level 100, k at level 200) : result_scope.
Local Open Scope result_scope.

(** ** Python sequences *)

(** [seq[i]] for a list, bytes or bytearray: a negative index counts from the
    end, anything out of range raises IndexError. *)
Definition py_index (len i : Z) : option nat :=
  if i <? 0 then
    if 0 <=? len + i then Some (Z.to_nat (len + i)) else None
  else if i <? len then Some (Z.to_nat i) else None.

Definition getitem {A : Type} (l : list A) (i : Z) : result A :=
  match py_index (Z.of_nat (length l)) i with
  | Some n => match l !! n with Some x => Ok x | None => Raise IndexError end
  | None => Raise IndexError
  end.

(** [seq[i] = x] *)
Definition setitem {A : Type} (l : list A) (i : Z) (x : A) : result (list A) :=
  match py_index (Z.of_nat (length l)) i with
  | Some n => Ok (<[n := x]> l)
  | None => Raise IndexError
  end.

(** [b[lo:lo+n] = vs] on a bytearray, for [0 <= lo] and [0 <= n]: the slice
    bounds are clipped to the length and the slice is replaced by [vs], of
    whatever length [vs] is. *)
Definition slice_assign {A : Type} (l : list A) (lo n : nat) (vs : list A) : list A :=
  take lo l ++ vs ++ drop (lo + n) l.

(** ** struct.unpack, little-endian *)

Fixpoint le_uint (bs : list Z) : Z :=
  match bs with
  | [] => 0
  | b :: bs' => b + 256 * le_uint bs'
  end.

Definition unpack_unsigned (width : nat) (bs : list Z) : result Z :=
  if Nat.eqb (length bs) width then Ok (le_uint bs) else Raise StructError.

Definition unpack_signed (width : nat) (bs : list Z) : result Z :=
  let* u := unpack_unsigned width bs in
  let half := 2 ^ (8 * Z.of_nat width - 1) in
  Ok (if u <? half then u else u - 2 * half).

Definition is_byte (b : Z) : Prop := 0 <= b < 256.

(** ** ExPac.py *)

Module ExPac.

Record Entry : Type := mkEntry {
  name : string;
  offset : Z;
  size : Z;
  type : string
}.

(** [Entry.check_placement] *)
Definition check_placement (e : Entry) (max_offset : Z) : bool :=
  offset e + size e <=? max_offset.

(** [ArcView]: the file is its contents; [max_offset] is its size. *)
Definition ArcView : Type := list Z.

Definition max_offset (view : ArcView) : Z := Z.of_nat (length view).

(** [file.seek(offset); file.read(n)] for [0 <= n]: seeking below zero
    raises, reading near or past the end returns what is there. *)
Definition seek_read (view : ArcView) (offset : Z) (n : Z) : result (list Z) :=
  if offset <? 0 then Raise OSError
  else Ok (take (Z.to_nat n) (drop (Z.to_nat offset) view)).

Definition read_int16 (view : ArcView) (offset : Z) : result Z :=
  let* bs := seek_read view offset 2 in unpack_signed 2 bs.

Definition read_byte (view : ArcView) (offset : Z) : result Z :=
  let* bs := seek_read view offset 1 in unpack_unsigned 1 bs.

Definition read_uint32 (view : ArcView) (offset : Z) : result Z :=
  let* bs := seek_read view offset 4 in unpack_unsigned 4 bs.

Definition read_int64 (view : ArcView) (offset : Z) : result Z :=
  let* bs := seek_read view offset 8 in unpack_signed 8 bs.

Definition read_bytes (view : ArcView) (offset : Z) (size : Z) : result (list Z) :=
  seek_read view offset size.

(** [is_sane_count] *)
Definition is_sane_count (count : Z) : bool :=
  (0 <? count) && (count <? 0x10000).

(** [s.rstrip('\x00')] *)
Fixpoint rstrip_nul (s : string) : string :=
  match s with
  | EmptyString => EmptyString
  | String c s' =>
      match rstrip_nul s' with
      | EmptyString => if Ascii.eqb c zero then EmptyString else String c EmptyString
      | t => String c t
      end
  end.

(** [needle in s] for strings *)
Fixpoint contains (needle s : string) : bool :=
  if String.prefix needle s then true
  else match s with
       | EmptyString => false
       | String _ s' => contains needle s'
       end.

Section Parser.

(** Library functions the parser calls: the UTF-8 codec
    ([bytes.decode('utf-8')], [None] when it raises) and
    [os.path.splitext(p)[0]]. *)
Variable utf8_decode : list Z -> option string.
Variable splitext_root : string -> string.

Definition read_string (view : ArcView) (offset : Z) (length : Z) : result string :=
  let* bs := seek_read view offset length in
  match utf8_decode bs with
  | Some s => Ok (rstrip_nul s)
  | None => Raise UnicodeDecodeError
  end.

(** Lines 60-66 of [try_open]: the version is inferred from the geometry. *)
Definition select_version (name_length count data_offset : Z) : option Z :=
  let index_size := 7 + (name_length + 8) * count in
  if data_offset =? index_size then Some 1
  else if data_offset =? index_size + 4 * count then Some 2
  else None.

(** Lines 71-82, the entry stored at [index_offset] and the offset after it. *)
Definition parse_entry (view : ArcView) (version name_length data_offset index_offset : Z)
  : result (Entry * Z) :=
  let* nm := read_string view index_offset name_length in
  let index_offset := index_offset + name_length in
  if version =? 1 then
    let* o := read_uint32 view index_offset in
    let* s := read_uint32 view (index_offset + 4) in
    Ok (mkEntry nm (o + data_offset) s "", index_offset + 8)
  else
    let* o := read_int64 view index_offset in
    let* s := read_uint32 view (index_offset + 8) in
    Ok (mkEntry nm (o + data_offset) s "", index_offset + 12).

(** The bytes an index record takes after its name. *)
Definition entry_stride (version : Z) : Z := if version =? 1 then 8 else 12.

(** One iteration of the index loop, lines 71-85: the entry that was read
    and the next [index_offset], or [None] when the placement check fails. *)
Definition read_entry (view : ArcView) (version name_length data_offset index_offset : Z)
  : result (option (Entry * Z)) :=
  let* '(entry, index_offset) :=
    parse_entry view version name_length data_offset index_offset in
  if negb (check_placement entry (max_offset view)) then Ok None
  else Ok (Some (entry, index_offset)).

(** [for i in range(count)]: the remaining iterations are counted by [n]. *)
Fixpoint read_index (n : nat) (view : ArcView) (version name_length data_offset index_offset : Z)
    (dir_entries : list Entry) : result (option (list Entry)) :=
  match n with
  | O => Ok (Some dir_entries)
  | S n' =>
      let* r := read_entry view version name_length data_offset index_offset in
      match r with
      | None => Ok None
      | Some (entry, index_offset') =>
          read_index n' view version name_length data_offset index_offset'
            (dir_entries ++ [entry])
      end
  end.

Definition set_ext (e : Entry) (ext ty : string) : Entry :=
  mkEntry (splitext_root (name e) ++ ext) (offset e) (size e) ty.

Definition set_type (e : Entry) (ty : string) : Entry :=
  mkEntry (name e) (offset e) (size e) ty.

(** The body of the second loop of [try_open], lines 89-101. *)
Definition sniff (view : ArcView) (arc_name : string) (entry : Entry) : result Entry :=
  let* signature := read_uint32 view (offset entry) in
  if signature =? 0x5367674F then Ok (set_ext entry ".ogg" "audio")
  else if ((Z.land signature 0xFF =? 1) || (Z.land signature 0xFF =? 2))
          && contains "grd" arc_name
  then Ok (set_ext entry ".grd" "image")
  else
    let* is_audio :=
      if Z.land signature 0xFF =? 0x44 then
        let* v := read_uint32 view (offset entry + 5) in Ok (size entry - 9 =? v)
      else Ok false in
    if is_audio then Ok (set_type entry "audio")
    else
      let* tag := read_int16 view (offset entry + 4) in
      let* is_script :=
        if tag =? 6 then
          let* v := read_uint32 view (offset entry + 6) in Ok (v =? 0x140050)
        else Ok false in
      if is_script then
        if String.eqb arc_name "srp" then Ok (set_ext entry ".srp" "script")
        else Ok (set_type entry "script")
      else Ok entry.

Fixpoint sniff_all (view : ArcView) (arc_name : string) (es : list Entry)
  : result (list Entry) :=
  match es with
  | [] => Ok []
  | e :: es' =>
      let* e' := sniff view arc_name e in
      let* es'' := sniff_all view arc_name es' in
      Ok (e' :: es'')
  end.

(** Lines 68-103 of [try_open]: the index walk and the sniffing pass. *)
Definition open_as (arc_name : string) (view : ArcView)
    (version count name_length data_offset : Z) : result (option (list Entry)) :=
  let* r := read_index (Z.to_nat count) view version name_length data_offset 7 [] in
  match r with
  | None => Ok None
  | Some dir_entries =>
      let* es := sniff_all view arc_name dir_entries in
      Ok (Some es)
  end.

(** [try_open]; [arc_name] is the lower-cased base name of the path. *)
Definition try_open (arc_name : string) (view : ArcView) : result (option (list Entry)) :=
  let* count := read_int16 view 0 in
  if negb (is_sane_count count) then Ok None else
  let* name_length := read_byte view 2 in
  if name_length =? 0 then Ok None else
  let* data_offset := read_uint32 view 3 in
  if max_offset view <=? data_offset then Ok None else
  match select_version name_length count data_offset with
  | None => Ok None
  | Some version => open_as arc_name view version count name_length data_offset
  end.

End Parser.

(** The nibble swap of [open_entry], line 120. *)
Definition swap_nibbles (b : Z) : Z :=
  Z.lor (Z.shiftr b 4) (Z.shiftl (Z.land b 0x0F) 4).

(** [for j in range(chunk_size)], lines 119-121. *)
Fixpoint swap_range (n : nat) (data : list Z) (pos : Z) : result (list Z * Z) :=
  match n with
  | O => Ok (data, pos)
  | S n' =>
      let* b := getitem data pos in
      let* data' := setitem data pos (swap_nibbles b) in
      swap_range n' data' (pos + 1)
  end.

(** [data[lo:hi]] for [0 <= lo <= hi] *)
Definition slice (data : list Z) (lo hi : Z) : list Z :=
  take (Z.to_nat hi - Z.to_nat lo) (drop (Z.to_nat lo) data).

(** [for i in range(record_count)], lines 112-121; both the [break] and the
    early [return data] leave the loop with the buffer as it is. *)
Fixpoint decode_records (n : nat) (data : list Z) (pos : Z) : result (list Z) :=
  match n with
  | O => Ok data
  | S n' =>
      if Z.of_nat (length data) <? pos + 2 then Ok data else
      let* u := unpack_unsigned 2 (slice data pos (pos + 2)) in
      let chunk_size := u - 4 in
      let pos := pos + 6 in
      if Z.of_nat (length data) <? pos + chunk_size then Ok data else
      let* '(data', pos') := swap_range (Z.to_nat chunk_size) data pos in
      decode_records n' data' pos'
  end.

(** [open_entry] *)
Definition open_entry (view : ArcView) (entry : Entry) : result (list Z) :=
  let* raw :=
    if negb (String.eqb (type entry) "script") then Ok true else
    let* tag := read_int16 view (offset entry + 4) in
    if negb (tag =? 6) then Ok true else
    let* v := read_uint32 view (offset entry + 6) in
    Ok (negb (v =? 0x140050)) in
  if raw : bool then read_bytes view (offset entry) (size entry) else
  let* record_count := read_uint32 view (offset entry) in
  let* data := read_bytes view (offset entry) (size entry) in
  decode_records (Z.to_nat record_count) data 4.

End ExPac.

(** ** Grd2Png.py *)

Module Grd2Png.

Record GrdMetaData : Type := mkMeta {
  Format : Z;
  Width : Z;
  Height : Z;
  BPP : Z;
  OffsetX : Z;
  OffsetY : Z;
  AlphaSize : Z;
  RSize : Z;
  GSize : Z;
  BSize : Z
}.

Record HuffmanNode : Type := mkNode {
  freq : Z;
  left : nat;
  right : nat
}.

(** An input stream is the bytes from its position on. *)
Definition read1 (s : list Z) : result (Z * list Z) :=
  match s with
  | b :: rest => Ok (b, rest)
  | [] => Raise IndexError
  end.

Definition read_u32 (s : list Z) : result (Z * list Z) :=
  let* v := unpack_unsigned 4 (take 4 s) in Ok (v, drop 4 s).

(** *** LsbBitStream *)

Record LsbBitStream : Type := mkBits {
  stream : list Z;
  current_byte : Z;
  bit_position : Z
}.

Definition new_bits (s : list Z) : LsbBitStream := mkBits s 0 8.

Definition get_next_bit (bits : LsbBitStream) : result (Z * LsbBitStream) :=
  let* bits1 :=
    if bit_position bits =? 8 then
      let* '(b, rest) := read1 (stream bits) in Ok (mkBits rest b 0)
    else Ok bits in
  let bit := Z.land (current_byte bits1) 1 in
  Ok (bit, mkBits (stream bits1) (Z.shiftr (current_byte bits1) 1)
                  (bit_position bits1 + 1)).

(** *** Huffman tree construction *)

Definition node_at (nodes : list HuffmanNode) (i : nat) : result HuffmanNode :=
  match nodes !! i with
  | Some nd => Ok nd
  | None => Raise IndexError
  end.

(** The scan of [add_node]: [index] goes before the first listed node whose
    frequency is greater than [f], or at the end. *)
Fixpoint insert_by_freq (nodes : list HuffmanNode) (f : Z) (index : nat)
    (tree : list nat) : result (list nat) :=
  match tree with
  | [] => Ok [index]
  | node :: rest =>
      let* nd := node_at nodes node in
      if f <? freq nd then Ok (index :: node :: rest)
      else
        let* rest' := insert_by_freq nodes f index rest in
        Ok (node :: rest')
  end.

Definition add_node (tree : list nat) (nodes : list HuffmanNode) (index : nat)
  : result (list nat) :=
  let* nd := node_at nodes index in
  insert_by_freq nodes (freq nd) index tree.

(** [for i in range(0x100)], lines 124-126, with [n] iterations left. *)
Fixpoint seed_leaves (n i : nat) (s : list Z) (tree : list nat)
    (nodes : list HuffmanNode) : result (list Z * list nat * list HuffmanNode) :=
  match n with
  | O => Ok (s, tree, nodes)
  | S n' =>
      let* '(f, s') := read_u32 s in
      let* nd := node_at nodes i in
      let nodes' := <[i := mkNode f (left nd) (right nd)]> nodes in
      let* tree' := add_node tree nodes' i in
      seed_leaves n' (S i) s' tree' nodes'
  end.

(** [while len(tree) > 1], lines 129-136. *)
Fixpoint merge_loop (fuel : nat) (tree : list nat) (nodes : list HuffmanNode)
    (last_node : nat) : result (list nat * list HuffmanNode * nat) :=
  match tree with
  | l :: r :: rest =>
      match fuel with
      | O => Timeout
      | S fuel' =>
          let* nl := node_at nodes l in
          let* nr := node_at nodes r in
          let* _ := node_at nodes last_node in
          let nodes' := <[last_node := mkNode (freq nl + freq nr) l r]> nodes in
          let* tree' := add_node rest nodes' last_node in
          merge_loop fuel' tree' nodes' (S last_node)
      end
  | _ => Ok (tree, nodes, last_node)
  end.

(** The state of [create_huffman_tree] when its last loop ends. *)
Record tree_state : Type := mkTreeState {
  ts_nodes : list HuffmanNode;
  ts_tree : list nat;
  ts_last_node : nat;
  ts_huffman_unpacked : Z;
  ts_input : list Z
}.

Definition build_huffman_tree (s : list Z) : result tree_state :=
  let nodes := replicate 0x200%nat (mkNode 0 0 0) in
  let* '(huffman_unpacked, s) := read_u32 s in
  let s := drop 4 s in
  let* '(s, tree, nodes) := seed_leaves 0x100 0 s [] nodes in
  let* '(tree, nodes, last_node) := merge_loop (length tree) tree nodes 0x100 in
  Ok (mkTreeState nodes tree last_node huffman_unpacked s).

(** [create_huffman_tree]: the node table, [self.huffman_unpacked] and the
    stream after the header. *)
Definition create_huffman_tree (s : list Z) : result (list HuffmanNode * Z * list Z) :=
  let* st := build_huffman_tree s in
  Ok (ts_nodes st, ts_huffman_unpacked st, ts_input st).

(** *** Huffman decoding *)

(** [while node > 0xFF], lines 109-113. *)
Fixpoint walk (fuel : nat) (tree : list HuffmanNode) (node : nat)
    (bits : LsbBitStream) : result (nat * LsbBitStream) :=
  if (node <=? 0xFF)%nat then Ok (node, bits) else
  match fuel with
  | O => Timeout
  | S fuel' =>
      let* '(bit, bits') := get_next_bit bits in
      let* nd := node_at tree node in
      walk fuel' tree (if bit =? 0 then left nd else right nd) bits'
  end.

(** One iteration of [while dst < self.huffman_unpacked], lines 108-115. *)
Definition decode_symbol (tree : list HuffmanNode) (bits : LsbBitStream)
  : result (nat * LsbBitStream) :=
  walk 0x200 tree 0x1FE bits.

Fixpoint decode_loop (n : nat) (tree : list HuffmanNode) (bits : LsbBitStream)
    (unpacked : list Z) (dst : Z) : result (list Z) :=
  match n with
  | O => Ok unpacked
  | S n' =>
      let* '(node, bits') := decode_symbol tree bits in
      let* unpacked' := setitem unpacked dst (Z.of_nat node) in
      decode_loop n' tree bits' unpacked' (dst + 1)
  end.

Definition unpack_huffman (s : list Z) : result (list Z) :=
  let* '(tree, huffman_unpacked, s') := create_huffman_tree s in
  let unpacked := replicate (Z.to_nat huffman_unpacked) 0 in
  decode_loop (Z.to_nat huffman_unpacked) tree (new_bits s') unpacked 0.

(** *** Run-length expansion *)

Record rle_state : Type := mkRle {
  rle_input : list Z;
  rle_src : Z;
  rle_dst : Z;
  rle_channel : list Z
}.

(** [count &= 0x7F] *)
Definition rle_repeat_count (count : Z) : Z := Z.land count 0x7F.

(** The body of [while src < src_size], lines 63-74. *)
Definition rle_step (st : rle_state) : result rle_state :=
  let* '(count, s1) := read1 (rle_input st) in
  let src := rle_src st + 1 in
  let dst := rle_dst st in
  if 0x7F <? count then
    let count := rle_repeat_count count in
    let* '(v, s2) := read1 s1 in
    Ok (mkRle s2 (src + 1) (dst + count)
          (slice_assign (rle_channel st) (Z.to_nat dst) (Z.to_nat count)
             (replicate (Z.to_nat count) v)))
  else if 0 <? count then
    Ok (mkRle (drop (Z.to_nat count) s1) (src + count) (dst + count)
          (slice_assign (rle_channel st) (Z.to_nat dst) (Z.to_nat count)
             (take (Z.to_nat count) s1)))
  else Ok (mkRle s1 src dst (rle_channel st)).

Fixpoint rle_loop (fuel : nat) (st : rle_state) (src_size : Z) : result rle_state :=
  if rle_src st <? src_size then
    match fuel with
    | O => Timeout
    | S fuel' => let* st' := rle_step st in rle_loop fuel' st' src_size
    end
  else Ok st.

(** [unpack_rle]: the channel buffer it leaves. *)
Definition unpack_rle (input_stream : list Z) (src_size : Z) (channel : list Z)
  : result (list Z) :=
  let* st := rle_loop (Z.to_nat src_size) (mkRle input_stream 0 0 channel) src_size in
  Ok (rle_channel st).

(** *** LZ77 expansion *)

(** [for i in range(count)], lines 92-94. *)
Fixpoint copy_back (count : nat) (output : list Z) (dst offset : Z)
  : result (list Z * Z) :=
  match count with
  | O => Ok (output, dst)
  | S count' =>
      let* v := getitem output (dst - offset) in
      let* output' := setitem output dst v in
      copy_back count' output' (dst + 1) offset
  end.

Record lz_state : Type := mkLz {
  lz_src : Z;
  lz_dst : Z;
  lz_output : list Z
}.

(** The body of [while dst < len(output)], lines 82-100. *)
Definition lz77_step (input_data : list Z) (special : Z) (st : lz_state)
  : result lz_state :=
  let* b := getitem input_data (lz_src st) in
  let src := lz_src st + 1 in
  if b =? special then
    let* offset := getitem input_data src in
    let src := src + 1 in
    if negb (offset =? special) then
      let* count := getitem input_data src in
      let src := src + 1 in
      let offset := if special <? offset then offset - 1 else offset in
      let* '(output', dst') := copy_back (Z.to_nat count) (lz_output st) (lz_dst st) offset in
      Ok (mkLz src dst' output')
    else
      let* output' := setitem (lz_output st) (lz_dst st) offset in
      Ok (mkLz src (lz_dst st + 1) output')
  else
    let* output' := setitem (lz_output st) (lz_dst st) b in
    Ok (mkLz src (lz_dst st + 1) output').

Fixpoint lz77_loop (fuel : nat) (input_data : list Z) (special : Z) (st : lz_state)
  : result lz_state :=
  if lz_dst st <? Z.of_nat (length (lz_output st)) then
    match fuel with
    | O => Timeout
    | S fuel' =>
        let* st' := lz77_step input_data special st in
        lz77_loop fuel' input_data special st'
    end
  else Ok st.

(** [unpack_lz77]; every iteration reads at least one input byte, so the
    length of the input bounds the number of iterations. *)
Definition unpack_lz77 (input_data output : list Z) : result (list Z) :=
  let* special := getitem input_data 8 in
  let* st := lz77_loop (length input_data) input_data special (mkLz 12 0 output) in
  Ok (lz_output st).

(** *** GrdReader *)

Record GrdReader : Type := mkReader {
  input : list Z;
  info : GrdMetaData;
  output : list Z;
  channel : list Z;
  pack_type : Z;
  pixel_size : Z
}.

(** [GrdReader.__init__] *)
Definition new_reader (input_stream : list Z) (info : GrdMetaData) : GrdReader :=
  mkReader input_stream info
    (replicate (Z.to_nat (Width info * Height info * (BPP info / 8))) 0)
    (replicate (Z.to_nat (Width info * Height info)) 0)
    (Z.shiftr (Format info) 8)
    (BPP info / 8).

(** [for x in range(self.info.Width)], lines 54-57. *)
Fixpoint interleave_row (n : nat) (output channel : list Z) (src dst pixel_size : Z)
  : result (list Z * Z) :=
  match n with
  | O => Ok (output, dst)
  | S n' =>
      let* v := getitem channel src in
      let* output' := setitem output dst v in
      interleave_row n' output' channel (src + 1) (dst + pixel_size) pixel_size
  end.

(** [for y in range(self.info.Height - 1, -1, -1)], lines 52-57: [rows] rows
    are left, the next one is [y = rows - 1]. *)
Fixpoint interleave (rows : nat) (width : Z) (output channel : list Z)
    (dst pixel_size : Z) : result (list Z * Z) :=
  match rows with
  | O => Ok (output, dst)
  | S y =>
      let src := Z.of_nat y * width in
      let* '(output', dst') :=
        interleave_row (Z.to_nat width) output channel src dst pixel_size in
      interleave y width output' channel dst' pixel_size
  end.

(** Lines 41-50 of [unpack_channel]: the decoded channel buffer. *)
Definition decode_channel (r : GrdReader) (src_pos src_size : Z) : result (list Z) :=
  let s := drop (Z.to_nat src_pos) (input r) in
  if pack_type r =? 1 then unpack_rle s src_size (channel r)
  else
    let* data := unpack_huffman s in
    if pack_type r =? 0xA2 then unpack_lz77 data (channel r)
    else unpack_rle data (Z.of_nat (length data)) (channel r).

(** [unpack_channel] *)
Definition unpack_channel (r : GrdReader) (dst src_pos src_size : Z) : result GrdReader :=
  let* channel' := decode_channel r src_pos src_size in
  let* '(output', _) :=
    interleave (Z.to_nat (Height (info r))) (Width (info r)) (output r) channel'
      dst (pixel_size r) in
  Ok (mkReader (input r) (info r) output' channel' (pack_type r) (pixel_size r)).

(** [unpack] *)
Definition unpack (r : GrdReader) : result GrdReader :=
  let next_pos := 0x20 in
  let* '(r, next_pos) :=
    if (BPP (info r) =? 32) && (0 <? AlphaSize (info r)) then
      let* r' := unpack_channel r 3 next_pos (AlphaSize (info r)) in
      Ok (r', next_pos + AlphaSize (info r))
    else Ok (r, next_pos) in
  let* r := unpack_channel r 0 next_pos (RSize (info r)) in
  let next_pos := next_pos + RSize (info r) in
  let* r := unpack_channel r 1 next_pos (GSize (info r)) in
  let next_pos := next_pos + GSize (info r) in
  unpack_channel r 2 next_pos (BSize (info r)).

(** *** read_grd_metadata *)

(** [struct.unpack] of [count] unsigned fields of [width] bytes each. *)
Fixpoint fields (width count : nat) (bs : list Z) : list Z :=
  match count with
  | O => []
  | S count' => le_uint (take width bs) :: fields width count' (drop width bs)
  end.

Definition unpack_fields (width count : nat) (bs : list Z) : result (list Z) :=
  if Nat.eqb (length bs) (width * count) then Ok (fields width count bs)
  else Raise StructError.

Definition slice (data : list Z) (lo hi : nat) : list Z :=
  take (hi - lo) (drop lo data).

Definition read_grd_metadata (file : list Z) : result (option GrdMetaData) :=
  let header := take 0x20 file in
  let* h0 := getitem header 0 in
  if negb ((h0 =? 1) || (h0 =? 2)) then Ok None else
  let* h1 := getitem header 1 in
  if negb ((h1 =? 1) || (h1 =? 0xA1) || (h1 =? 0xA2)) then Ok None else
  let* bpp := unpack_unsigned 2 (slice header 6 8) in
  if negb ((bpp =? 24) || (bpp =? 32)) then Ok None else
  let* screen := unpack_fields 2 2 (slice header 2 6) in
  let* bounds := unpack_fields 2 4 (slice header 8 16) in
  let* format := unpack_unsigned 2 (slice header 0 2) in
  let* sizes := unpack_fields 4 4 (slice header 0x10 0x20) in
  match screen, bounds, sizes with
  | [screen_width; screen_height], [left; right; top; bottom],
    [alpha_size; r_size; g_size; b_size] =>
      let info := mkMeta format (Z.abs (right - left)) (Z.abs (bottom - top)) bpp
                    left (screen_height - bottom) alpha_size r_size g_size b_size in
      let file_size := Z.of_nat (length file) in
      if negb (0x20 + AlphaSize info + RSize info + BSize info + GSize info =? file_size)
      then Ok None
      else Ok (Some info)
  | _, _, _ => Raise StructError
  end.

(** [convert_grd_to_png] up to the pixel buffer handed to the PNG encoder. *)
Definition decode_grd (file : list Z) : result (option (GrdMetaData * list Z)) :=
  let* r := read_grd_metadata file in
  match r with
  | None => Ok None
  | Some info =>
      let* reader := unpack (new_reader file info) in
      Ok (Some (info, output reader))
  end.

End Grd2Png.

(** ** Vocabulary of the statements about the Huffman header *)

Module HuffmanSpec.

(** The frequency table of a header: the 256 counts that follow the two
    32-bit size fields. *)
Definition freq_table (s : list Z) : list Z :=
  Grd2Png.fields 4 0x100 (drop 8 s).

(** [nodes[i].freq == f] *)
Definition has_freq (nodes : list Grd2Png.HuffmanNode) (f : Z) (i : nat) : Prop :=
  exists nd, nodes !! i = Some nd /\ Grd2Png.freq nd = f.

(** Byte value [k] is the only one with a nonzero count. *)
Definition single_symbol (table : list Z) (k : nat) : Prop :=
  (k < 0x100)%nat /\ nth k table 0 <> 0 /\
  forall j, j <> k -> nth j table 0 = 0.

(** A header for [n] decoded bytes whose table counts [f] for byte value
    [k] and nothing else, followed by [payload]. *)
Definition single_symbol_stream (n : Z) (k : nat) (f : Z) (payload : list Z) : list Z :=
  [n; 0; 0; 0] ++ [0; 0; 0; 0] ++
  concat (map (fun j => if Nat.eqb j k then [f; 0; 0; 0] else [0; 0; 0; 0]) (seq 0 0x100)) ++
  payload.

(** What holds of the priority list [tree] each time the seeding loop is
    about to read the frequency of leaf [i]. *)
Definition seeding (i : nat) (tree : list nat) (nodes : list Grd2Png.HuffmanNode) : Prop :=
  length nodes = 0x200%nat /\ (i <= 0x100)%nat /\ length tree = i /\
  Forall (fun j => (j < i)%nat) tree /\
  forall j, (j < i)%nat -> j ∈ tree.

(** What holds each time the merge loop tests its condition: a merge takes
    two indices off the list and puts the new node [last_node] on it. *)
Definition merging (tree : list nat) (nodes : list Grd2Png.HuffmanNode) (last_node : nat) : Prop :=
  length nodes = 0x200%nat /\ (1 <= length tree)%nat /\
  (last_node + length tree = 0x200)%nat /\
  Forall (fun j => (j < last_node)%nat) tree /\
  ((0x100 < last_node)%nat -> (last_node - 1)%nat ∈ tree).

(** [reaches nodes i j]: the walk of [unpack_huffman] can get from node [i]
    to node [j] by following child links out of internal nodes. *)
Inductive reaches (nodes : list Grd2Png.HuffmanNode) : nat -> nat -> Prop :=
| reaches_here (i : nat) : reaches nodes i i
| reaches_left (i j : nat) (nd : Grd2Png.HuffmanNode) :
    nodes !! i = Some nd -> (0xFF < i)%nat ->
    reaches nodes (Grd2Png.left nd) j -> reaches nodes i j
| reaches_right (i j : nat) (nd : Grd2Png.HuffmanNode) :
    nodes !! i = Some nd -> (0xFF < i)%nat ->
    reaches nodes (Grd2Png.right nd) j -> reaches nodes i j.

(** The listed nodes are the roots of a forest over all 256 leaves, and the
    children of an internal node were created before it. *)
Definition forest (tree : list nat) (nodes : list Grd2Png.HuffmanNode) (last_node : nat)
  : Prop :=
  (0x100 <= last_node)%nat /\
  (forall i nd, nodes !! i = Some nd -> (0x100 <= i < last_node)%nat ->
     (Grd2Png.left nd < i)%nat /\ (Grd2Png.right nd < i)%nat) /\
  forall j, (j < 0x100)%nat -> exists t, t ∈ tree /\ reaches nodes t j.

(** The priority list while leaves are seeded from a table whose only
    nonzero count [f] is that of [k]: zero-count leaves only up to [k], and
    from then on zero-count leaves followed by [k]. *)
Definition seeding_single (k : nat) (f : Z) (i : nat) (tree : list nat)
    (nodes : list Grd2Png.HuffmanNode) : Prop :=
  seeding i tree nodes /\
  if decide (i <= k)%nat then Forall (has_freq nodes 0) tree
  else exists zs, tree = zs ++ [k] /\ Forall (has_freq nodes 0) zs /\ has_freq nodes f k.

(** The priority list while such a table is merged: zero-count nodes, the
    newest last, followed by [k]; or, after the last merge, the root alone,
    whose children are the tree of all zero-count leaves and the leaf [k]. *)
Definition merging_single (k : nat) (f : Z) (tree : list nat)
    (nodes : list Grd2Png.HuffmanNode) (last_node : nat) : Prop :=
  merging tree nodes last_node /\
  ((exists zs, tree = zs ++ [k] /\ zs <> [] /\ Forall (has_freq nodes 0) zs /\
      has_freq nodes f k /\
      ((0x100 < last_node)%nat -> exists zs0, zs = zs0 ++ [(last_node - 1)%nat])) \/
   (tree = [(last_node - 1)%nat] /\
    nodes !! (last_node - 1)%nat = Some (Grd2Png.mkNode f (last_node - 2) k))).

End HuffmanSpec.

(** ** Vocabulary of the statements about the codec *)

Module CodecSpec.

(** [n] calls of [get_next_bit] in a row: the bits, first read first. *)
Fixpoint get_bits (n : nat) (bits : Grd2Png.LsbBitStream)
  : result (list Z * Grd2Png.LsbBitStream) :=
  match n with
  | O => Ok ([], bits)
  | S n' =>
      let* '(bit, bits') := Grd2Png.get_next_bit bits in
      let* '(more, bits'') := get_bits n' bits' in
      Ok (bit :: more, bits'')
  end.

(** The number whose binary digits are [bs], least significant first. *)
Fixpoint of_bits (bs : list Z) : Z :=
  match bs with
  | [] => 0
  | b :: bs' => b + 2 * of_bits bs'
  end.

(** [nodes[i].freq], 0 for an index outside the table. *)
Definition freq_of (nodes : list Grd2Png.HuffmanNode) (i : nat) : Z :=
  match nodes !! i with
  | Some nd => Grd2Png.freq nd
  | None => 0
  end.

(** The listed nodes are in ascending order of frequency. *)
Fixpoint ascending (fs : list Z) : Prop :=
  match fs with
  | [] => True
  | f :: fs' => Forall (fun g => f <= g) fs' /\ ascending fs'
  end.

Definition sorted_by_freq (nodes : list Grd2Png.HuffmanNode) (tree : list nat) : Prop :=
  ascending (map (freq_of nodes) tree).

Fixpoint sum_list (l : list Z) : Z :=
  match l with
  | [] => 0
  | x :: l' => x + sum_list l'
  end.

(** The frequencies of the listed nodes add up to those of the first [i]
    table entries: the seeding loop before leaf [i]. *)
Definition seeding_sum (table : list Z) (i : nat) (tree : list nat)
    (nodes : list Grd2Png.HuffmanNode) : Prop :=
  HuffmanSpec.seeding i tree nodes /\
  sum_list (map (freq_of nodes) tree) = sum_list (take i table).

(** The frequencies of the listed nodes add up to [total]: the merge loop. *)
Definition merging_sum (total : Z) (tree : list nat)
    (nodes : list Grd2Png.HuffmanNode) (last_node : nat) : Prop :=
  HuffmanSpec.merging tree nodes last_node /\
  sum_list (map (freq_of nodes) tree) = total.

End CodecSpec.

(** ** Streams for the LZ77 expander *)

Module Lz77Spec.

(** The stream bytes on which [unpack_lz77] writes the one byte [b]: the
    byte itself, or the escape value twice when [b] is the escape value. *)
Definition literal (special b : Z) : list Z :=
  if b =? special then [special; special] else [b].

(** The stream on which [unpack_lz77] writes the bytes [p] one by one. *)
Definition literals (special : Z) (p : list Z) : list Z :=
  flat_map (literal special) p.

End Lz77Spec.

(** ** convert_grd_to_png *)

Module Convert.

(** Lines 207-212: the mode handed to [Image.frombytes]. *)
Definition image_mode (info : Grd2Png.GrdMetaData) : string :=
  if Grd2Png.BPP info =? 24 then "RGB"
  else if 0 <? Grd2Png.AlphaSize info then "RGBA"
  else "RGB".

(** The bytes per pixel [Image.frombytes] expects for a mode. *)
Definition mode_bytes (mode : string) : Z :=
  if String.eqb mode "RGBA" then 4 else 3.

End Convert.

(** ** Sample inputs

    Stand-ins for the library functions, good enough to run the parser on
    the samples: a decoder for ASCII names (where UTF-8 and ASCII agree) and
    an extension splitter for names without directory parts. *)

Module Samples.

Definition ascii_decode (bs : list Z) : option string :=
  if forallb (fun b => (0 <=? b) && (b <? 128)) bs
  then Some (string_of_list_ascii (map (fun b => ascii_of_N (Z.to_N b)) bs))
  else None.

Fixpoint has_dot (s : string) : bool :=
  match s with
  | EmptyString => false
  | String c s' => Ascii.eqb c "." || has_dot s'
  end.

Fixpoint drop_ext (s : string) : string :=
  match s with
  | EmptyString => EmptyString
  | String c s' =>
      if Ascii.eqb c "." && negb (has_dot s') then EmptyString
      else String c (drop_ext s')
  end.

(** One entry named "test" whose payload is an Ogg signature: version 1,
    index size [7 + (4 + 8) * 1 = 19]. *)
Definition ogg_archive : list Z :=
  [1; 0;  4;  19; 0; 0; 0;
   116; 101; 115; 116;  0; 0; 0; 0;  4; 0; 0; 0;
   0x4F; 0x67; 0x67; 0x53].

(** The same archive with a declared size of 5: one byte past the end. *)
Definition overlong_archive : list Z :=
  [1; 0;  4;  19; 0; 0; 0;
   116; 101; 115; 116;  0; 0; 0; 0;  5; 0; 0; 0;
   0x4F; 0x67; 0x67; 0x53].

(** The same entry in a version-2 index: [7 + (4 + 8) * 1 + 4 * 1 = 23]. *)
Definition ogg_archive_v2 : list Z :=
  [1; 0;  4;  23; 0; 0; 0;
   116; 101; 115; 116;  0; 0; 0; 0; 0; 0; 0; 0;  4; 0; 0; 0;
   0x4F; 0x67; 0x67; 0x53].

(** A 2x2 image, 24 bits per pixel, RLE only: header, then red
    [[4; 10; 20; 30; 40]], green [[0x84; 7]] and blue [[4; 1; 2; 3; 4]]. *)
Definition rle_image : list Z :=
  [1; 1;  2; 0;  2; 0;  24; 0;  0; 0;  2; 0;  0; 0;  2; 0;
   0; 0; 0; 0;  5; 0; 0; 0;  2; 0; 0; 0;  5; 0; 0; 0;
   4; 10; 20; 30; 40;  0x84; 7;  4; 1; 2; 3; 4].

Definition rle_image_info : Grd2Png.GrdMetaData :=
  Grd2Png.mkMeta 0x0101 2 2 24 0 0 0 5 2 5.

(** A header whose stored count is 0x8000. *)
Definition big_count_archive : list Z :=
  [0; 0x80;  4;  19; 0; 0; 0;  0; 0; 0; 0; 0; 0; 0; 0; 0; 0; 0; 0; 0].

End Samples.

(** * Properties *)

(** ** Python sequences *)

Lemma getitem_nat {A : Type} (l : list A) (n : nat) (x : A) :
  l !! n = Some x -> getitem l (Z.of_nat n) = Ok x.
Proof.
  intros H. pose proof (lookup_lt_Some _ _ _ H) as Hlt.
  unfold getitem, py_index.
  destruct (Z.ltb_spec (Z.of_nat n) 0); [lia|].
  destruct (Z.ltb_spec (Z.of_nat n) (Z.of_nat (length l))); [|lia].
  rewrite Nat2Z.id, H. reflexivity.
Qed.

Lemma setitem_nat {A : Type} (l : list A) (n : nat) (x : A) :
  (n < length l)%nat -> setitem l (Z.of_nat n) x = Ok (<[n := x]> l).
Proof.
  intros Hlt. unfold setitem, py_index.
  destruct (Z.ltb_spec (Z.of_nat n) 0); [lia|].
  destruct (Z.ltb_spec (Z.of_nat n) (Z.of_nat (length l))); [|lia].
  rewrite Nat2Z.id. reflexivity.
Qed.

(** A successful store at a non-negative index is an in-place update. *)
Lemma setitem_Ok {A : Type} (l l' : list A) (i : Z) (x : A) :
  0 <= i -> setitem l i x = Ok l' ->
  l' = <[Z.to_nat i := x]> l /\ i < Z.of_nat (length l).
Proof.
  intros Hi. unfold setitem, py_index.
  destruct (Z.ltb_spec i 0); [lia|].
  destruct (Z.ltb_spec i (Z.of_nat (length l))); [|discriminate].
  intros [= <-]. split; [reflexivity | assumption].
Qed.

Lemma bind_Ok {A B : Type} (m : result A) (k : A -> result B) (b : B) :
  bind m k = Ok b -> exists a, m = Ok a /\ k a = Ok b.
Proof. destruct m; simpl; [eauto | discriminate | discriminate]. Qed.

Ltac bind_inv H :=
  let a := fresh "a" in
  let Ha := fresh "Ha" in
  apply bind_Ok in H; destruct H as (a & Ha & H).

(** ** The archive index parser *)

Section ParserFacts.

Import ExPac.

Variable utf8_decode : list Z -> option string.
Variable splitext_root : string -> string.

Local Abbreviation try_open := (ExPac.try_open utf8_decode splitext_root).
Local Abbreviation open_as := (ExPac.open_as utf8_decode splitext_root).
Local Abbreviation parse_entry := (ExPac.parse_entry utf8_decode).
Local Abbreviation read_entry := (ExPac.read_entry utf8_decode).
Local Abbreviation read_index := (ExPac.read_index utf8_decode).
Local Abbreviation sniff := (ExPac.sniff splitext_root).
Local Abbreviation sniff_all := (ExPac.sniff_all splitext_root).

(** The 16-bit value at offset 0 as [struct.unpack("<h")] returns it. *)
Lemma read_int16_head (b0 b1 : Z) (rest : list Z) :
  read_int16 (b0 :: b1 :: rest) 0 =
  Ok (if b0 + 256 * b1 <? 32768 then b0 + 256 * b1 else b0 + 256 * b1 - 65536).
Proof.
  unfold read_int16, seek_read, unpack_signed, unpack_unsigned. simpl.
  replace (b0 + 256 * (b1 + 256 * 0)) with (b0 + 256 * b1) by lia.
  change (2 ^ (8 * Z.of_nat 2 - 1)) with 32768.
  reflexivity.
Qed.

Lemma try_open_insane_count (arc : string) (view : ArcView) (count : Z) :
  read_int16 view 0 = Ok count -> is_sane_count count = false ->
  try_open arc view = Ok None.
Proof. intros Hc Hs. unfold try_open. rewrite Hc. simpl. rewrite Hs. reflexivity. Qed.

Lemma try_open_header (arc : string) (view : ArcView) (count name_length data_offset : Z) :
  read_int16 view 0 = Ok count -> is_sane_count count = true ->
  read_byte view 2 = Ok name_length -> name_length <> 0 ->
  read_uint32 view 3 = Ok data_offset -> data_offset < max_offset view ->
  try_open arc view =
  match select_version name_length count data_offset with
  | None => Ok None
  | Some version => open_as arc view version count name_length data_offset
  end.
Proof.
  intros Hc Hs Hn Hn0 Hd Hlt. unfold ExPac.try_open.
  rewrite Hc. simpl. rewrite Hs. simpl. rewrite Hn. simpl.
  destruct (Z.eqb_spec name_length 0); [contradiction|].
  rewrite Hd. simpl.
  destruct (Z.leb_spec (max_offset view) data_offset); [lia|].
  reflexivity.
Qed.

(** A returned index went through every header check. *)
Lemma try_open_Some_inv (arc : string) (view : ArcView) (es : list Entry) :
  try_open arc view = Ok (Some es) ->
  exists count name_length data_offset version,
    read_int16 view 0 = Ok count /\ is_sane_count count = true /\
    read_byte view 2 = Ok name_length /\ name_length <> 0 /\
    read_uint32 view 3 = Ok data_offset /\ data_offset < max_offset view /\
    select_version name_length count data_offset = Some version /\
    open_as arc view version count name_length data_offset = Ok (Some es).
Proof.
  intros H. unfold try_open in H.
  bind_inv H. rename a into count.
  destruct (is_sane_count count) eqn:Hs; [|discriminate]. simpl in H.
  bind_inv H. rename a into name_length.
  destruct (Z.eqb_spec name_length 0); [discriminate|].
  bind_inv H. rename a into data_offset.
  destruct (Z.leb_spec (max_offset view) data_offset); [discriminate|].
  destruct (select_version name_length count data_offset) as [version|] eqn:Hv;
    [|discriminate].
  exists count, name_length, data_offset, version.
  repeat split; assumption.
Qed.

Lemma parse_entry_next (view : ArcView) (version nl d io : Z) (e : Entry) (io' : Z) :
  parse_entry view version nl d io = Ok (e, io') ->
  io' = io + nl + entry_stride version.
Proof.
  unfold ExPac.parse_entry, entry_stride. intros H.
  bind_inv H. destruct (version =? 1).
  - bind_inv H. bind_inv H. injection H as _ <-. reflexivity.
  - bind_inv H. bind_inv H. injection H as _ <-. reflexivity.
Qed.

Lemma read_entry_Some (view : ArcView) (version nl d io : Z) (e : Entry) (io' : Z) :
  read_entry view version nl d io = Ok (Some (e, io')) ->
  parse_entry view version nl d io = Ok (e, io') /\
  check_placement e (max_offset view) = true.
Proof.
  unfold ExPac.read_entry. intros H. bind_inv H. destruct a as [e0 io0].
  destruct (check_placement e0 (max_offset view)) eqn:Hc; simpl in H; [|discriminate].
  injection H as <- <-. split; assumption.
Qed.

Lemma read_entry_violation (view : ArcView) (version nl d io : Z) (e : Entry) (io' : Z) :
  parse_entry view version nl d io = Ok (e, io') ->
  max_offset view < offset e + size e ->
  read_entry view version nl d io = Ok None.
Proof.
  intros Hp Hv. unfold ExPac.read_entry. rewrite Hp. simpl.
  unfold check_placement.
  destruct (Z.leb_spec (offset e + size e) (max_offset view)); [lia | reflexivity].
Qed.

Lemma read_entry_parsed (view : ArcView) (version nl d io : Z) (x : Entry * Z) :
  parse_entry view version nl d io = Ok x ->
  exists r, read_entry view version nl d io = Ok r /\
            forall e io', r = Some (e, io') -> io' = io + nl + entry_stride version.
Proof.
  intros Hp. destruct x as [e io1]. unfold ExPac.read_entry. rewrite Hp. simpl.
  destruct (check_placement e (max_offset view)); simpl; eexists; split; try reflexivity.
  - intros e' io' [= <- <-]. eapply parse_entry_next; eassumption.
  - discriminate.
Qed.

(** The index loop returns a list only of entries that all passed the
    placement check, one for each of its [n] iterations. *)
Lemma read_index_Some (view : ArcView) (version nl d : Z) (n : nat) :
  forall (io : Z) (acc es : list Entry),
    read_index n view version nl d io acc = Ok (Some es) ->
    exists new, es = acc ++ new /\ length new = n /\
      Forall (fun e => check_placement e (max_offset view) = true) new.
Proof.
  induction n as [|n IH]; intros io acc es H; simpl in H.
  - injection H as <-. exists []. rewrite app_nil_r. repeat split. constructor.
  - bind_inv H. destruct a as [[e io']|]; [|discriminate].
    apply read_entry_Some in Ha as [_ Hc].
    apply IH in H as (new & -> & Hlen & Hall).
    exists (e :: new). rewrite <- app_assoc. simpl.
    repeat split; [lia | constructor; assumption].
Qed.

(** The index loop stops with [None] at the first entry it parses that fails
    the placement check. *)
Lemma read_index_reject (view : ArcView) (version nl d : Z) (n : nat) :
  forall (io : Z) (acc : list Entry) (i : nat) (e : Entry) (io' : Z),
    (i < n)%nat ->
    (forall j, (j < i)%nat ->
       exists x, parse_entry view version nl d
                   (io + Z.of_nat j * (nl + entry_stride version)) = Ok x) ->
    parse_entry view version nl d
      (io + Z.of_nat i * (nl + entry_stride version)) = Ok (e, io') ->
    max_offset view < offset e + size e ->
    read_index n view version nl d io acc = Ok None.
Proof.
  induction n as [|n IH]; intros io acc i e io' Hi Hbefore Hp Hv; [lia|].
  simpl. destruct i as [|i].
  - replace (io + Z.of_nat 0 * (nl + entry_stride version)) with io in Hp by lia.
    rewrite (read_entry_violation _ _ _ _ _ _ _ Hp Hv). reflexivity.
  - destruct (Hbefore 0%nat ltac:(lia)) as [x Hx].
    replace (io + Z.of_nat 0 * (nl + entry_stride version)) with io in Hx by lia.
    destruct (read_entry_parsed _ _ _ _ _ _ Hx) as (r & Hr & Hnext).
    rewrite Hr. simpl. destruct r as [[e0 io0]|]; [|reflexivity].
    rewrite (Hnext e0 io0 eq_refl).
    apply (IH _ _ i e io'); [lia | | | assumption].
    + intros j Hj. destruct (Hbefore (S j) ltac:(lia)) as [y Hy]. exists y.
      rewrite <- Hy. f_equal. lia.
    + rewrite <- Hp. f_equal. lia.
Qed.

(** The sniffer renames and retypes; it never moves an entry. *)
Lemma sniff_placement (view : ArcView) (arc : string) (e e' : Entry) :
  sniff view arc e = Ok e' -> offset e' = offset e /\ size e' = size e.
Proof.
  unfold ExPac.sniff, set_ext, set_type. intros H.
  repeat (first
    [ match type of H with bind _ _ = Ok _ => bind_inv H end
    | match type of H with Ok _ = Ok _ => injection H as <- end
    | match type of H with context [if ?c then _ else _] => destruct c end ]);
  simpl; split; reflexivity.
Qed.

Lemma sniff_all_placement (view : ArcView) (arc : string) (es es' : list Entry) :
  sniff_all view arc es = Ok es' ->
  Forall2 (fun e e' => offset e' = offset e /\ size e' = size e) es es'.
Proof.
  revert es'. induction es as [|e es IH]; intros es' H; simpl in H.
  - injection H as <-. constructor.
  - bind_inv H. bind_inv H. injection H as <-.
    constructor; [eapply sniff_placement; eassumption | apply IH; assumption].
Qed.

(** C2, as the code has it.  The count at offset 0 is read as a signed
    16-bit integer, so the sanity check [0 < count < 0x10000] passes exactly
    for the stored values 1 to 32767; a stored value from 32768 to 65535 is
    read as a negative count and the archive is rejected at this step. *)
Theorem count_check_signed (arc : string) (b0 b1 : Z) (rest : list Z) :
  is_byte b0 -> is_byte b1 ->
  let view := b0 :: b1 :: rest in
  let stored := b0 + 256 * b1 in
  let count := if stored <? 32768 then stored else stored - 65536 in
  read_int16 view 0 = Ok count /\
  (is_sane_count count = true <-> 0 < stored < 32768) /\
  (~ 0 < stored < 32768 -> try_open arc view = Ok None).
Proof.
  intros H0 H1 view stored count. unfold is_byte in *.
  assert (Hread : read_int16 view 0 = Ok count) by apply read_int16_head.
  assert (Hsane : is_sane_count count = true <-> 0 < stored < 32768).
  { unfold is_sane_count, count. rewrite andb_true_iff, !Z.ltb_lt.
    destruct (Z.ltb_spec stored 32768); subst stored; lia. }
  split; [exact Hread|]. split; [exact Hsane|].
  intros Hout. apply (try_open_insane_count arc view count Hread).
  destruct (is_sane_count count); [|reflexivity].
  exfalso. apply Hout, Hsane. reflexivity.
Qed.

(** C3.  Past the count, name-length and data-offset checks the version is
    decided by the geometry alone: 1 when [data_offset] is
    [7 + (name_length + 8) * count], 2 when it is that plus [4 * count],
    rejection otherwise; the two sizes differ because [count > 0]. *)
Theorem version_by_geometry (arc : string) (view : ArcView)
    (count name_length data_offset : Z) :
  read_int16 view 0 = Ok count -> is_sane_count count = true ->
  read_byte view 2 = Ok name_length -> name_length <> 0 ->
  read_uint32 view 3 = Ok data_offset -> data_offset < max_offset view ->
  let index_size_v1 := 7 + (name_length + 8) * count in
  let index_size_v2 := index_size_v1 + 4 * count in
  index_size_v1 <> index_size_v2 /\
  (data_offset = index_size_v1 ->
     select_version name_length count data_offset = Some 1 /\
     try_open arc view = open_as arc view 1 count name_length data_offset) /\
  (data_offset = index_size_v2 ->
     select_version name_length count data_offset = Some 2 /\
     try_open arc view = open_as arc view 2 count name_length data_offset) /\
  (data_offset <> index_size_v1 -> data_offset <> index_size_v2 ->
     select_version name_length count data_offset = None /\
     try_open arc view = Ok None).
Proof.
  intros Hc Hs Hn Hn0 Hd Hlt v1 v2.
  pose proof (try_open_header arc view _ _ _ Hc Hs Hn Hn0 Hd Hlt) as Hopen.
  assert (Hpos : 0 < count).
  { unfold is_sane_count in Hs. apply andb_true_iff in Hs as [Hs _].
    apply Z.ltb_lt in Hs. exact Hs. }
  assert (Hne : v1 <> v2) by (subst v1 v2; lia).
  split; [exact Hne|].
  unfold select_version in *. fold v1 in Hopen |- *. fold v2 in Hopen |- *.
  repeat split.
  - destruct (Z.eqb_spec data_offset v1); [reflexivity | contradiction].
  - rewrite Hopen. destruct (Z.eqb_spec data_offset v1); [reflexivity | contradiction].
  - destruct (Z.eqb_spec data_offset v1); [congruence|].
    destruct (Z.eqb_spec data_offset v2); [reflexivity | contradiction].
  - rewrite Hopen. destruct (Z.eqb_spec data_offset v1); [congruence|].
    destruct (Z.eqb_spec data_offset v2); [reflexivity | contradiction].
  - destruct (Z.eqb_spec data_offset v1); [contradiction|].
    destruct (Z.eqb_spec data_offset v2); [contradiction | reflexivity].
  - rewrite Hopen. destruct (Z.eqb_spec data_offset v1); [contradiction|].
    destruct (Z.eqb_spec data_offset v2); [contradiction | reflexivity].
Qed.

(** C4.  An index that [try_open] returns has one entry for each of the
    [count] index records and each satisfies
    [offset + size <= file_length]; and when the walk parses a record whose
    entry breaks that bound, [try_open] returns [None] for the whole
    archive. *)
Theorem placement_gate (arc : string) (view : ArcView) :
  (forall es, try_open arc view = Ok (Some es) ->
     Forall (fun e => offset e + size e <= max_offset view) es /\
     exists count, read_int16 view 0 = Ok count /\ length es = Z.to_nat count) /\
  (forall count name_length data_offset version (i : nat) e io',
     read_int16 view 0 = Ok count -> is_sane_count count = true ->
     read_byte view 2 = Ok name_length -> name_length <> 0 ->
     read_uint32 view 3 = Ok data_offset -> data_offset < max_offset view ->
     select_version name_length count data_offset = Some version ->
     (i < Z.to_nat count)%nat ->
     (forall j, (j < i)%nat ->
        exists x, parse_entry view version name_length data_offset
                    (7 + Z.of_nat j * (name_length + entry_stride version)) = Ok x) ->
     parse_entry view version name_length data_offset
       (7 + Z.of_nat i * (name_length + entry_stride version)) = Ok (e, io') ->
     max_offset view < offset e + size e ->
     try_open arc view = Ok None).
Proof.
  split.
  - intros es H.
    apply try_open_Some_inv in H
      as (count & nl & d & version & Hc & _ & _ & _ & _ & _ & _ & H).
    unfold ExPac.open_as in H. bind_inv H.
    destruct a as [dir_entries|]; [|discriminate].
    bind_inv H. injection H as <-.
    apply read_index_Some in Ha as (new & -> & Hlen & Hall). simpl in *.
    apply sniff_all_placement in Ha0.
    split.
    + clear Hlen. induction Ha0 as [|e e' es es' [Ho Hs] _ IH]; [constructor|].
      inversion Hall as [|? ? Hc0 Hall']; subst.
      constructor; [|apply IH; assumption].
      unfold check_placement in Hc0. apply Z.leb_le in Hc0. lia.
    + exists count. split; [assumption|].
      rewrite <- Hlen. symmetry. eapply Forall2_length. eassumption.
  - intros count nl d version i e io' Hc Hs Hn Hn0 Hd Hlt Hv Hi Hbefore Hp Hviol.
    rewrite (try_open_header arc view _ _ _ Hc Hs Hn Hn0 Hd Hlt), Hv.
    unfold ExPac.open_as.
    rewrite (read_index_reject view version nl d _ 7 [] i e io' Hi Hbefore Hp Hviol).
    reflexivity.
Qed.

End ParserFacts.

(** C2, as the spec has it, fails: the stored count 0x8000 lies strictly
    between 0 and 65536, yet it is read as -32768, fails the check, and the
    archive is rejected. *)
Lemma stored_count_32768_rejected :
  let view := Samples.big_count_archive in
  0 < le_uint (take 2 view) < 65536 /\
  ExPac.read_int16 view 0 = Ok (-32768) /\
  ExPac.is_sane_count (-32768) = false /\
  ExPac.try_open Samples.ascii_decode Samples.drop_ext "voice" view = Ok None.
Proof. vm_compute. repeat split; reflexivity || discriminate. Qed.

Lemma count_check_signed_witness :
  is_byte 1 /\ is_byte 0 /\
  ExPac.read_int16 Samples.ogg_archive 0 = Ok 1 /\
  (ExPac.is_sane_count 1 = true <-> 0 < 1 + 256 * 0 < 32768).
Proof.
  assert (H0 : is_byte 1) by (unfold is_byte; lia).
  assert (H1 : is_byte 0) by (unfold is_byte; lia).
  pose proof (count_check_signed Samples.ascii_decode Samples.drop_ext "voice"
                1 0 (skipn 2 Samples.ogg_archive) H0 H1) as (Hr & Hs & _).
  split; [exact H0|]. split; [exact H1|]. split; [exact Hr | exact Hs].
Defined.

Lemma version_by_geometry_witness :
  ExPac.select_version 4 1 19 = Some 1 /\
  ExPac.try_open Samples.ascii_decode Samples.drop_ext "voice" Samples.ogg_archive =
  ExPac.open_as Samples.ascii_decode Samples.drop_ext "voice" Samples.ogg_archive 1 1 4 19.
Proof.
  refine (proj1 (proj2 (version_by_geometry Samples.ascii_decode Samples.drop_ext
    "voice" Samples.ogg_archive 1 4 19 _ _ _ _ _ _)) _);
    try reflexivity; try discriminate.
Defined.

Lemma placement_gate_witness :
  Forall (fun e => ExPac.offset e + ExPac.size e <= 23)
    [ExPac.mkEntry "test.ogg" 19 4 "audio"] /\
  ExPac.try_open Samples.ascii_decode Samples.drop_ext "voice"
    Samples.overlong_archive = Ok None.
Proof.
  pose proof (placement_gate Samples.ascii_decode Samples.drop_ext "voice"
                Samples.ogg_archive) as [Hsome _].
  pose proof (placement_gate Samples.ascii_decode Samples.drop_ext "voice"
                Samples.overlong_archive) as [_ Hnone].
  split.
  - apply (Hsome [ExPac.mkEntry "test.ogg" 19 4 "audio"]). reflexivity.
  - apply (Hnone 1 4 19 1 0%nat (ExPac.mkEntry "test" 19 5 "") 19);
      try reflexivity; try discriminate.
    + simpl. lia.
    + intros j Hj. lia.
Defined.

(** ** The script transform *)

Lemma getitem_Ok {A : Type} (l : list A) (i : Z) (x : A) :
  0 <= i -> getitem l i = Ok x ->
  l !! Z.to_nat i = Some x /\ i < Z.of_nat (length l).
Proof.
  intros Hi. unfold getitem, py_index.
  destruct (Z.ltb_spec i 0); [lia|].
  destruct (Z.ltb_spec i (Z.of_nat (length l))); [|discriminate].
  destruct (l !! Z.to_nat i); [|discriminate].
  intros [= <-]. split; [reflexivity | assumption].
Qed.

Lemma getitem_in_range {A : Type} (l : list A) (i : Z) :
  0 <= i < Z.of_nat (length l) -> exists x, getitem l i = Ok x /\ l !! Z.to_nat i = Some x.
Proof.
  intros Hi. destruct (lookup_lt_is_Some_2 l (Z.to_nat i)) as [x Hx]; [lia|].
  exists x. split; [|assumption].
  rewrite <- (Z2Nat.id i) by lia. apply getitem_nat. assumption.
Qed.

Lemma byte_cases (P : Z -> bool) :
  forallb P (map Z.of_nat (seq 0 256)) = true ->
  forall b, is_byte b -> P b = true.
Proof.
  intros H b Hb. rewrite forallb_forall in H. apply H.
  apply in_map_iff. exists (Z.to_nat b). unfold is_byte in Hb.
  split; [lia|]. apply in_seq. lia.
Qed.

Lemma swap_nibbles_involutive (b : Z) :
  is_byte b -> ExPac.swap_nibbles (ExPac.swap_nibbles b) = b.
Proof.
  intros Hb. apply Z.eqb_eq.
  apply (byte_cases (fun b => ExPac.swap_nibbles (ExPac.swap_nibbles b) =? b));
    [vm_compute; reflexivity | assumption].
Qed.

Lemma swap_nibbles_byte (b : Z) : is_byte b -> is_byte (ExPac.swap_nibbles b).
Proof.
  intros Hb.
  pose proof (byte_cases
    (fun b => (0 <=? ExPac.swap_nibbles b) && (ExPac.swap_nibbles b <? 256))
    ltac:(vm_compute; reflexivity) b Hb) as H.
  apply andb_true_iff in H as [H1 H2].
  apply Z.leb_le in H1. apply Z.ltb_lt in H2. split; assumption.
Qed.

(** The inner loop of [open_entry] swaps the nibbles of the [n] bytes from
    [pos] on and leaves the rest of the buffer alone. *)
Lemma swap_range_lookup (n : nat) :
  forall (data : list Z) (p : nat),
    (p + n <= length data)%nat ->
    exists data', ExPac.swap_range n data (Z.of_nat p) = Ok (data', Z.of_nat (p + n)) /\
      length data' = length data /\
      forall i, data' !! i =
                if decide (p <= i < p + n)%nat
                then ExPac.swap_nibbles <$> data !! i else data !! i.
Proof.
  induction n as [|n IH]; intros data p Hlen.
  - exists data. simpl. rewrite Nat.add_0_r. repeat split.
    intros i. destruct (decide _); [lia | reflexivity].
  - destruct (lookup_lt_is_Some_2 data p) as [b Hb]; [lia|].
    simpl. rewrite (getitem_nat _ _ _ Hb). simpl.
    rewrite setitem_nat by lia. simpl.
    destruct (IH (<[p := ExPac.swap_nibbles b]> data) (S p)) as (data' & Hrun & Hl & Hlk).
    { rewrite length_insert. lia. }
    exists data'. replace (Z.of_nat p + 1) with (Z.of_nat (S p)) by lia.
    rewrite Hrun. replace (S p + n)%nat with (p + S n)%nat by lia.
    split; [reflexivity|]. split; [rewrite Hl; apply length_insert|].
    intros i. rewrite Hlk.
    destruct (decide (i = p)) as [->|Hne].
    + destruct (decide _); [lia|]. destruct (decide _); [|lia].
      rewrite list_lookup_insert_eq by lia. rewrite Hb. reflexivity.
    + rewrite list_lookup_insert_ne by congruence.
      destruct (decide _), (decide _); try lia; reflexivity.
Qed.

(** C8.  Swapping the nibbles of a byte twice gives the byte back, so the
    inner loop of [open_entry] run twice over the same payload restores
    the buffer. *)
Theorem nibble_swap_self_inverse :
  (forall b, is_byte b -> ExPac.swap_nibbles (ExPac.swap_nibbles b) = b) /\
  (forall (n : nat) (data : list Z) (p : nat),
     Forall is_byte data -> (p + n <= length data)%nat ->
     exists data1,
       ExPac.swap_range n data (Z.of_nat p) = Ok (data1, Z.of_nat (p + n)) /\
       ExPac.swap_range n data1 (Z.of_nat p) = Ok (data, Z.of_nat (p + n))).
Proof.
  split; [exact swap_nibbles_involutive|].
  intros n data p Hbytes Hlen.
  destruct (swap_range_lookup n data p Hlen) as (data1 & Hrun1 & Hl1 & Hlk1).
  destruct (swap_range_lookup n data1 p ltac:(lia)) as (data2 & Hrun2 & Hl2 & Hlk2).
  exists data1. split; [assumption|].
  rewrite Hrun2. do 2 f_equal.
  apply list_eq. intros i. rewrite Hlk2, Hlk1.
  destruct (decide _); [|reflexivity].
  destruct (data !! i) as [b|] eqn:Hb; [|reflexivity]. simpl.
  rewrite swap_nibbles_involutive; [reflexivity|].
  rewrite Forall_forall in Hbytes. apply Hbytes.
  apply list_elem_of_lookup. eauto.
Qed.

Lemma nibble_swap_self_inverse_witness :
  ExPac.swap_nibbles (ExPac.swap_nibbles 0xA7) = 0xA7 /\
  exists data1,
    ExPac.swap_range 2 [0x12; 0xA7; 0xF0] 1 = Ok (data1, 3) /\
    ExPac.swap_range 2 data1 1 = Ok ([0x12; 0xA7; 0xF0], 3).
Proof.
  assert (Hb : Forall is_byte [0x12; 0xA7; 0xF0])
    by (repeat constructor; unfold is_byte; lia).
  split.
  - apply (proj1 nibble_swap_self_inverse). unfold is_byte. lia.
  - apply (proj2 nibble_swap_self_inverse 2%nat [0x12; 0xA7; 0xF0] 1%nat Hb).
    simpl. lia.
Defined.

(** ** The GRD header *)

(** C5.  On a file of at least 32 bytes [read_grd_metadata] raises nothing;
    it returns [None] exactly when byte 0 is not 1 or 2, or byte 1 is not 1,
    0xA1 or 0xA2, or the bits per pixel are not 24 or 32, or 32 plus the four
    channel sizes differs from the file length; otherwise it returns the
    metadata, whose width and height are the absolute differences of the
    boundary fields. *)
Theorem metadata_gate (file : list Z) :
  (32 <= length file)%nat ->
  let byte := fun i => nth i file 0 in
  let u16 := fun i => le_uint (Grd2Png.slice file i (i + 2)) in
  let u32 := fun i => le_uint (Grd2Png.slice file i (i + 4)) in
  let bits_per_pixel := u16 6%nat in
  let left := u16 8%nat in
  let right := u16 10%nat in
  let top := u16 12%nat in
  let bottom := u16 14%nat in
  let rejected :=
    ~ (byte 0%nat = 1 \/ byte 0%nat = 2) \/
    ~ (byte 1%nat = 1 \/ byte 1%nat = 0xA1 \/ byte 1%nat = 0xA2) \/
    ~ (bits_per_pixel = 24 \/ bits_per_pixel = 32) \/
    32 + u32 16%nat + u32 20%nat + u32 24%nat + u32 28%nat <> Z.of_nat (length file) in
  exists r, Grd2Png.read_grd_metadata file = Ok r /\
    (r = None <-> rejected) /\
    (forall info, r = Some info ->
       Grd2Png.Width info = Z.abs (right - left) /\
       Grd2Png.Height info = Z.abs (bottom - top) /\
       Grd2Png.BPP info = bits_per_pixel).
Proof.
  intros Hlen.
  do 32 (destruct file as [|? file]; [simpl in Hlen; lia|]).
  clear Hlen. cbv zeta. unfold Grd2Png.read_grd_metadata. simpl.
  repeat match goal with
         | |- context [?a =? ?b] => destruct (Z.eqb_spec a b); simpl
         end;
    eexists; (split; [reflexivity|]); (split; [split|]);
    try (intros _; lia); try discriminate;
    try (intros Hrej; exfalso; lia);
    try (intros info [= <-]; simpl; repeat split; reflexivity);
    intros _; reflexivity.
Qed.

Lemma metadata_gate_witness :
  exists r,
    Grd2Png.read_grd_metadata
      ([1; 1;  2; 0;  2; 0;  24; 0;  0; 0;  2; 0;  0; 0;  2; 0;
        0; 0; 0; 0;  1; 0; 0; 0;  1; 0; 0; 0;  1; 0; 0; 0] ++ [0; 0; 0]) = Ok r /\
    forall info, r = Some info ->
      Grd2Png.Width info = 2 /\ Grd2Png.Height info = 2 /\ Grd2Png.BPP info = 24.
Proof.
  destruct (metadata_gate
    ([1; 1;  2; 0;  2; 0;  24; 0;  0; 0;  2; 0;  0; 0;  2; 0;
      0; 0; 0; 0;  1; 0; 0; 0;  1; 0; 0; 0;  1; 0; 0; 0] ++ [0; 0; 0]))
    as (r & Hr & _ & Hinfo).
  - simpl. lia.
  - exists r. split; [exact Hr | exact Hinfo].
Defined.

(** ** Run-length expansion *)

Lemma repeat_count_high (c : Z) :
  is_byte c -> 0x80 <= c -> Grd2Png.rle_repeat_count c = c - 0x80.
Proof.
  intros Hb Hc.
  pose proof (byte_cases
    (fun c => implb (0x80 <=? c) (Grd2Png.rle_repeat_count c =? c - 0x80))
    ltac:(vm_compute; reflexivity) c Hb) as H.
  simpl in H. destruct (Z.leb_spec 0x80 c); [|lia].
  simpl in H. apply Z.eqb_eq in H. exact H.
Qed.

(** Every step of the expander consumes input, so [unpack_rle] gives its
    loop enough fuel. *)
Lemma rle_step_advances (st st' : Grd2Png.rle_state) :
  Grd2Png.rle_step st = Ok st' -> Grd2Png.rle_src st < Grd2Png.rle_src st'.
Proof.
  unfold Grd2Png.rle_step. intros H.
  bind_inv H. destruct a as [count s1].
  destruct (Z.ltb_spec 0x7F count).
  - bind_inv H. destruct a as [v s2]. injection H as <-. simpl. lia.
  - destruct (Z.ltb_spec 0 count); injection H as <-; simpl; lia.
Qed.

Lemma rle_loop_no_timeout (fuel : nat) :
  forall (st : Grd2Png.rle_state) (src_size : Z),
    src_size - Grd2Png.rle_src st <= Z.of_nat fuel ->
    Grd2Png.rle_loop fuel st src_size <> Timeout.
Proof.
  induction fuel as [|fuel IH]; intros st src_size Hfuel; simpl.
  - destruct (Z.ltb_spec (Grd2Png.rle_src st) src_size); [lia | discriminate].
  - destruct (Z.ltb_spec (Grd2Png.rle_src st) src_size); [|discriminate].
    destruct (Grd2Png.rle_step st) as [st'| |] eqn:Hstep; simpl; try discriminate.
    + apply IH. apply rle_step_advances in Hstep. lia.
    + unfold Grd2Png.rle_step in Hstep.
      destruct (Grd2Png.read1 (Grd2Png.rle_input st)) as [[count s1]| |] eqn:H1;
        simpl in Hstep; try discriminate.
      * destruct (0x7F <? count).
        -- destruct (Grd2Png.read1 s1) as [[v s2]| |] eqn:H2; simpl in Hstep;
             try discriminate.
           destruct s1; discriminate.
        -- destruct (0 <? count); discriminate.
      * destruct (Grd2Png.rle_input st); discriminate.
Qed.

Lemma unpack_rle_no_timeout (input_stream : list Z) (src_size : Z) (channel : list Z) :
  Grd2Png.unpack_rle input_stream src_size channel <> Timeout.
Proof.
  unfold Grd2Png.unpack_rle.
  pose proof (rle_loop_no_timeout (Z.to_nat src_size)
                (Grd2Png.mkRle input_stream 0 0 channel) src_size) as H.
  simpl in H.
  destruct (Grd2Png.rle_loop _ _ _); simpl; try discriminate.
  intros _. apply H; [lia | reflexivity].
Qed.

(** C6, as the code has it.  One step of the expander on a control byte [c]:
    with the high bit set the count is [c & 0x7F], from 0 to 127 (0 for
    [c = 0x80]), and the byte after [c] fills that many output bytes at
    [dst]; with the high bit clear and [c] nonzero the next [c] input bytes
    (all that are left when there are fewer) go to the output at [dst];
    [c = 0] changes nothing but the input position, which moves by one. *)
Theorem rle_step_cases (c : Z) (s : list Z) (src dst : Z) (channel : list Z) :
  is_byte c ->
  let st := Grd2Png.mkRle (c :: s) src dst channel in
  (0x80 <= c -> forall v rest, s = v :: rest ->
     let n := Grd2Png.rle_repeat_count c in
     n = c - 0x80 /\ 0 <= n <= 127 /\
     Grd2Png.rle_step st =
     Ok (Grd2Png.mkRle rest (src + 2) (dst + n)
           (take (Z.to_nat dst) channel ++ replicate (Z.to_nat n) v ++
            drop (Z.to_nat dst + Z.to_nat n) channel))) /\
  (0 < c < 0x80 ->
     Grd2Png.rle_step st =
     Ok (Grd2Png.mkRle (drop (Z.to_nat c) s) (src + 1 + c) (dst + c)
           (take (Z.to_nat dst) channel ++ take (Z.to_nat c) s ++
            drop (Z.to_nat dst + Z.to_nat c) channel))) /\
  (c = 0 -> Grd2Png.rle_step st = Ok (Grd2Png.mkRle s (src + 1) dst channel)).
Proof.
  intros Hb st. unfold is_byte in Hb. repeat split.
  - apply repeat_count_high; [exact Hb | assumption].
  - rewrite repeat_count_high by (assumption || exact Hb). lia.
  - rewrite repeat_count_high by (assumption || exact Hb). lia.
  - subst s. unfold Grd2Png.rle_step, st. simpl.
    destruct (Z.ltb_spec 0x7F c); [|lia]. simpl.
    replace (src + 1 + 1) with (src + 2) by lia. reflexivity.
  - intros Hc. unfold Grd2Png.rle_step, st. simpl.
    destruct (Z.ltb_spec 0x7F c); [lia|].
    destruct (Z.ltb_spec 0 c); [|lia]. reflexivity.
  - intros ->. reflexivity.
Qed.

(** C6, as the spec has it, fails at the control byte 0x80: its high bit is
    set and the masked count is 0, not in 1-127; the step consumes the
    control byte and the byte after it and writes nothing. *)
Lemma rle_control_0x80_repeats_nothing :
  0x7F < 0x80 /\
  Grd2Png.rle_repeat_count 0x80 = 0 /\
  ~ (1 <= Grd2Png.rle_repeat_count 0x80 <= 127) /\
  Grd2Png.rle_step (Grd2Png.mkRle [0x80; 7; 1; 9] 0 0 [0; 0]) =
  Ok (Grd2Png.mkRle [1; 9] 2 0 [0; 0]).
Proof. vm_compute. repeat split; try reflexivity. intros [H _]. apply H. reflexivity. Qed.

Lemma rle_step_cases_witness :
  Grd2Png.rle_step (Grd2Png.mkRle [0x83; 7; 1; 9] 0 1 [0; 0; 0; 0; 0]) =
  Ok (Grd2Png.mkRle [1; 9] 2 4 [0; 7; 7; 7; 0]) /\
  Grd2Png.rle_step (Grd2Png.mkRle [2; 7; 9; 0] 0 1 [0; 0; 0; 0; 0]) =
  Ok (Grd2Png.mkRle [0] 3 3 [0; 7; 9; 0; 0]) /\
  Grd2Png.rle_step (Grd2Png.mkRle [0; 7] 5 1 [0; 0]) =
  Ok (Grd2Png.mkRle [7] 6 1 [0; 0]).
Proof.
  split; [|split].
  - refine (proj2 (proj2 (proj1 (rle_step_cases 0x83 [7; 1; 9] 0 1 [0; 0; 0; 0; 0] _)
                                 _ 7 [1; 9] eq_refl)));
      unfold is_byte; lia.
  - refine (proj1 (proj2 (rle_step_cases 2 [7; 9; 0] 0 1 [0; 0; 0; 0; 0] _)) _);
      unfold is_byte; lia.
  - refine (proj2 (proj2 (rle_step_cases 0 [7] 5 1 [0; 0] _)) eq_refl).
    unfold is_byte; lia.
Defined.

(** A slice assignment that fits the buffer is an in-place write. *)
Lemma slice_assign_lookup {A : Type} (l vs : list A) (lo n : nat) :
  length vs = n -> (lo + n <= length l)%nat ->
  length (slice_assign l lo n vs) = length l /\
  forall i, slice_assign l lo n vs !! i =
            if decide (lo <= i < lo + n)%nat then vs !! (i - lo)%nat else l !! i.
Proof.
  intros Hvs Hfit. unfold slice_assign. split.
  - rewrite !length_app, length_take, length_drop. lia.
  - intros i. destruct (decide (lo <= i < lo + n)%nat) as [Hin|Hout].
    + rewrite lookup_app_r by (rewrite length_take; lia).
      rewrite length_take, Nat.min_l by lia.
      apply lookup_app_l. lia.
    + destruct (decide (i < lo)%nat).
      * rewrite lookup_app_l by (rewrite length_take; lia).
        apply lookup_take_lt. assumption.
      * rewrite lookup_app_r by (rewrite length_take; lia).
        rewrite length_take, Nat.min_l by lia.
        rewrite lookup_app_r by lia.
        rewrite lookup_drop. f_equal. lia.
Qed.

(** ** LZ77 expansion *)

(** A back-reference that stays inside the buffer: every byte it writes is
    the byte [offset] places before it in the result, whether that byte was
    there before the copy started or was written by the copy itself. *)
Lemma copy_back_lookup (count : nat) :
  forall (output : list Z) (dst offset : nat),
    (1 <= offset <= dst)%nat -> (dst + count <= length output)%nat ->
    exists output',
      Grd2Png.copy_back count output (Z.of_nat dst) (Z.of_nat offset) =
      Ok (output', Z.of_nat (dst + count)) /\
      length output' = length output /\
      (forall i, (i < dst \/ dst + count <= i)%nat -> output' !! i = output !! i) /\
      (forall i, (dst <= i < dst + count)%nat -> output' !! i = output' !! (i - offset)%nat).
Proof.
  induction count as [|count IH]; intros output dst offset Hoff Hfit.
  - exists output. simpl. rewrite Nat.add_0_r. repeat split. intros i Hi. lia.
  - destruct (lookup_lt_is_Some_2 output (dst - offset)) as [v Hv]; [lia|].
    simpl. replace (Z.of_nat dst - Z.of_nat offset) with (Z.of_nat (dst - offset)) by lia.
    rewrite (getitem_nat _ _ _ Hv). simpl.
    rewrite setitem_nat by lia. simpl.
    destruct (IH (<[dst := v]> output) (S dst) offset)
      as (output' & Hrun & Hlen & Hframe & Hcopy).
    { lia. } { rewrite length_insert. lia. }
    exists output'. replace (Z.of_nat dst + 1) with (Z.of_nat (S dst)) by lia.
    rewrite Hrun. replace (S dst + count)%nat with (dst + S count)%nat in * by lia.
    split; [reflexivity|]. split; [rewrite Hlen; apply length_insert|]. split.
    + intros i Hi. rewrite Hframe by lia. apply list_lookup_insert_ne. lia.
    + intros i Hi. destruct (decide (i = dst)) as [->|Hne].
      * rewrite !Hframe by lia.
        rewrite list_lookup_insert_eq by lia.
        rewrite list_lookup_insert_ne by lia. symmetry. exact Hv.
      * apply Hcopy. lia.
Qed.

(** Every step of the expander reads input, so [unpack_lz77] gives its loop
    enough fuel. *)
Lemma lz77_step_advances (input_data : list Z) (special : Z) (st st' : Grd2Png.lz_state) :
  0 <= Grd2Png.lz_src st ->
  Grd2Png.lz77_step input_data special st = Ok st' ->
  Grd2Png.lz_src st < Grd2Png.lz_src st' <= Z.of_nat (length input_data).
Proof.
  intros Hsrc. unfold Grd2Png.lz77_step. intros H.
  bind_inv H. apply getitem_Ok in Ha as [_ Hb]; [|lia].
  destruct (a =? special).
  - bind_inv H. apply getitem_Ok in Ha as [_ Ho]; [|lia].
    destruct (a0 =? special); simpl in H.
    + bind_inv H. injection H as <-. simpl. lia.
    + bind_inv H. apply getitem_Ok in Ha as [_ Hc]; [|lia].
      bind_inv H. destruct a2 as [output' dst']. injection H as <-. simpl. lia.
  - bind_inv H. injection H as <-. simpl. lia.
Qed.

Lemma copy_back_no_timeout (count : nat) :
  forall output dst offset, Grd2Png.copy_back count output dst offset <> Timeout.
Proof.
  induction count as [|count IH]; intros output dst offset; simpl; [discriminate|].
  unfold getitem. destruct (py_index _ _); simpl; [|discriminate].
  destruct (output !! n); simpl; [|discriminate].
  unfold setitem. destruct (py_index _ _); simpl; [|discriminate].
  apply IH.
Qed.

Lemma lz77_step_no_timeout (input_data : list Z) (special : Z) (st : Grd2Png.lz_state) :
  Grd2Png.lz77_step input_data special st <> Timeout.
Proof.
  assert (Hget : forall (l : list Z) i, getitem l i <> Timeout).
  { intros l i. unfold getitem. destruct (py_index _ _); [|discriminate].
    destruct (l !! n); discriminate. }
  assert (Hset : forall (l : list Z) i x, setitem l i x <> Timeout).
  { intros l i x. unfold setitem. destruct (py_index _ _); discriminate. }
  unfold Grd2Png.lz77_step.
  destruct (getitem input_data (Grd2Png.lz_src st)) as [b| |] eqn:Hb; simpl;
    [|discriminate|exfalso; eapply Hget; eassumption].
  destruct (b =? special).
  - destruct (getitem input_data (Grd2Png.lz_src st + 1)) as [o| |] eqn:Ho; simpl;
      [|discriminate|exfalso; eapply Hget; eassumption].
    destruct (o =? special); simpl.
    + destruct (setitem _ _ _) eqn:Hs; simpl; try discriminate.
      exfalso; eapply Hset; eassumption.
    + destruct (getitem input_data (Grd2Png.lz_src st + 1 + 1)) as [c| |] eqn:Hc; simpl;
        [|discriminate|exfalso; eapply Hget; eassumption].
      destruct (Grd2Png.copy_back _ _ _ _) as [[? ?]| |] eqn:Hcb; simpl; try discriminate.
      exfalso; eapply copy_back_no_timeout; eassumption.
  - destruct (setitem _ _ _) eqn:Hs; simpl; try discriminate.
    exfalso; eapply Hset; eassumption.
Qed.

Lemma lz77_loop_no_timeout (input_data : list Z) (special : Z) (fuel : nat) :
  forall st : Grd2Png.lz_state,
    0 <= Grd2Png.lz_src st ->
    (0 < fuel)%nat ->
    Z.of_nat (length input_data) - Grd2Png.lz_src st < Z.of_nat fuel ->
    Grd2Png.lz77_loop fuel input_data special st <> Timeout.
Proof.
  induction fuel as [|fuel IH]; intros st Hsrc Hpos Hfuel; [lia|].
  simpl. destruct (_ <? _); [|discriminate].
  destruct (Grd2Png.lz77_step input_data special st) as [st'| |] eqn:Hstep; simpl;
    [|discriminate|exfalso; eapply lz77_step_no_timeout; eassumption].
  apply lz77_step_advances in Hstep; [|assumption].
  apply IH; lia.
Qed.

Lemma unpack_lz77_no_timeout (input_data output : list Z) :
  Grd2Png.unpack_lz77 input_data output <> Timeout.
Proof.
  unfold Grd2Png.unpack_lz77.
  destruct (getitem input_data 8) as [special| |] eqn:Hs; simpl; try discriminate.
  - apply getitem_Ok in Hs as [_ Hlen]; [|lia].
    pose proof (lz77_loop_no_timeout input_data special (length input_data)
                  (Grd2Png.mkLz 12 0 output)) as H. simpl in H.
    destruct (Grd2Png.lz77_loop _ _ _ _); simpl; try discriminate.
    intros _. apply H; [lia | lia | lia | reflexivity].
  - unfold getitem in Hs. destruct (py_index _ _); [|discriminate].
    destruct (input_data !! n); discriminate.
Qed.

(** A literal in the stream, plain or escaped, is one step of the expander
    and one byte of output. *)
Lemma lz77_step_literal (pre post output : list Z) (special b : Z) (dst : nat) :
  (dst < length output)%nat ->
  Grd2Png.lz77_step (pre ++ Lz77Spec.literal special b ++ post) special
    (Grd2Png.mkLz (Z.of_nat (length pre)) (Z.of_nat dst) output) =
  Ok (Grd2Png.mkLz (Z.of_nat (length pre + length (Lz77Spec.literal special b)))
        (Z.of_nat (S dst)) (<[dst := b]> output)).
Proof.
  intros Hdst. unfold Grd2Png.lz77_step, Lz77Spec.literal.
  cbn [Grd2Png.lz_src Grd2Png.lz_dst Grd2Png.lz_output].
  destruct (Z.eqb_spec b special) as [->|Hne].
  - rewrite (getitem_nat _ (length pre) special) by (apply list_lookup_middle; reflexivity).
    cbn [bind]. rewrite Z.eqb_refl.
    replace (Z.of_nat (length pre) + 1) with (Z.of_nat (length (pre ++ [special]))).
    2:{ rewrite length_app. simpl. lia. }
    rewrite (getitem_nat _ _ special).
    2:{ change ([special; special] ++ post) with ([special] ++ special :: post).
        rewrite app_assoc. apply list_lookup_middle. reflexivity. }
    cbn [bind]. rewrite Z.eqb_refl. cbn [negb].
    rewrite setitem_nat by assumption. cbn [bind].
    f_equal. f_equal; rewrite ?length_app; simpl; lia.
  - rewrite (getitem_nat _ (length pre) b) by (apply list_lookup_middle; reflexivity).
    cbn [bind]. destruct (Z.eqb_spec b special); [contradiction|].
    rewrite setitem_nat by assumption. cbn [bind].
    f_equal. f_equal; simpl; lia.
Qed.

(** A back-reference in the stream is one step: the copy loop at the
    adjusted offset. *)
Lemma lz77_step_back_reference (pre post output : list Z) (special o count dst : Z) :
  o <> special ->
  Grd2Png.lz77_step (pre ++ [special; o; count] ++ post) special
    (Grd2Png.mkLz (Z.of_nat (length pre)) dst output) =
  let* '(output', dst') :=
    Grd2Png.copy_back (Z.to_nat count) output dst (if special <? o then o - 1 else o) in
  Ok (Grd2Png.mkLz (Z.of_nat (length pre + 3)) dst' output').
Proof.
  intros Hne. unfold Grd2Png.lz77_step.
  cbn [Grd2Png.lz_src Grd2Png.lz_dst Grd2Png.lz_output].
  rewrite (getitem_nat _ (length pre) special) by (apply list_lookup_middle; reflexivity).
  cbn [bind]. rewrite Z.eqb_refl.
  replace (Z.of_nat (length pre) + 1) with (Z.of_nat (length (pre ++ [special]))).
  2:{ rewrite length_app. simpl. lia. }
  rewrite (getitem_nat _ _ o).
  2:{ change ([special; o; count] ++ post) with ([special] ++ o :: count :: post).
      rewrite app_assoc. apply list_lookup_middle. reflexivity. }
  cbn [bind]. destruct (Z.eqb_spec o special); [contradiction|]. cbn [negb].
  replace (Z.of_nat (length (pre ++ [special])) + 1)
    with (Z.of_nat (length (pre ++ [special; o]))).
  2:{ rewrite !length_app. simpl. lia. }
  rewrite (getitem_nat _ _ count).
  2:{ change ([special; o; count] ++ post) with ([special; o] ++ count :: post).
      rewrite app_assoc. apply list_lookup_middle. reflexivity. }
  cbn [bind].
  replace (Z.of_nat (length (pre ++ [special; o])) + 1) with (Z.of_nat (length pre + 3)).
  2:{ rewrite length_app. simpl. lia. }
  reflexivity.
Qed.

Lemma literals_length (special : Z) (p : list Z) :
  (length p <= length (Lz77Spec.literals special p))%nat.
Proof.
  induction p as [|b p IH]; [reflexivity|].
  unfold Lz77Spec.literals in *. cbn [flat_map]. rewrite length_app.
  unfold Lz77Spec.literal at 1. destruct (b =? special); simpl; lia.
Qed.

(** The expander over a run of literals: one step and one output byte for
    each, whatever the buffer held there. *)
Lemma lz77_emit_literals (special : Z) (p : list Z) :
  forall (pre post output : list Z) (dst fuel : nat),
    (dst + length p <= length output)%nat ->
    Grd2Png.lz77_loop (length p + fuel) (pre ++ Lz77Spec.literals special p ++ post) special
      (Grd2Png.mkLz (Z.of_nat (length pre)) (Z.of_nat dst) output) =
    Grd2Png.lz77_loop fuel (pre ++ Lz77Spec.literals special p ++ post) special
      (Grd2Png.mkLz (Z.of_nat (length pre + length (Lz77Spec.literals special p)))
         (Z.of_nat (dst + length p))
         (take dst output ++ p ++ drop (dst + length p) output)).
Proof.
  induction p as [|b p IH]; intros pre post output dst fuel Hfit.
  - cbn [length Nat.add Lz77Spec.literals flat_map app].
    rewrite !Nat.add_0_r, take_drop. reflexivity.
  - cbn [length] in Hfit.
    assert (Hb : output !! dst = output !! dst) by reflexivity.
    change (Lz77Spec.literals special (b :: p))
      with (Lz77Spec.literal special b ++ Lz77Spec.literals special p).
    cbn [length Nat.add Grd2Png.lz77_loop Grd2Png.lz_dst Grd2Png.lz_output].
    destruct (Z.ltb_spec (Z.of_nat dst) (Z.of_nat (length output))); [|lia].
    rewrite <- (app_assoc (Lz77Spec.literal special b)).
    rewrite lz77_step_literal by lia. cbn [bind].
    rewrite <- length_app.
    rewrite (app_assoc pre (Lz77Spec.literal special b)).
    rewrite IH by (rewrite length_insert; lia).
    f_equal. f_equal.
    + rewrite !length_app. lia.
    + lia.
    + rewrite (take_S_r _ _ b) by (apply list_lookup_insert_eq; lia).
      rewrite take_insert_ge by lia. rewrite drop_insert_lt by lia.
      rewrite <- app_assoc. cbn [app].
      replace (S dst + length p)%nat with (dst + S (length p))%nat by lia. reflexivity.
Qed.

(** A back-reference that does not fit what is left of the buffer: the
    store one past the end raises. *)
Lemma copy_back_overflow (count : nat) :
  forall (output : list Z) (dst offset : nat),
    (1 <= offset <= dst)%nat -> (dst <= length output)%nat ->
    (length output < dst + count)%nat ->
    Grd2Png.copy_back count output (Z.of_nat dst) (Z.of_nat offset) = Raise IndexError.
Proof.
  induction count as [|count IH]; intros output dst offset Hoff Hin Hover; [lia|].
  destruct (lookup_lt_is_Some_2 output (dst - offset)) as [v Hv]; [lia|].
  cbn [Grd2Png.copy_back].
  replace (Z.of_nat dst - Z.of_nat offset) with (Z.of_nat (dst - offset)) by lia.
  rewrite (getitem_nat _ _ _ Hv). cbn [bind].
  destruct (decide (dst = length output)) as [Hend|Hmid].
  - unfold setitem, py_index.
    destruct (Z.ltb_spec (Z.of_nat dst) 0); [lia|].
    destruct (Z.ltb_spec (Z.of_nat dst) (Z.of_nat (length output))); [lia|].
    reflexivity.
  - rewrite setitem_nat by lia. cbn [bind].
    replace (Z.of_nat dst + 1) with (Z.of_nat (S dst)) by lia.
    apply IH; rewrite ?length_insert; lia.
Qed.

(** Once the buffer is full the loop stops, whatever fuel is left. *)
Lemma lz77_loop_full (fuel : nat) (input_data : list Z) (special src : Z) (output : list Z) :
  Grd2Png.lz77_loop fuel input_data special
    (Grd2Png.mkLz src (Z.of_nat (length output)) output) =
  Ok (Grd2Png.mkLz src (Z.of_nat (length output)) output).
Proof.
  destruct fuel; cbn [Grd2Png.lz77_loop Grd2Png.lz_dst Grd2Png.lz_output];
    rewrite Z.ltb_irrefl; reflexivity.
Qed.

(** C7.  The expander copies a back-reference one byte at a time, source and
    destination advancing together, into a channel buffer of fixed length.
    After any output prefix [p], written by the stream before it, a
    back-reference with effective offset [k] inside the prefix and count
    [count] that fits the buffer puts [count] bytes behind [p], byte [i] of
    them being byte [i mod k] of the last [k] bytes of [p]; the stream
    after it goes on behind them.  With effective offset 1 and count 5
    these are five copies of the last byte of [p].  Where the buffer has
    room behind [p] but less than [count], the expander raises IndexError:
    nothing is appended to the buffer. *)
Theorem lz77_overlapping_run (hdr p q rest output : list Z) (special o count : Z) (k : nat) :
  length hdr = 12%nat -> hdr !! 8%nat = Some special ->
  o <> special -> (if special <? o then o - 1 else o) = Z.of_nat k ->
  (1 <= k <= length p)%nat ->
  (length output = (length p + Z.to_nat count + length q)%nat ->
   exists run,
     Grd2Png.unpack_lz77
       (hdr ++ Lz77Spec.literals special p ++ [special; o; count] ++
        Lz77Spec.literals special q ++ rest) output = Ok (p ++ run ++ q) /\
     length run = Z.to_nat count /\
     (forall i, (i < Z.to_nat count)%nat ->
        run !! i = p !! (length p - k + i mod k)%nat) /\
     (k = 1%nat -> count = 5 -> forall prev, last p = Some prev ->
        run = replicate 5 prev)) /\
  ((length p < length output < length p + Z.to_nat count)%nat ->
   Grd2Png.unpack_lz77
     (hdr ++ Lz77Spec.literals special p ++ [special; o; count] ++ rest) output =
   Raise IndexError).
Proof.
  intros Hhdr Hspecial Hne Hoff Hk.
  pose proof (literals_length special p) as Hlp.
  pose proof (literals_length special q) as Hlq.
  split.
  - intros Hlen. set (n := Z.to_nat count) in *.
    set (stream := hdr ++ _).
    assert (Hget : getitem stream 8 = Ok special).
    { change 8 with (Z.of_nat 8). apply getitem_nat. unfold stream.
      rewrite lookup_app_l by lia. exact Hspecial. }
    assert (Hfuel : exists f, length stream = (length p + S (length q + f))%nat).
    { exists (length stream - length p - S (length q))%nat. unfold stream.
      rewrite !length_app. cbn [length]. lia. }
    destruct Hfuel as [f Hfuel].
    unfold Grd2Png.unpack_lz77. rewrite Hget. cbn [bind]. rewrite Hfuel.
    change 12 with (Z.of_nat 12). rewrite <- Hhdr. change 0 with (Z.of_nat 0).
    unfold stream. rewrite lz77_emit_literals by lia.
    change (take 0 output) with (@nil Z). rewrite app_nil_l.
    change (0 + length p)%nat with (length p).
    set (output1 := p ++ drop (length p) output).
    assert (Hlen1 : length output1 = length output).
    { unfold output1. rewrite length_app, length_drop. lia. }
    destruct (copy_back_lookup n output1 (length p) k Hk ltac:(lia))
      as (output2 & Hrun & Hlen2 & Hframe & Hcopy).
    assert (Hprefix : take (length p) output2 = p).
    { apply list_eq. intros i. destruct (decide (i < length p)%nat).
      - rewrite lookup_take_lt by assumption. rewrite Hframe by lia.
        unfold output1. apply lookup_app_l. assumption.
      - rewrite lookup_take_ge by lia. symmetry. apply lookup_ge_None_2. lia. }
    exists (take n (drop (length p) output2)).
    assert (Hrunlen : length (take n (drop (length p) output2)) = n).
    { rewrite length_take, length_drop. lia. }
    assert (Hbytes : forall i, (i < n)%nat ->
              take n (drop (length p) output2) !! i = p !! (length p - k + i mod k)%nat).
    { intros i. induction i as [i IH] using lt_wf_ind. intros Hi.
      rewrite lookup_take_lt by assumption. rewrite lookup_drop.
      rewrite Hcopy by lia.
      destruct (Nat.lt_ge_cases i k) as [Hsmall|Hbig].
      - rewrite Nat.mod_small by assumption. rewrite Hframe by lia.
        unfold output1. rewrite lookup_app_l by lia. f_equal. lia.
      - replace (length p + i - k)%nat with (length p + (i - k))%nat by lia.
        rewrite <- lookup_drop. rewrite <- (lookup_take_lt _ n) by lia.
        rewrite IH by lia. f_equal. f_equal.
        replace i with ((i - k) + 1 * k)%nat at 2 by lia.
        rewrite Nat.Div0.mod_add. reflexivity. }
    split; [|split; [exact Hrunlen|split; [exact Hbytes|]]].
    + destruct (decide (length p < length output)%nat) as [Hroom|Hfull].
      * cbn [Grd2Png.lz77_loop Grd2Png.lz_dst Grd2Png.lz_output]. rewrite Hlen1.
        destruct (Z.ltb_spec (Z.of_nat (length p)) (Z.of_nat (length output))); [|lia].
        rewrite <- length_app.
        rewrite (app_assoc hdr (Lz77Spec.literals special p)).
        rewrite lz77_step_back_reference by assumption.
        rewrite Hoff. fold n. rewrite Hrun. cbn [bind].
        rewrite (app_assoc (hdr ++ Lz77Spec.literals special p) [special; o; count]).
        replace (length (hdr ++ Lz77Spec.literals special p) + 3)%nat
          with (length ((hdr ++ Lz77Spec.literals special p) ++ [special; o; count])).
        2:{ rewrite (length_app _ [special; o; count]). reflexivity. }
        rewrite lz77_emit_literals by lia.
        replace (Z.of_nat (length p + n + length q))
          with (Z.of_nat (length (take (length p + n) output2 ++ q ++
                                   drop (length p + n + length q) output2))).
        2:{ rewrite !length_app, length_take, length_drop. lia. }
        rewrite lz77_loop_full. cbn [bind Grd2Png.lz_output].
        f_equal. rewrite <- take_take_drop, Hprefix.
        rewrite (drop_ge output2 (length p + n + length q)) by lia.
        rewrite app_nil_r, <- app_assoc. reflexivity.
      * assert (Hn : n = 0%nat) by lia. assert (Hq : q = []).
        { destruct q; [reflexivity|]. simpl in Hlen. lia. }
        replace (Z.of_nat (length p)) with (Z.of_nat (length output1)) by lia.
        rewrite lz77_loop_full. cbn [bind Grd2Png.lz_output].
        f_equal. unfold output1. rewrite Hn, Hq. simpl.
        rewrite drop_ge by lia. reflexivity.
    + intros Hk1 Hc5 prev Hlast. subst k. unfold n in *. rewrite Hc5 in *.
      change (Z.to_nat 5) with 5%nat in *.
      apply list_eq. intros i. destruct (decide (i < 5)%nat) as [Hi|Hi].
      * rewrite Hbytes by assumption. rewrite Nat.mod_1_r, Nat.add_0_r.
        rewrite last_lookup in Hlast.
        replace (length p - 1)%nat with (pred (length p)) by lia.
        rewrite Hlast. symmetry. apply lookup_replicate_2. assumption.
      * rewrite (lookup_ge_None_2 (replicate 5 prev)) by (rewrite length_replicate; lia).
        apply lookup_ge_None_2. lia.
  - intros Hroom. set (n := Z.to_nat count) in *.
    set (stream := hdr ++ _).
    assert (Hget : getitem stream 8 = Ok special).
    { change 8 with (Z.of_nat 8). apply getitem_nat. unfold stream.
      rewrite lookup_app_l by lia. exact Hspecial. }
    assert (Hfuel : exists f, length stream = (length p + S f)%nat).
    { exists (length stream - length p - 1)%nat. unfold stream.
      rewrite !length_app. cbn [length]. lia. }
    destruct Hfuel as [f Hfuel].
    unfold Grd2Png.unpack_lz77. rewrite Hget. cbn [bind]. rewrite Hfuel.
    change 12 with (Z.of_nat 12). rewrite <- Hhdr. change 0 with (Z.of_nat 0).
    unfold stream. rewrite lz77_emit_literals by lia.
    change (take 0 output) with (@nil Z). rewrite app_nil_l.
    change (0 + length p)%nat with (length p).
    set (output1 := p ++ drop (length p) output).
    assert (Hlen1 : length output1 = length output).
    { unfold output1. rewrite length_app, length_drop. lia. }
    cbn [Grd2Png.lz77_loop Grd2Png.lz_dst Grd2Png.lz_output]. rewrite Hlen1.
    destruct (Z.ltb_spec (Z.of_nat (length p)) (Z.of_nat (length output))); [|lia].
    rewrite <- length_app.
    rewrite (app_assoc hdr (Lz77Spec.literals special p)).
    rewrite lz77_step_back_reference by assumption.
    rewrite Hoff. fold n. rewrite copy_back_overflow by lia. reflexivity.
Qed.

Lemma lz77_overlapping_run_witness :
  Grd2Png.unpack_lz77
    [0; 0; 0; 0; 0; 0; 0; 0; 0xFF; 0; 0; 0; 0x41; 0xFF; 0xFF; 0xFF; 1; 5; 0x42]
    [9; 9; 9; 9; 9; 9; 9; 9] =
    Ok [0x41; 0xFF; 0xFF; 0xFF; 0xFF; 0xFF; 0xFF; 0x42] /\
  Grd2Png.unpack_lz77
    [0; 0; 0; 0; 0; 0; 0; 0; 0xFF; 0; 0; 0; 0x41; 0x42; 0xFF; 2; 5]
    [9; 9; 9; 9; 9; 9; 9] =
    Ok [0x41; 0x42; 0x41; 0x42; 0x41; 0x42; 0x41] /\
  Grd2Png.unpack_lz77
    [0; 0; 0; 0; 0; 0; 0; 0; 0xFF; 0; 0; 0; 0x41; 0xFF; 0xFF; 0xFF; 1; 5; 0x42]
    [9; 9; 9; 9; 9; 9] = Raise IndexError.
Proof.
  pose proof (lz77_overlapping_run [0; 0; 0; 0; 0; 0; 0; 0; 0xFF; 0; 0; 0]
                [0x41; 0xFF] [0x42] [] [9; 9; 9; 9; 9; 9; 9; 9] 0xFF 1 5 1
                eq_refl eq_refl ltac:(discriminate) eq_refl ltac:(simpl; lia)) as [Hfit _].
  pose proof (lz77_overlapping_run [0; 0; 0; 0; 0; 0; 0; 0; 0xFF; 0; 0; 0]
                [0x41; 0x42] [] [] [9; 9; 9; 9; 9; 9; 9] 0xFF 2 5 2
                eq_refl eq_refl ltac:(discriminate) eq_refl ltac:(simpl; lia)) as [Hpair _].
  pose proof (lz77_overlapping_run [0; 0; 0; 0; 0; 0; 0; 0; 0xFF; 0; 0; 0]
                [0x41; 0xFF] [] [0x42] [9; 9; 9; 9; 9; 9] 0xFF 1 5 1
                eq_refl eq_refl ltac:(discriminate) eq_refl ltac:(simpl; lia)) as [_ Hshort].
  split; [|split].
  - destruct (Hfit eq_refl) as (run & Hrun & _ & _ & Hfive).
    rewrite (Hfive eq_refl eq_refl 0xFF eq_refl) in Hrun. exact Hrun.
  - destruct (Hpair eq_refl) as (run & Hrun & Hlen & Hbytes & _).
    assert (Hpattern : run = [0x41; 0x42; 0x41; 0x42; 0x41]).
    { apply list_eq. intros i.
      do 5 (destruct i as [|i]; [apply Hbytes; simpl; lia|]).
      apply lookup_ge_None_2. rewrite Hlen. simpl. lia. }
    rewrite Hpattern in Hrun. exact Hrun.
  - apply Hshort. simpl. lia.
Defined.

(** Without room for the whole run the expander raises instead of
    appending, and at the empty prefix, where no output byte precedes, the
    run repeats the last byte of the buffer. *)
Lemma lz77_run_needs_room :
  Grd2Png.unpack_lz77 [0; 0; 0; 0; 0; 0; 0; 0; 0xFF; 0; 0; 0; 0x41; 0xFF; 1; 5]
    [0; 0; 0; 0] = Raise IndexError /\
  Grd2Png.unpack_lz77 [0; 0; 0; 0; 0; 0; 0; 0; 0xFF; 0; 0; 0; 0xFF; 1; 5]
    [0; 0; 0; 0; 9] = Ok [9; 9; 9; 9; 9].
Proof. split; reflexivity. Qed.

(** The whole expander on a stream that holds a literal and such a
    back-reference. *)
Example unpack_lz77_run :
  Grd2Png.unpack_lz77 [0; 0; 0; 0; 0; 0; 0; 0; 0xFF; 0; 0; 0; 0x41; 0xFF; 1; 5]
    [0; 0; 0; 0; 0; 0] = Ok [0x41; 0x41; 0x41; 0x41; 0x41; 0x41].
Proof. reflexivity. Qed.

(** ** Interleaving a channel into the pixel buffer *)

Example decode_rle_image :
  Grd2Png.decode_grd Samples.rle_image =
  Ok (Some (Samples.rle_image_info, [30; 7; 3;  40; 7; 4;  10; 7; 1;  20; 7; 2])).
Proof. reflexivity. Qed.

Lemma interleave_row_frame (n : nat) :
  forall (output channel : list Z) (src dst pixel_size : Z) output' dst',
    0 <= dst -> 0 <= pixel_size ->
    Grd2Png.interleave_row n output channel src dst pixel_size = Ok (output', dst') ->
    dst' = dst + Z.of_nat n * pixel_size /\
    length output' = length output /\
    forall i : nat,
      (forall k, 0 <= k < Z.of_nat n -> Z.of_nat i <> dst + k * pixel_size) ->
      output' !! i = output !! i.
Proof.
  induction n as [|n IH]; intros output channel src dst ps output' dst' Hdst Hps H;
    simpl in H.
  - injection H as <- <-. repeat split. lia.
  - bind_inv H. bind_inv H.
    apply setitem_Ok in Ha0 as [-> Hlt]; [|assumption].
    apply IH in H as (-> & Hlen & Hframe); [|lia|lia].
    split; [lia|]. split; [rewrite Hlen; apply length_insert|].
    intros i Hi. rewrite Hframe.
    + apply list_lookup_insert_ne. specialize (Hi 0 ltac:(lia)). lia.
    + intros k Hk. specialize (Hi (k + 1) ltac:(lia)). lia.
Qed.

Lemma interleave_frame (rows : nat) (width : Z) :
  forall (output channel : list Z) (dst pixel_size : Z) output' dst',
    0 <= dst -> 0 <= pixel_size ->
    Grd2Png.interleave rows width output channel dst pixel_size = Ok (output', dst') ->
    dst' = dst + Z.of_nat (rows * Z.to_nat width) * pixel_size /\
    length output' = length output /\
    forall i : nat,
      (forall k, 0 <= k < Z.of_nat (rows * Z.to_nat width) ->
                 Z.of_nat i <> dst + k * pixel_size) ->
      output' !! i = output !! i.
Proof.
  induction rows as [|y IH]; intros output channel dst ps output' dst' Hdst Hps H;
    simpl in H.
  - injection H as <- <-. repeat split. simpl. lia.
  - bind_inv H. destruct a as [output1 dst1].
    apply interleave_row_frame in Ha as (-> & Hlen1 & Hframe1); [|assumption|assumption].
    apply IH in H as (-> & Hlen & Hframe); [|nia|assumption].
    split; [nia|]. split; [congruence|].
    intros i Hi. rewrite Hframe.
    + apply Hframe1. intros k Hk. apply Hi. nia.
    + intros k Hk.
      specialize (Hi (Z.of_nat (Z.to_nat width) + k) ltac:(nia)). nia.
Qed.

(** C10.  [unpack_channel] with channel offset [d] changes the pixel buffer
    only at the indices [d + k * pixel_size] for [k] below
    [Width * Height]; its length and all its other bytes stay as they were,
    in particular every byte at another offset within a pixel. *)
Theorem unpack_channel_frame (r r' : Grd2Png.GrdReader) (d src_pos src_size : Z) :
  0 <= d -> 0 <= Grd2Png.pixel_size r ->
  Grd2Png.unpack_channel r d src_pos src_size = Ok r' ->
  length (Grd2Png.output r') = length (Grd2Png.output r) /\
  (forall i : nat,
     (forall k, 0 <= k < Grd2Png.Width (Grd2Png.info r) * Grd2Png.Height (Grd2Png.info r) ->
                Z.of_nat i <> d + k * Grd2Png.pixel_size r) ->
     Grd2Png.output r' !! i = Grd2Png.output r !! i) /\
  (forall i : nat,
     d < Grd2Png.pixel_size r ->
     Z.of_nat i mod Grd2Png.pixel_size r <> d ->
     Grd2Png.output r' !! i = Grd2Png.output r !! i).
Proof.
  intros Hd Hps H. unfold Grd2Png.unpack_channel in H.
  bind_inv H. bind_inv H. destruct a0 as [output' dst']. injection H as <-. simpl.
  apply interleave_frame in Ha0 as (_ & Hlen & Hframe); [|assumption|assumption].
  assert (Hwrites : forall i : nat,
    (forall k, 0 <= k < Grd2Png.Width (Grd2Png.info r) * Grd2Png.Height (Grd2Png.info r) ->
               Z.of_nat i <> d + k * Grd2Png.pixel_size r) ->
    output' !! i = Grd2Png.output r !! i).
  { intros i Hi. apply Hframe. intros k Hk. apply Hi. nia. }
  split; [exact Hlen|]. split; [exact Hwrites|].
  intros i Hlt Hmod. apply Hwrites. intros k _ Heq. apply Hmod.
  rewrite Heq, Z.mod_add by lia. apply Z.mod_small. lia.
Qed.

Lemma unpack_channel_frame_witness :
  exists r',
    Grd2Png.unpack_channel (Grd2Png.new_reader Samples.rle_image Samples.rle_image_info)
      0 0x20 5 = Ok r' /\
    Grd2Png.output r' = [30; 0; 0;  40; 0; 0;  10; 0; 0;  20; 0; 0] /\
    forall i : nat, Z.of_nat i mod 3 <> 0 ->
      Grd2Png.output r' !! i = replicate 12 0 !! i.
Proof.
  eexists. split; [reflexivity|]. split; [reflexivity|].
  intros i Hi.
  refine (proj2 (proj2 (unpack_channel_frame
            (Grd2Png.new_reader Samples.rle_image Samples.rle_image_info)
            _ 0 0x20 5 _ _ eq_refl)) i _ Hi);
    change (Grd2Png.pixel_size _) with 3; lia.
Defined.

(** ** Huffman tree construction *)

Section HuffmanFacts.

Import Grd2Png HuffmanSpec.

Lemma node_at_Some (nodes : list HuffmanNode) (i : nat) (nd : HuffmanNode) :
  nodes !! i = Some nd -> node_at nodes i = Ok nd.
Proof. intros H. unfold node_at. rewrite H. reflexivity. Qed.

Lemma node_at_lt (nodes : list HuffmanNode) (i : nat) :
  (i < length nodes)%nat -> exists nd, nodes !! i = Some nd /\ node_at nodes i = Ok nd.
Proof.
  intros H. destruct (lookup_lt_is_Some_2 nodes i H) as [nd Hnd].
  exists nd. split; [assumption | apply node_at_Some; assumption].
Qed.

(** The scan of [add_node] passes over nodes that are not more frequent
    than the new one and stops before the first that is. *)
Lemma insert_by_freq_skip (nodes : list HuffmanNode) (f : Z) (index : nat)
    (pre post : list nat) :
  Forall (fun i => exists nd, nodes !! i = Some nd /\ freq nd <= f) pre ->
  insert_by_freq nodes f index (pre ++ post) =
  let* post' := insert_by_freq nodes f index post in Ok (pre ++ post').
Proof.
  induction 1 as [|i pre (nd & Hnd & Hle) _ IH]; simpl.
  - destruct (insert_by_freq nodes f index post); reflexivity.
  - rewrite (node_at_Some _ _ _ Hnd). simpl.
    destruct (Z.ltb_spec f (freq nd)); [lia|].
    rewrite IH. destruct (insert_by_freq nodes f index post); reflexivity.
Qed.

Lemma insert_by_freq_stop (nodes : list HuffmanNode) (f : Z) (index p : nat)
    (post : list nat) (nd : HuffmanNode) :
  nodes !! p = Some nd -> f < freq nd ->
  insert_by_freq nodes f index (p :: post) = Ok (index :: p :: post).
Proof.
  intros Hnd Hlt. simpl. rewrite (node_at_Some _ _ _ Hnd). simpl.
  destruct (Z.ltb_spec f (freq nd)); [reflexivity | lia].
Qed.

(** On a list of valid indices the scan succeeds and adds exactly the new
    index. *)
Lemma insert_by_freq_ok (nodes : list HuffmanNode) (f : Z) (index : nat) (tree : list nat) :
  Forall (fun i => (i < length nodes)%nat) tree ->
  exists pre post, tree = pre ++ post /\
    insert_by_freq nodes f index tree = Ok (pre ++ index :: post).
Proof.
  induction 1 as [|i tree Hi _ (pre & post & -> & IH)]; simpl.
  - exists [], []. split; reflexivity.
  - destruct (node_at_lt nodes i Hi) as (nd & _ & ->). simpl.
    destruct (f <? freq nd).
    + exists [], (i :: pre ++ post). split; reflexivity.
    + rewrite IH. simpl. exists (i :: pre), post. split; reflexivity.
Qed.

Lemma add_node_ok (tree : list nat) (nodes : list HuffmanNode) (index : nat) :
  (index < length nodes)%nat ->
  Forall (fun i => (i < length nodes)%nat) tree ->
  exists pre post, tree = pre ++ post /\
    add_node tree nodes index = Ok (pre ++ index :: post).
Proof.
  intros Hi Htree. unfold add_node.
  destruct (node_at_lt nodes index Hi) as (nd & _ & ->). simpl.
  apply insert_by_freq_ok. assumption.
Qed.

Lemma read_u32_ok (s : list Z) :
  (4 <= length s)%nat -> read_u32 s = Ok (le_uint (take 4 s), drop 4 s).
Proof.
  intros H. unfold read_u32, unpack_unsigned.
  rewrite length_take, Nat.min_l by lia. reflexivity.
Qed.

(** An invariant [I] of the seeding loop that every iteration keeps holds
    when the loop ends; [k] counts the iterations done and the frequency read
    in iteration [k] is entry [k] of the table the stream starts with. *)
Lemma seed_leaves_invariant (I : nat -> list nat -> list HuffmanNode -> Prop) (n : nat) :
  forall (i : nat) (s : list Z) (tree : list nat) (nodes : list HuffmanNode),
    (4 * n <= length s)%nat ->
    I i tree nodes ->
    (forall k tree nodes, (k < n)%nat -> I (i + k)%nat tree nodes ->
       exists nd tree',
         nodes !! (i + k)%nat = Some nd /\
         add_node tree
           (<[(i + k)%nat := mkNode (nth k (fields 4 n s) 0) (left nd) (right nd)]> nodes)
           (i + k) = Ok tree' /\
         I (S (i + k)) tree'
           (<[(i + k)%nat := mkNode (nth k (fields 4 n s) 0) (left nd) (right nd)]> nodes)) ->
    exists tree' nodes',
      seed_leaves n i s tree nodes = Ok (drop (4 * n) s, tree', nodes') /\
      I (i + n)%nat tree' nodes'.
Proof.
  induction n as [|n IH]; intros i s tree nodes Hlen Hinv Hstep.
  - exists tree, nodes. simpl. rewrite Nat.add_0_r. split; [reflexivity | assumption].
  - destruct (Hstep 0%nat tree nodes ltac:(lia)) as (nd & tree1 & Hnd & Hadd & Hinv1).
    { rewrite Nat.add_0_r. assumption. }
    rewrite Nat.add_0_r in Hnd, Hadd, Hinv1.
    cbn [seed_leaves]. rewrite read_u32_ok by lia. cbn [bind].
    rewrite (node_at_Some _ _ _ Hnd). cbn [bind].
    cbn [fields nth] in Hadd, Hinv1. rewrite Hadd. cbn [bind].
    destruct (IH (S i) (drop 4 s) tree1
                (<[i := mkNode (le_uint (take 4 s)) (left nd) (right nd)]> nodes))
      as (tree' & nodes' & Hrun & Hfinal).
    + rewrite length_drop. lia.
    + assumption.
    + intros k tree2 nodes2 Hk Hinv2.
      replace (S i + k)%nat with (i + S k)%nat in * by lia.
      destruct (Hstep (S k) tree2 nodes2 ltac:(lia) Hinv2) as (nd2 & tree3 & H1 & H2 & H3).
      exists nd2, tree3. cbn [fields nth] in H2, H3. repeat split; assumption.
    + exists tree', nodes'. rewrite Hrun.
      replace (S i + n)%nat with (i + S n)%nat in Hfinal by lia.
      rewrite drop_drop. replace (4 + 4 * n)%nat with (4 * S n)%nat by lia.
      split; [reflexivity | assumption].
Qed.

(** An invariant [I] of the merge loop that every iteration keeps holds when
    the loop ends, and the loop ends by its own condition. *)
Lemma merge_loop_invariant (I : list nat -> list HuffmanNode -> nat -> Prop) :
  (forall l r rest nodes last_node,
     I (l :: r :: rest) nodes last_node ->
     exists nl nr slot tree',
       nodes !! l = Some nl /\ nodes !! r = Some nr /\ nodes !! last_node = Some slot /\
       add_node rest (<[last_node := mkNode (freq nl + freq nr) l r]> nodes) last_node
         = Ok tree' /\
       length tree' = S (length rest) /\
       I tree' (<[last_node := mkNode (freq nl + freq nr) l r]> nodes) (S last_node)) ->
  forall (fuel : nat) (tree : list nat) (nodes : list HuffmanNode) (last_node : nat),
    (length tree <= fuel)%nat ->
    I tree nodes last_node ->
    exists tree' nodes' last_node',
      merge_loop fuel tree nodes last_node = Ok (tree', nodes', last_node') /\
      (length tree' <= 1)%nat /\
      I tree' nodes' last_node'.
Proof.
  intros Hstep. induction fuel as [|fuel IH]; intros tree nodes last_node Hfuel Hinv.
  - destruct tree as [|l tree]; [|simpl in Hfuel; lia].
    exists [], nodes, last_node. repeat split; [simpl; lia | assumption].
  - destruct tree as [|l [|r rest]].
    + exists [], nodes, last_node. repeat split; [simpl; lia | assumption].
    + exists [l], nodes, last_node. repeat split; [simpl; lia | assumption].
    + destruct (Hstep _ _ _ _ _ Hinv)
        as (nl & nr & slot & tree1 & Hl & Hr & Hslot & Hadd & Hlen & Hinv1).
      cbn [merge_loop].
      rewrite (node_at_Some _ _ _ Hl), (node_at_Some _ _ _ Hr),
        (node_at_Some _ _ _ Hslot). cbn [bind].
      rewrite Hadd. cbn [bind].
      apply IH; [simpl in Hfuel; lia | assumption].
Qed.

Lemma seeding_step (f : Z) (i : nat) (tree : list nat) (nodes : list HuffmanNode) :
  (i < 0x100)%nat -> seeding i tree nodes ->
  exists nd tree',
    nodes !! i = Some nd /\
    add_node tree (<[i := mkNode f (left nd) (right nd)]> nodes) i = Ok tree' /\
    seeding (S i) tree' (<[i := mkNode f (left nd) (right nd)]> nodes).
Proof.
  intros Hi (Hnodes & _ & Hlen & Hlt & Hall).
  destruct (lookup_lt_is_Some_2 nodes i ltac:(lia)) as [nd Hnd].
  destruct (add_node_ok tree (<[i := mkNode f (left nd) (right nd)]> nodes) i)
    as (pre & post & -> & Hadd).
  { rewrite length_insert. lia. }
  { rewrite length_insert. eapply Forall_impl; [exact Hlt|]. simpl. intros; lia. }
  exists nd, (pre ++ i :: post). split; [assumption|]. split; [assumption|].
  unfold seeding. rewrite length_insert.
  rewrite length_app in *. simpl. repeat split; try lia.
  - apply Forall_app in Hlt as [Hpre Hpost].
    apply Forall_app. split; [|constructor; [lia|]];
      (eapply Forall_impl; [eassumption|]; simpl; intros; lia).
  - intros j Hj. destruct (decide (j = i)) as [->|Hne].
    + apply elem_of_app. right. left.
    + specialize (Hall j ltac:(lia)). apply elem_of_app in Hall as [H|H].
      * apply elem_of_app. left. assumption.
      * apply elem_of_app. right. right. assumption.
Qed.

Lemma merging_step_shape (l r : nat) (rest : list nat) (nodes : list HuffmanNode)
    (last_node : nat) :
  merging (l :: r :: rest) nodes last_node ->
  exists nl nr slot pre post,
    nodes !! l = Some nl /\ nodes !! r = Some nr /\ nodes !! last_node = Some slot /\
    rest = pre ++ post /\
    add_node rest (<[last_node := mkNode (freq nl + freq nr) l r]> nodes) last_node
      = Ok (pre ++ last_node :: post) /\
    merging (pre ++ last_node :: post)
      (<[last_node := mkNode (freq nl + freq nr) l r]> nodes) (S last_node).
Proof.
  intros (Hnodes & _ & Hsum & Hlt & _). simpl in Hsum.
  inversion Hlt as [|? ? Hl Hlt1]; subst. inversion Hlt1 as [|? ? Hr Hrest]; subst.
  destruct (lookup_lt_is_Some_2 nodes l ltac:(lia)) as [nl Hnl].
  destruct (lookup_lt_is_Some_2 nodes r ltac:(lia)) as [nr Hnr].
  destruct (lookup_lt_is_Some_2 nodes last_node ltac:(lia)) as [slot Hslot].
  destruct (add_node_ok rest (<[last_node := mkNode (freq nl + freq nr) l r]> nodes)
              last_node) as (pre & post & Hsplit & Hadd).
  { rewrite length_insert. lia. }
  { rewrite length_insert. eapply Forall_impl; [exact Hrest|]. simpl. intros; lia. }
  exists nl, nr, slot, pre, post. do 5 (split; [assumption|]).
  subst rest. unfold merging. rewrite length_insert.
  rewrite length_app in *. simpl in *.
  split; [assumption|]. split; [lia|]. split; [lia|]. split.
  - apply Forall_app in Hrest as [Hpre Hpost].
    apply Forall_app. split; [|constructor; [lia|]];
      (eapply Forall_impl; [eassumption|]; simpl; intros; lia).
  - intros _. rewrite Nat.sub_0_r.
    apply elem_of_app. right. left.
Qed.

Lemma merging_step (l r : nat) (rest : list nat) (nodes : list HuffmanNode) (last_node : nat) :
  merging (l :: r :: rest) nodes last_node ->
  exists nl nr slot tree',
    nodes !! l = Some nl /\ nodes !! r = Some nr /\ nodes !! last_node = Some slot /\
    add_node rest (<[last_node := mkNode (freq nl + freq nr) l r]> nodes) last_node
      = Ok tree' /\
    length tree' = S (length rest) /\
    merging tree' (<[last_node := mkNode (freq nl + freq nr) l r]> nodes) (S last_node).
Proof.
  intros H.
  destruct (merging_step_shape l r rest nodes last_node H)
    as (nl & nr & slot & pre & post & Hl & Hr & Hslot & -> & Hadd & Hnext).
  exists nl, nr, slot, (pre ++ last_node :: post).
  do 4 (split; [assumption|]). split; [|assumption].
  rewrite !length_app. simpl. lia.
Qed.

(** Writing the new node leaves every walk among the older nodes as it was. *)
Lemma reaches_insert (nodes : list HuffmanNode) (last_node : nat) (nd : HuffmanNode)
    (t j : nat) :
  (forall i x, nodes !! i = Some x -> (0x100 <= i < last_node)%nat ->
     (left x < i)%nat /\ (right x < i)%nat) ->
  (t < last_node)%nat -> reaches nodes t j ->
  reaches (<[last_node := nd]> nodes) t j.
Proof.
  intros Holder Ht Hreach. induction Hreach as [i|i j x Hx Hint _ IH|i j x Hx Hint _ IH].
  - constructor.
  - destruct (Holder i x Hx ltac:(lia)) as [Hleft _].
    eapply reaches_left; [|assumption|apply IH; lia].
    rewrite list_lookup_insert_ne by lia. assumption.
  - destruct (Holder i x Hx ltac:(lia)) as [_ Hright].
    eapply reaches_right; [|assumption|apply IH; lia].
    rewrite list_lookup_insert_ne by lia. assumption.
Qed.

Lemma growing_step (l r : nat) (rest : list nat) (nodes : list HuffmanNode) (last_node : nat) :
  merging (l :: r :: rest) nodes last_node /\ forest (l :: r :: rest) nodes last_node ->
  exists nl nr slot tree',
    nodes !! l = Some nl /\ nodes !! r = Some nr /\ nodes !! last_node = Some slot /\
    add_node rest (<[last_node := mkNode (freq nl + freq nr) l r]> nodes) last_node
      = Ok tree' /\
    length tree' = S (length rest) /\
    (merging tree' (<[last_node := mkNode (freq nl + freq nr) l r]> nodes) (S last_node) /\
     forest tree' (<[last_node := mkNode (freq nl + freq nr) l r]> nodes) (S last_node)).
Proof.
  intros [Hmerge (Hbase & Holder & Hleaves)].
  destruct (merging_step_shape l r rest nodes last_node Hmerge)
    as (nl & nr & slot & pre & post & Hl & Hr & Hslot & -> & Hadd & Hnext).
  exists nl, nr, slot, (pre ++ last_node :: post).
  do 4 (split; [assumption|]).
  split; [rewrite !length_app; simpl; lia|]. split; [assumption|].
  destruct Hmerge as (Hnodes & _ & Hsum & Hlt & _). simpl in Hsum.
  inversion Hlt as [|? ? Hl_lt Hlt1]; subst. inversion Hlt1 as [|? ? Hr_lt Hrest]; subst.
  set (nodes' := <[last_node := mkNode (freq nl + freq nr) l r]> nodes).
  assert (Hnew : nodes' !! last_node = Some (mkNode (freq nl + freq nr) l r))
    by (apply list_lookup_insert_eq; lia).
  split; [lia|]. split.
  - intros i x Hx Hi. destruct (decide (i = last_node)) as [->|Hne].
    + rewrite Hnew in Hx. injection Hx as <-. simpl. lia.
    + unfold nodes' in Hx. rewrite list_lookup_insert_ne in Hx by congruence.
      apply (Holder i x Hx). lia.
  - intros j Hj. destruct (Hleaves j Hj) as (t & Ht & Hreach).
    assert (Hkeep : forall t', (t' < last_node)%nat -> reaches nodes t' j ->
                               reaches nodes' t' j).
    { intros t' Ht' H. apply reaches_insert; assumption. }
    apply elem_of_cons in Ht as [->|Ht]; [|apply elem_of_cons in Ht as [->|Ht]].
    + exists last_node. split; [apply elem_of_app; right; left|].
      eapply reaches_left; [exact Hnew | lia | apply Hkeep; assumption].
    + exists last_node. split; [apply elem_of_app; right; left|].
      eapply reaches_right; [exact Hnew | lia | apply Hkeep; assumption].
    + exists t. split.
      * apply elem_of_app in Ht as [Ht|Ht]; apply elem_of_app;
          [left | right; right]; assumption.
      * apply Hkeep; [|assumption].
        rewrite Forall_forall in Hrest. apply Hrest. assumption.
Qed.

(** Along child links indices fall, so a walk from [node] takes fewer than
    [node] steps and the fuel of [decode_symbol] is never used up. *)
Lemma walk_no_timeout (nodes : list HuffmanNode) (last_node : nat) (fuel : nat) :
  (forall i x, nodes !! i = Some x -> (0x100 <= i < last_node)%nat ->
     (left x < i)%nat /\ (right x < i)%nat) ->
  forall (node : nat) (bits : LsbBitStream),
    (node < fuel)%nat -> (node < last_node)%nat ->
    walk fuel nodes node bits <> Timeout.
Proof.
  intros Holder. induction fuel as [|fuel IH]; intros node bits Hfuel Hnode; [lia|].
  simpl. destruct (Nat.leb_spec node 0xFF); [discriminate|].
  unfold get_next_bit.
  destruct (bit_position bits =? 8); simpl.
  - destruct (stream bits) as [|b rest]; simpl; [discriminate|].
    unfold node_at. destruct (nodes !! node) as [x|] eqn:Hx; simpl; [|discriminate].
    destruct (Holder node x Hx ltac:(lia)).
    apply IH; destruct (_ =? 0); lia.
  - unfold node_at. destruct (nodes !! node) as [x|] eqn:Hx; simpl; [|discriminate].
    destruct (Holder node x Hx ltac:(lia)).
    apply IH; destruct (_ =? 0); lia.
Qed.

(** The state in which [create_huffman_tree] leaves its two loops, for a
    stream that holds a whole header. *)
Lemma build_huffman_tree_loops (s : list Z) :
  (8 + 4 * 0x100 <= length s)%nat ->
  exists leaves nodes0 tree nodes last_node,
    seed_leaves 0x100 0 (drop 8 s) [] (replicate 0x200%nat (mkNode 0 0 0)) =
      Ok (drop (8 + 4 * 0x100) s, leaves, nodes0) /\
    seeding 0x100 leaves nodes0 /\
    merge_loop (length leaves) leaves nodes0 0x100 = Ok (tree, nodes, last_node) /\
    (length tree <= 1)%nat /\ merging tree nodes last_node /\
    forest tree nodes last_node /\
    build_huffman_tree s =
      Ok (mkTreeState nodes tree last_node (le_uint (take 4 s)) (drop (8 + 4 * 0x100) s)).
Proof.
  intros Hlen.
  destruct (seed_leaves_invariant seeding 0x100 0 (drop 8 s) []
              (replicate 0x200%nat (mkNode 0 0 0)))
    as (leaves & nodes0 & Hseed & Hleaves).
  { rewrite length_drop. lia. }
  { unfold seeding. rewrite length_replicate.
    repeat split; try lia; constructor. }
  { intros k tree nodes Hk Hinv. simpl in Hinv |- *.
    apply seeding_step; assumption. }
  rewrite drop_drop in Hseed.
  replace (0 + 0x100)%nat with 0x100%nat in Hleaves by reflexivity.
  destruct (merge_loop_invariant
              (fun tree nodes last_node =>
                 merging tree nodes last_node /\ forest tree nodes last_node)
              growing_step (length leaves) leaves nodes0 0x100)
    as (tree & nodes & last_node & Hmerge & Hshort & Hfinal & Hforest).
  { lia. }
  { destruct Hleaves as (Hn & _ & Hl & Hlt & Hall). split.
    - unfold merging. rewrite Hl. repeat split; try lia; assumption.
    - split; [lia|]. split; [intros; lia|].
      intros j Hj. exists j. split; [apply Hall; assumption | constructor]. }
  exists leaves, nodes0, tree, nodes, last_node.
  split; [exact Hseed|]. split; [exact Hleaves|]. split; [exact Hmerge|].
  split; [exact Hshort|]. split; [exact Hfinal|]. split; [exact Hforest|].
  unfold build_huffman_tree. rewrite read_u32_ok by lia. cbn [bind].
  rewrite drop_drop. change (4 + 4)%nat with 8%nat.
  rewrite Hseed. cbn [bind]. rewrite Hmerge. reflexivity.
Qed.

(** C9.  For a stream that holds a whole header, whatever its 256
    frequencies are: all 256 leaf indices are put on the priority list, the
    merge loop runs until one index is left, it has then created the
    internal nodes 0x100 to 0x1FE, that is 255 of them, and the index left
    is 0x1FE, where [unpack_huffman] starts every walk.  That node is the
    root: child links lead from it to each of the 256 leaves, and a walk
    from it ends within the fuel of [decode_symbol]. *)
Theorem root_is_0x1FE (s : list Z) :
  (8 + 4 * 0x100 <= length s)%nat ->
  exists leaves nodes0 st,
    seed_leaves 0x100 0 (drop 8 s) [] (replicate 0x200%nat (mkNode 0 0 0)) =
      Ok (drop (8 + 4 * 0x100) s, leaves, nodes0) /\
    length leaves = 0x100%nat /\ (forall j, (j < 0x100)%nat -> j ∈ leaves) /\
    build_huffman_tree s = Ok st /\
    ts_tree st = [0x1FE%nat] /\
    ts_last_node st = (0x100 + 255)%nat /\
    length (ts_nodes st) = 0x200%nat /\
    create_huffman_tree s = Ok (ts_nodes st, le_uint (take 4 s), drop (8 + 4 * 0x100) s) /\
    (forall j, (j < 0x100)%nat -> reaches (ts_nodes st) 0x1FE j) /\
    (forall bits, decode_symbol (ts_nodes st) bits <> Timeout).
Proof.
  intros Hlen.
  destruct (build_huffman_tree_loops s Hlen)
    as (leaves & nodes0 & tree & nodes & last_node & Hseed & Hleaves & _ & Hshort
        & (Hnodes & Hne & Hsum & _ & Hlast) & (_ & Holder & Hreach) & Hbuild).
  assert (Hone : length tree = 1%nat) by lia.
  assert (Hln : last_node = 0x1FF%nat) by lia. subst last_node.
  assert (Htree : tree = [0x1FE%nat]).
  { destruct tree as [|x [|y tree]]; simpl in Hone; try lia.
    specialize (Hlast ltac:(lia)). apply list_elem_of_singleton in Hlast.
    simpl in Hlast. congruence. }
  subst tree.
  exists leaves, nodes0,
    (mkTreeState nodes [0x1FE%nat] 0x1FF (le_uint (take 4 s)) (drop (8 + 4 * 0x100) s)).
  destruct Hleaves as (_ & _ & Hl & _ & Hall).
  do 7 (split; [assumption || reflexivity|]).
  split; [unfold create_huffman_tree; rewrite Hbuild; reflexivity|].
  simpl. split.
  - intros j Hj. destruct (Hreach j Hj) as (t & Ht & Hpath).
    apply list_elem_of_singleton in Ht. subst t. assumption.
  - intros bits. unfold decode_symbol.
    apply (walk_no_timeout nodes 0x1FF 0x200 Holder); lia.
Qed.

(** *** A table with a single nonzero count *)

Lemma has_freq_insert_ne (nodes : list HuffmanNode) (f : Z) (i j : nat) (nd : HuffmanNode) :
  i <> j -> has_freq nodes f j -> has_freq (<[i := nd]> nodes) f j.
Proof.
  intros Hne (x & Hx & Hf). exists x. split; [|assumption].
  rewrite list_lookup_insert_ne by assumption. assumption.
Qed.

Lemma has_freq_insert_eq (nodes : list HuffmanNode) (i : nat) (nd : HuffmanNode) :
  (i < length nodes)%nat -> has_freq (<[i := nd]> nodes) (freq nd) i.
Proof.
  intros Hi. exists nd. split; [|reflexivity].
  apply list_lookup_insert_eq. assumption.
Qed.

Lemma Forall_has_freq_insert (nodes : list HuffmanNode) (f : Z) (i : nat)
    (nd : HuffmanNode) (l : list nat) :
  Forall (fun j => (j < i)%nat) l ->
  Forall (has_freq nodes f) l -> Forall (has_freq (<[i := nd]> nodes) f) l.
Proof.
  intros Hlt Hall. induction Hall as [|j l Hj _ IH]; [constructor|].
  inversion Hlt; subst. constructor; [|apply IH; assumption].
  apply has_freq_insert_ne; [lia | assumption].
Qed.

Lemma has_freq_le (nodes : list HuffmanNode) (f g : Z) (l : list nat) :
  f <= g -> Forall (has_freq nodes f) l ->
  Forall (fun i => exists nd, nodes !! i = Some nd /\ freq nd <= g) l.
Proof.
  intros Hle Hall. eapply Forall_impl; [exact Hall|]. simpl.
  intros i (nd & Hnd & Hf). exists nd. split; [assumption | lia].
Qed.

(** [add_node] on zero-count nodes followed by more frequent ones. *)
Lemma add_node_after_zeros (nodes : list HuffmanNode) (index : nat) (g : Z)
    (zs post : list nat) :
  has_freq nodes g index -> 0 <= g ->
  Forall (has_freq nodes 0) zs ->
  (post = [] \/ exists p post' f, post = p :: post' /\ has_freq nodes f p /\ g < f) ->
  add_node (zs ++ post) nodes index = Ok (zs ++ index :: post).
Proof.
  intros (nd & Hnd & Hg) Hpos Hzs Hpost. unfold add_node.
  rewrite (node_at_Some _ _ _ Hnd). cbn [bind]. rewrite Hg.
  rewrite insert_by_freq_skip by (eapply has_freq_le; eassumption).
  destruct Hpost as [->|(p & post' & f & -> & (np & Hnp & Hf) & Hlt)].
  - reflexivity.
  - rewrite (insert_by_freq_stop _ _ _ _ _ np Hnp) by lia. reflexivity.
Qed.

Section SingleSymbol.

Variable k : nat.
Variable f : Z.
Hypothesis k_leaf : (k < 0x100)%nat.
Hypothesis f_positive : 0 < f.

Lemma seeding_single_step (v : Z) (i : nat) (tree : list nat) (nodes : list HuffmanNode) :
  (i < 0x100)%nat -> v = (if decide (i = k) then f else 0) ->
  seeding_single k f i tree nodes ->
  exists nd tree',
    nodes !! i = Some nd /\
    add_node tree (<[i := mkNode v (left nd) (right nd)]> nodes) i = Ok tree' /\
    seeding_single k f (S i) tree' (<[i := mkNode v (left nd) (right nd)]> nodes).
Proof.
  intros Hi Hv [Hseed Horder].
  destruct (seeding_step v i tree nodes Hi Hseed) as (nd & tree' & Hnd & Hadd & Hseed').
  exists nd, tree'. split; [assumption|]. split; [assumption|].
  split; [assumption|].
  destruct Hseed as (Hnodes & _ & _ & Hlt & _).
  set (nodes' := <[i := mkNode v (left nd) (right nd)]> nodes) in *.
  assert (Hnew : has_freq nodes' v i).
  { exists (mkNode v (left nd) (right nd)). split; [|reflexivity].
    apply list_lookup_insert_eq. lia. }
  destruct (decide (i <= k)%nat) as [Hle|Hgt].
  - (* only zero-count leaves so far: the new leaf goes last *)
    pose proof (Forall_has_freq_insert nodes 0 i (mkNode v (left nd) (right nd)) tree
                  Hlt Horder) as Hzs.
    assert (Hadd' : add_node (tree ++ []) nodes' i = Ok (tree ++ [i])).
    { apply add_node_after_zeros with (g := v); try assumption; [|left; reflexivity].
      subst v. destruct (decide (i = k)); lia. }
    rewrite app_nil_r in Hadd'. rewrite Hadd' in Hadd. injection Hadd as <-.
    destruct (decide (S i <= k)%nat) as [Hle'|Hgt'].
    + apply Forall_app. split; [assumption|]. constructor; [|constructor].
      subst v. destruct (decide (i = k)); [lia | assumption].
    + assert (i = k) by lia. subst i. exists tree.
      split; [reflexivity|]. split; [assumption|].
      subst v. destruct (decide (k = k)); [assumption | contradiction].
  - (* [k] is on the list: the new zero-count leaf goes before it *)
    destruct Horder as (zs & -> & Hzs & Hk).
    apply Forall_app in Hlt as [Hlt_zs Hlt_k].
    inversion Hlt_k as [|? ? Hki _]; subst.
    destruct (decide (i = k)) as [->|Hne]; [lia|].
    pose proof (Forall_has_freq_insert nodes 0 i (mkNode 0 (left nd) (right nd)) zs
                  Hlt_zs Hzs) as Hzs'.
    pose proof (has_freq_insert_ne nodes f i k (mkNode 0 (left nd) (right nd)) Hne Hk)
      as Hk'.
    assert (Hadd' : add_node (zs ++ [k]) nodes' i = Ok (zs ++ [i; k])).
    { apply add_node_after_zeros with (g := 0); try assumption; [lia|].
      right. exists k, [], f. repeat split; assumption. }
    rewrite Hadd' in Hadd. injection Hadd as <-.
    destruct (decide (S i <= k)%nat); [lia|].
    exists (zs ++ [i]). rewrite <- app_assoc. split; [reflexivity|].
    split; [|assumption].
    apply Forall_app. split; [assumption|]. constructor; [assumption | constructor].
Qed.

Lemma merging_single_step (l r : nat) (rest : list nat) (nodes : list HuffmanNode)
    (last_node : nat) :
  merging_single k f (l :: r :: rest) nodes last_node ->
  exists nl nr slot tree',
    nodes !! l = Some nl /\ nodes !! r = Some nr /\ nodes !! last_node = Some slot /\
    add_node rest (<[last_node := mkNode (freq nl + freq nr) l r]> nodes) last_node
      = Ok tree' /\
    length tree' = S (length rest) /\
    merging_single k f tree' (<[last_node := mkNode (freq nl + freq nr) l r]> nodes)
      (S last_node).
Proof.
  intros [Hmerge Horder].
  destruct (merging_step l r rest nodes last_node Hmerge)
    as (nl & nr & slot & tree' & Hl & Hr & Hslot & Hadd & Hlen & Hmerge').
  exists nl, nr, slot, tree'. do 5 (split; [assumption|]).
  split; [assumption|].
  destruct Hmerge as (Hnodes & _ & Hsum & Hlt & _). simpl in Hsum.
  destruct Horder as [(zs & Htree & Hne & Hzs & Hk & Hnewest)|[Htree _]];
    [|discriminate].
  set (nodes' := <[last_node := mkNode (freq nl + freq nr) l r]> nodes) in *.
  assert (Hk_lt : (k < last_node)%nat).
  { rewrite Htree in Hlt. apply Forall_app in Hlt as [_ Hlt].
    inversion Hlt; assumption. }
  destruct zs as [|z1 [|z2 zs]]; [contradiction| |].
  - (* the last merge: the tree of zero-count leaves with [k] *)
    simpl in Htree. injection Htree as Hz1 Hz2 Hz3. subst z1 r rest.
    simpl in Hsum. right.
    assert (Hadd' : add_node [] nodes' last_node = Ok [last_node]).
    { unfold add_node.
      destruct (node_at_lt nodes' last_node) as (nd & _ & ->);
        [unfold nodes'; rewrite length_insert; lia | reflexivity]. }
    rewrite Hadd' in Hadd. injection Hadd as <-.
    replace (S last_node - 1)%nat with last_node by lia.
    split; [reflexivity|].
    unfold nodes'. rewrite list_lookup_insert_eq by lia.
    destruct (Hnewest ltac:(lia)) as (zs0 & Hz).
    assert (l = (last_node - 1)%nat).
    { destruct zs0 as [|? [|? ?]]; simpl in Hz; congruence. }
    inversion Hzs as [|? ? (nl' & Hnl' & Hfl) _]; subst.
    destruct Hk as (nk & Hnk & Hfk).
    assert (nl' = nl) by congruence. assert (nk = nr) by congruence. subst nl' nk.
    rewrite Hfl, Hfk. simpl. reflexivity.
  - (* a merge of two zero-count nodes: the new node goes before [k] *)
    simpl in Htree. injection Htree as Hz1 Hz2 Hz3. subst z1 z2 rest. left.
    inversion Hzs as [|? ? (nl' & Hnl' & Hfl) Hzs1]; subst.
    inversion Hzs1 as [|? ? (nr' & Hnr' & Hfr) Hzs2]; subst.
    assert (nl' = nl) by congruence. assert (nr' = nr) by congruence. subst nl' nr'.
    inversion Hlt as [|? ? _ Hlt1]; subst. inversion Hlt1 as [|? ? _ Hlt2]; subst.
    apply Forall_app in Hlt2 as [Hlt_zs _].
    subst nodes'. rewrite Hfl, Hfr in Hadd, Hmerge' |- *.
    change (0 + 0) with 0 in Hadd, Hmerge' |- *.
    set (nodes' := <[last_node := mkNode 0 l r]> nodes) in *.
    pose proof (Forall_has_freq_insert nodes 0 last_node (mkNode 0 l r) zs Hlt_zs Hzs2)
      as Hzs'.
    pose proof (has_freq_insert_ne nodes f last_node k (mkNode 0 l r) ltac:(lia) Hk)
      as Hk'.
    assert (Hnew : has_freq nodes' 0 last_node).
    { exists (mkNode 0 l r). split; [|reflexivity].
      apply list_lookup_insert_eq. lia. }
    assert (Hadd' : add_node (zs ++ [k]) nodes' last_node = Ok (zs ++ [last_node; k])).
    { apply add_node_after_zeros with (g := 0); try assumption; [lia|].
      right. exists k, [], f. repeat split; assumption. }
    rewrite Hadd' in Hadd. injection Hadd as <-.
    exists (zs ++ [last_node]). rewrite <- app_assoc. split; [reflexivity|].
    split; [destruct zs; discriminate|].
    split; [apply Forall_app; split; [assumption | constructor; [assumption|constructor]]|].
    split; [assumption|].
    intros _. exists zs. do 2 f_equal. lia.
Qed.

End SingleSymbol.
Lemma le_uint_nonneg (bs : list Z) : Forall is_byte bs -> 0 <= le_uint bs.
Proof.
  induction 1 as [|b bs Hb _ IH]; simpl; [lia|]. unfold is_byte in Hb. lia.
Qed.

Lemma fields_nth_nonneg (width count : nat) :
  forall (bs : list Z) (j : nat),
    Forall is_byte bs -> 0 <= nth j (fields width count bs) 0.
Proof.
  induction count as [|count IH]; intros bs j Hbs; simpl.
  - destruct j; lia.
  - destruct j as [|j].
    + apply le_uint_nonneg, Forall_take. assumption.
    + apply IH, Forall_drop. assumption.
Qed.

(** The first step of every walk from the root. *)
Lemma decode_symbol_first_bit (nodes : list HuffmanNode) (root : HuffmanNode)
    (bits : LsbBitStream) :
  nodes !! 0x1FE%nat = Some root ->
  decode_symbol nodes bits =
  let* '(bit, bits') := get_next_bit bits in
  walk 0x1FF nodes (if bit =? 0 then left root else right root) bits'.
Proof.
  intros Hroot. unfold decode_symbol.
  change (walk 0x200 nodes 0x1FE bits) with
    (let* '(bit, bits') := get_next_bit bits in
     let* nd := node_at nodes 0x1FE in
     walk 0x1FF nodes (if bit =? 0 then left nd else right nd) bits').
  rewrite (node_at_Some _ _ _ Hroot).
  destruct (get_next_bit bits) as [[bit bits']| |]; reflexivity.
Qed.

Lemma walk_leaf (fuel : nat) (nodes : list HuffmanNode) (node : nat) (bits : LsbBitStream) :
  (node < 0x100)%nat -> walk fuel nodes node bits = Ok (node, bits).
Proof.
  intros Hleaf. destruct fuel; simpl;
    (destruct (Nat.leb_spec node 0xFF); [reflexivity | lia]).
Qed.

(** C1, as the code has it.  For a header whose table has a nonzero count
    for byte value [k] alone, the root 0x1FE has the tree of the 255
    zero-count leaves (node 0x1FD) on the left and the leaf [k] on the
    right.  So the decoder reads a bit for every output byte: after a 1 bit
    it has decoded [k], after a 0 bit it walks on into the zero-count
    leaves, and with no input left the read raises. *)
Theorem single_symbol_reads_a_bit (s : list Z) (k : nat) :
  (8 + 4 * 0x100 <= length s)%nat -> Forall is_byte s ->
  single_symbol (freq_table s) k ->
  exists nodes : list HuffmanNode,
    create_huffman_tree s = Ok (nodes, le_uint (take 4 s), drop (8 + 4 * 0x100) s) /\
    nodes !! 0x1FE%nat = Some (mkNode (nth k (freq_table s) 0) 0x1FD k) /\
    (forall bits : LsbBitStream,
       decode_symbol nodes bits =
       let* '(bit, bits') := get_next_bit bits in
       if bit =? 0 then walk 0x1FF nodes 0x1FD bits' else Ok (k, bits')) /\
    (forall bits : LsbBitStream,
       stream bits = [] -> bit_position bits = 8 ->
       decode_symbol nodes bits = Raise IndexError).
Proof.
  intros Hlen Hbytes (Hk & Hf & Hzero).
  set (f := nth k (freq_table s) 0) in *.
  assert (Hpos : 0 < f).
  { assert (0 <= f); [|lia]. apply fields_nth_nonneg, Forall_drop. assumption. }
  destruct (seed_leaves_invariant (seeding_single k f) 0x100 0 (drop 8 s) []
              (replicate 0x200%nat (mkNode 0 0 0)))
    as (leaves & nodes0 & Hseed & Hleaves).
  { rewrite length_drop. lia. }
  { split.
    - unfold seeding. rewrite length_replicate.
      repeat split; try lia; constructor.
    - destruct (decide (0 <= k)%nat); [constructor | lia]. }
  { intros j tree nodes Hj Hinv. simpl in Hinv |- *.
    apply (seeding_single_step k f Hk Hpos); [assumption| |assumption].
    fold (freq_table s). destruct (decide (j = k)) as [->|Hne]; [reflexivity|].
    apply Hzero. assumption. }
  replace (0 + 0x100)%nat with 0x100%nat in Hleaves by reflexivity.
  destruct Hleaves as [Hseeded Horder].
  destruct (decide (0x100 <= k)%nat) as [|_]; [lia|].
  destruct Horder as (zs & Hzs & Hzeros & Hfk).
  destruct (merge_loop_invariant (merging_single k f) (merging_single_step k f Hk Hpos)
              (length leaves) leaves nodes0 0x100)
    as (tree & nodes & last_node & Hmerge & Hshort & Hmerged & Hfinal).
  { lia. }
  { destruct Hseeded as (Hn & _ & Hl & Hlt & _). split.
    - unfold merging. rewrite Hl. repeat split; try lia; assumption.
    - left. exists zs. split; [assumption|].
      split; [intros ->; simpl in Hzs; subst leaves; simpl in Hl; lia|].
      split; [assumption|]. split; [assumption|]. lia. }
  destruct Hmerged as (Hnodes & Hne & Hsum & _ & _).
  assert (Hln : last_node = 0x1FF%nat) by lia. subst last_node.
  destruct Hfinal as [(zs' & -> & Hne' & _)|[-> Hroot]].
  { destruct zs'; [contradiction | simpl in Hshort; rewrite length_app in Hshort;
      simpl in Hshort; lia]. }
  simpl in Hroot.
  exists nodes. split; [|split; [exact Hroot|split]].
  - unfold create_huffman_tree, build_huffman_tree.
    rewrite read_u32_ok by lia. cbn [bind].
    rewrite drop_drop. change (4 + 4)%nat with 8%nat.
    rewrite drop_drop in Hseed. rewrite Hseed. cbn [bind]. rewrite Hmerge. reflexivity.
  - intros bits. rewrite (decode_symbol_first_bit _ _ _ Hroot).
    destruct (get_next_bit bits) as [[bit bits']| |]; try reflexivity.
    cbn [bind left right]. destruct (bit =? 0); [reflexivity|].
    apply walk_leaf. assumption.
  - intros bits Hempty Hfresh. rewrite (decode_symbol_first_bit _ _ _ Hroot).
    unfold get_next_bit. rewrite Hfresh, Hempty. reflexivity.
Qed.

End HuffmanFacts.

(** *** A sample header: the byte value 65 with count 3, alone *)

Lemma sample_table (n : Z) (payload : list Z) :
  HuffmanSpec.freq_table (HuffmanSpec.single_symbol_stream n 65 3 payload) =
  replicate 65 0 ++ [3] ++ replicate 190 0.
Proof. vm_compute. reflexivity. Qed.

Lemma sample_length (n : Z) (payload : list Z) :
  (8 + 4 * 0x100 <= length (HuffmanSpec.single_symbol_stream n 65 3 payload))%nat.
Proof.
  unfold HuffmanSpec.single_symbol_stream. rewrite !length_app.
  match goal with |- context [length (concat ?l)] =>
    replace (length (concat l)) with (4 * 0x100)%nat by (vm_compute; reflexivity)
  end.
  simpl. lia.
Qed.

Lemma sample_single_symbol (n : Z) (payload : list Z) :
  HuffmanSpec.single_symbol
    (HuffmanSpec.freq_table (HuffmanSpec.single_symbol_stream n 65 3 payload)) 65.
Proof.
  rewrite sample_table. split; [lia|]. split; [vm_compute; discriminate|].
  intros j Hj. destruct (Nat.lt_ge_cases j 256) as [Hlt|Hge].
  - assert (Hall : forallb (fun j => Nat.eqb j 65 ||
                       (nth j (replicate 65 0 ++ [3] ++ replicate 190 0) 0 =? 0))
                     (seq 0 256) = true) by (vm_compute; reflexivity).
    rewrite forallb_forall in Hall. specialize (Hall j).
    destruct (Nat.eqb_spec j 65); [contradiction|].
    apply Z.eqb_eq, Hall. apply in_seq. lia.
  - apply nth_overflow. rewrite !length_app, !length_replicate. simpl. lia.
Qed.

Lemma sample_bytes (n : Z) (payload : list Z) :
  is_byte n -> Forall is_byte payload ->
  Forall is_byte (HuffmanSpec.single_symbol_stream n 65 3 payload).
Proof.
  intros Hn Hp. unfold HuffmanSpec.single_symbol_stream.
  assert (Hzero : is_byte 0) by (unfold is_byte; lia).
  assert (Hthree : is_byte 3) by (unfold is_byte; lia).
  apply Forall_app. split; [repeat (constructor; [assumption|]); constructor|].
  apply Forall_app. split; [repeat (constructor; [assumption|]); constructor|].
  apply Forall_app. split; [|assumption].
  apply Forall_concat, Forall_map, Forall_forall. intros j _. simpl.
  destruct (Nat.eqb j 65); repeat (constructor; [assumption|]); constructor.
Qed.

(** C1, as the spec has it, fails: on the sample header, which claims one
    decoded byte, and no payload, the decoder does not produce that byte
    without reading; it asks the exhausted stream for a bit and raises.
    Given one payload byte it takes its lowest bit and produces 65. *)
Lemma single_symbol_decode_needs_input :
  HuffmanSpec.single_symbol
    (HuffmanSpec.freq_table (HuffmanSpec.single_symbol_stream 1 65 3 [])) 65 /\
  Grd2Png.unpack_huffman (HuffmanSpec.single_symbol_stream 1 65 3 []) = Raise IndexError /\
  Grd2Png.unpack_huffman (HuffmanSpec.single_symbol_stream 1 65 3 [1]) = Ok [65] /\
  (let* '(nodes, _, payload) :=
     Grd2Png.create_huffman_tree (HuffmanSpec.single_symbol_stream 1 65 3 [1]) in
   Grd2Png.decode_symbol nodes (Grd2Png.new_bits payload)) =
  Ok (65%nat, Grd2Png.mkBits [] 0 1).
Proof.
  split; [apply sample_single_symbol|].
  split; [vm_compute; reflexivity|].
  split; vm_compute; reflexivity.
Qed.

Lemma single_symbol_reads_a_bit_witness :
  exists nodes : list Grd2Png.HuffmanNode,
    Grd2Png.create_huffman_tree (HuffmanSpec.single_symbol_stream 1 65 3 [1]) =
      Ok (nodes, 1, [1]) /\
    nodes !! 0x1FE%nat = Some (Grd2Png.mkNode 3 0x1FD 65) /\
    Grd2Png.decode_symbol nodes (Grd2Png.new_bits []) = Raise IndexError.
Proof.
  assert (Hone : is_byte 1) by (unfold is_byte; lia).
  assert (Hpayload : Forall is_byte [1]) by (constructor; [exact Hone | constructor]).
  destruct (single_symbol_reads_a_bit (HuffmanSpec.single_symbol_stream 1 65 3 [1]) 65
              (sample_length 1 [1])
              (sample_bytes 1 [1] Hone Hpayload)
              (sample_single_symbol 1 [1]))
    as (nodes & Hcreate & Hroot & _ & Hraise).
  exists nodes. split; [exact Hcreate|]. split; [|apply Hraise; reflexivity].
  rewrite sample_table in Hroot. exact Hroot.
Defined.

Lemma root_is_0x1FE_witness :
  exists st,
    Grd2Png.build_huffman_tree (HuffmanSpec.single_symbol_stream 1 65 3 [1]) = Ok st /\
    Grd2Png.ts_tree st = [0x1FE%nat] /\
    Grd2Png.ts_last_node st = 0x1FF%nat.
Proof.
  destruct (root_is_0x1FE (HuffmanSpec.single_symbol_stream 1 65 3 [1])
              (sample_length 1 [1]))
    as (_ & _ & st & _ & _ & _ & Hbuild & Htree & Hlast & _).
  exists st. split; [exact Hbuild|]. split; [exact Htree | exact Hlast].
Defined.

(** A table in which every byte value has count 1 ends at the same root. *)
Example uniform_table_root :
  (let* st := Grd2Png.build_huffman_tree
                ([0; 0; 0; 0; 0; 0; 0; 0] ++ concat (replicate 0x100 [1; 0; 0; 0])) in
   Ok (Grd2Png.ts_tree st, Grd2Png.ts_last_node st)) = Ok ([0x1FE%nat], 0x1FF%nat).
Proof. vm_compute. reflexivity. Qed.

(** * Further properties *)

(** ** Reads from the archive file *)

Lemma seek_read_Ok (view : ExPac.ArcView) (off n : Z) (bs : list Z) :
  ExPac.seek_read view off n = Ok bs ->
  0 <= off /\ bs = take (Z.to_nat n) (drop (Z.to_nat off) view).
Proof.
  unfold ExPac.seek_read. destruct (Z.ltb_spec off 0); [discriminate|].
  intros [= <-]. split; [assumption | reflexivity].
Qed.

Lemma unpack_unsigned_Ok (width : nat) (bs : list Z) (v : Z) :
  unpack_unsigned width bs = Ok v -> length bs = width /\ v = le_uint bs.
Proof.
  unfold unpack_unsigned. destruct (Nat.eqb_spec (length bs) width); [|discriminate].
  intros [= <-]. split; [assumption | reflexivity].
Qed.

Lemma read_uint32_Ok (view : ExPac.ArcView) (off v : Z) :
  ExPac.read_uint32 view off = Ok v ->
  0 <= off /\ off + 4 <= ExPac.max_offset view /\
  v = le_uint (take 4 (drop (Z.to_nat off) view)).
Proof.
  unfold ExPac.read_uint32. intros H. bind_inv H.
  apply seek_read_Ok in Ha as [Hoff ->].
  apply unpack_unsigned_Ok in H as [Hlen ->].
  rewrite length_take, length_drop in Hlen. unfold ExPac.max_offset.
  change (Z.to_nat 4) with 4%nat in *. repeat split; [assumption | lia].
Qed.

Lemma read_int16_Ok (view : ExPac.ArcView) (off v : Z) :
  ExPac.read_int16 view off = Ok v ->
  0 <= off /\ off + 2 <= ExPac.max_offset view.
Proof.
  unfold ExPac.read_int16, unpack_signed. intros H. bind_inv H. bind_inv H.
  apply seek_read_Ok in Ha as [Hoff ->].
  apply unpack_unsigned_Ok in Ha0 as [Hlen _].
  rewrite length_take, length_drop in Hlen. unfold ExPac.max_offset.
  change (Z.to_nat 2) with 2%nat in *. split; [assumption | lia].
Qed.

Lemma read_uint32_in_range (view : ExPac.ArcView) (off : Z) :
  0 <= off -> off + 4 <= ExPac.max_offset view ->
  ExPac.read_uint32 view off = Ok (le_uint (take 4 (drop (Z.to_nat off) view))).
Proof.
  intros Hoff Hfit. unfold ExPac.read_uint32, ExPac.seek_read, unpack_unsigned.
  unfold ExPac.max_offset in Hfit.
  destruct (Z.ltb_spec off 0); [lia|]. simpl.
  change (Z.to_nat 4) with 4%nat.
  rewrite length_take, length_drop.
  destruct (Nat.eqb_spec (4 `min` (length view - Z.to_nat off)) 4); [reflexivity | lia].
Qed.

Lemma le_uint_bound (bs : list Z) :
  Forall is_byte bs -> 0 <= le_uint bs < 256 ^ Z.of_nat (length bs).
Proof.
  induction 1 as [|b bs Hb _ IH]; simpl length; simpl le_uint.
  - simpl. lia.
  - rewrite Nat2Z.inj_succ, Z.pow_succ_r by lia. unfold is_byte in Hb. lia.
Qed.

Lemma read_uint32_value (view : ExPac.ArcView) (off v : Z) :
  Forall is_byte view -> ExPac.read_uint32 view off = Ok v -> 0 <= v < 2 ^ 32.
Proof.
  intros Hbytes H. unfold ExPac.read_uint32 in H. bind_inv H.
  apply seek_read_Ok in Ha as [_ ->].
  apply unpack_unsigned_Ok in H as [Hlen ->].
  pose proof (le_uint_bound (take (Z.to_nat 4) (drop (Z.to_nat off) view))
                ltac:(apply Forall_take, Forall_drop; assumption)) as Hb.
  rewrite Hlen in Hb. exact Hb.
Qed.

(** ** The index walk and the sniffing pass, record by record *)

Section ArchiveFacts.

Import ExPac.

Variable utf8_decode : list Z -> option string.
Variable splitext_root : string -> string.

Local Abbreviation try_open := (ExPac.try_open utf8_decode splitext_root).
Local Abbreviation open_as := (ExPac.open_as utf8_decode splitext_root).
Local Abbreviation parse_entry := (ExPac.parse_entry utf8_decode).
Local Abbreviation read_entry := (ExPac.read_entry utf8_decode).
Local Abbreviation read_index := (ExPac.read_index utf8_decode).
Local Abbreviation sniff := (ExPac.sniff splitext_root).
Local Abbreviation sniff_all := (ExPac.sniff_all splitext_root).

(** What a parsed record holds: the relative offset stored after the name,
    moved by [data_offset], and the size stored after that. *)
Lemma parse_entry_fields (view : ArcView) (version nl d io : Z) (e : Entry) (io' : Z) :
  parse_entry view version nl d io = Ok (e, io') ->
  exists rel,
    (if version =? 1 then read_uint32 view (io + nl) else read_int64 view (io + nl)) = Ok rel /\
    offset e = rel + d /\
    read_uint32 view (io + nl + (if version =? 1 then 4 else 8)) = Ok (size e) /\
    type e = EmptyString.
Proof.
  unfold ExPac.parse_entry. intros H. bind_inv H. destruct (version =? 1).
  - bind_inv H. bind_inv H. injection H as <- _. exists a0. simpl.
    repeat split; assumption.
  - bind_inv H. bind_inv H. injection H as <- _. exists a0. simpl.
    repeat split; assumption.
Qed.

Lemma read_index_records (view : ArcView) (version nl d : Z) (n : nat) :
  forall (io : Z) (acc es : list Entry),
    read_index n view version nl d io acc = Ok (Some es) ->
    exists new, es = acc ++ new /\ length new = n /\
      forall i, (i < n)%nat ->
        exists e, new !! i = Some e /\
          parse_entry view version nl d (io + Z.of_nat i * (nl + entry_stride version)) =
            Ok (e, io + Z.of_nat (S i) * (nl + entry_stride version)) /\
          check_placement e (max_offset view) = true.
Proof.
  induction n as [|n IH]; intros io acc es H; simpl in H.
  - injection H as <-. exists []. rewrite app_nil_r. repeat split. intros i Hi. lia.
  - bind_inv H. destruct a as [[e io']|]; [|discriminate].
    apply read_entry_Some in Ha as [Hp Hc].
    pose proof (parse_entry_next utf8_decode _ _ _ _ _ _ _ Hp) as Hnext.
    apply IH in H as (new & -> & Hlen & Hrec).
    exists (e :: new). rewrite <- app_assoc. simpl.
    split; [reflexivity|]. split; [lia|].
    intros [|i] Hi.
    + exists e. split; [reflexivity|]. split; [|assumption].
      replace (io + Z.of_nat 0 * (nl + entry_stride version)) with io by lia.
      rewrite Hp, Hnext. do 2 f_equal. lia.
    + destruct (Hrec i ltac:(lia)) as (e' & Hlk & Hp' & Hc').
      exists e'. split; [exact Hlk|]. split; [|assumption].
      replace (io + Z.of_nat (S i) * (nl + entry_stride version))
        with (io' + Z.of_nat i * (nl + entry_stride version)) by lia.
      rewrite Hp'. do 2 f_equal. lia.
Qed.

Lemma sniff_all_each (view : ArcView) (arc : string) (es es' : list Entry) :
  sniff_all view arc es = Ok es' ->
  Forall2 (fun e e' => sniff view arc e = Ok e') es es'.
Proof.
  revert es'. induction es as [|e es IH]; intros es' H; simpl in H.
  - injection H as <-. constructor.
  - bind_inv H. bind_inv H. injection H as <-.
    constructor; [assumption | apply IH; assumption].
Qed.

(** X1.  A returned index lists the index records in file order: entry [i]
    is the record at [7 + i * (name_length + stride)], with the stored
    relative offset moved by [data_offset] and with the stored size. *)
Theorem returned_index_in_order (arc : string) (view : ArcView) (es : list Entry) :
  try_open arc view = Ok (Some es) ->
  exists count name_length data_offset version,
    read_int16 view 0 = Ok count /\ read_byte view 2 = Ok name_length /\
    read_uint32 view 3 = Ok data_offset /\
    select_version name_length count data_offset = Some version /\
    length es = Z.to_nat count /\
    forall i, (i < Z.to_nat count)%nat ->
      let io := 7 + Z.of_nat i * (name_length + entry_stride version) in
      exists e rel,
        es !! i = Some e /\
        (if version =? 1 then read_uint32 view (io + name_length)
         else read_int64 view (io + name_length)) = Ok rel /\
        offset e = rel + data_offset /\
        read_uint32 view (io + name_length + (if version =? 1 then 4 else 8)) = Ok (size e).
Proof.
  intros H.
  apply try_open_Some_inv in H
    as (count & nl & d & version & Hc & _ & Hn & _ & Hd & _ & Hv & H).
  exists count, nl, d, version. do 4 (split; [assumption|]).
  unfold ExPac.open_as in H. bind_inv H.
  destruct a as [dir_entries|]; [|discriminate].
  bind_inv H. injection H as <-.
  apply read_index_records in Ha as (new & -> & Hlen & Hrec). simpl in *.
  apply sniff_all_placement in Ha0.
  split; [rewrite <- Hlen; symmetry; eapply Forall2_length; eassumption|].
  intros i Hi.
  destruct (Hrec i Hi) as (stored & Hlk & Hp & _).
  destruct (Forall2_lookup_l _ _ _ _ _ Ha0 Hlk) as (e & He & Ho & Hs).
  apply parse_entry_fields in Hp as (rel & Hrel & Hoff & Hsize & _).
  exists e, rel. split; [assumption|]. split; [assumption|].
  split; [congruence|]. rewrite Hs. assumption.
Qed.

Lemma sniff_reads_signature (view : ArcView) (arc : string) (e e' : Entry) :
  sniff view arc e = Ok e' -> exists sig, read_uint32 view (offset e) = Ok sig.
Proof. unfold ExPac.sniff. intros H. bind_inv H. eauto. Qed.

(** X2.  Every entry of a returned index starts at a non-negative offset
    with at least four bytes of the file after it (its signature was read),
    and in a file of bytes its size is an unsigned 32-bit value. *)
Theorem returned_entries_readable (arc : string) (view : ArcView) (es : list Entry) :
  try_open arc view = Ok (Some es) ->
  Forall (fun e => 0 <= offset e /\ offset e + 4 <= max_offset view) es /\
  (Forall is_byte view -> Forall (fun e => 0 <= size e < 2 ^ 32) es).
Proof.
  intros H.
  apply try_open_Some_inv in H
    as (count & nl & d & version & _ & _ & _ & _ & _ & _ & _ & H).
  unfold ExPac.open_as in H. bind_inv H.
  destruct a as [dir_entries|]; [|discriminate].
  bind_inv H. injection H as <-.
  apply read_index_records in Ha as (new & -> & Hlen & Hrec). simpl in *.
  pose proof (sniff_all_each _ _ _ _ Ha0) as Heach.
  apply sniff_all_placement in Ha0.
  split.
  - apply Forall_lookup. intros i e He.
    destruct (Forall2_lookup_r _ _ _ _ _ Heach He) as (stored & Hlk & Hsniff).
    destruct (Forall2_lookup_r _ _ _ _ _ Ha0 He) as (stored' & Hlk' & Ho & _).
    assert (stored' = stored) by congruence. subst stored'.
    destruct (sniff_reads_signature _ _ _ _ Hsniff) as (sig & Hsig).
    apply read_uint32_Ok in Hsig as (H0 & H4 & _). lia.
  - intros Hbytes. apply Forall_lookup. intros i e He.
    destruct (Forall2_lookup_r _ _ _ _ _ Ha0 He) as (stored & Hlk & _ & Hs).
    assert (Hi : (i < length new)%nat) by (eapply lookup_lt_Some; eassumption).
    destruct (Hrec i ltac:(lia)) as (stored' & Hlk' & Hp & _).
    assert (stored' = stored) by congruence. subst stored'.
    apply parse_entry_fields in Hp as (_ & _ & _ & Hsize & _).
    rewrite Hs. eapply read_uint32_value; eassumption.
Qed.

(** X3.  A file too short to hold the seven header bytes never yields an
    index: the header reads raise or the checks reject; a file of fewer than
    two bytes makes the first read raise. *)
Theorem short_file_no_index (arc : string) (view : ArcView) :
  ((length view < 7)%nat -> forall es, try_open arc view <> Ok (Some es)) /\
  ((length view < 2)%nat -> try_open arc view = Raise StructError).
Proof.
  split.
  - intros Hshort es H.
    apply try_open_Some_inv in H
      as (count & nl & d & version & _ & _ & _ & _ & Hd & _).
    apply read_uint32_Ok in Hd as (_ & Hfit & _). unfold max_offset in Hfit. lia.
  - intros Hshort. unfold ExPac.try_open, read_int16, seek_read, unpack_signed,
      unpack_unsigned. simpl.
    destruct view as [|b0 [|b1 view]]; simpl in *; [reflexivity | reflexivity | lia].
Qed.

End ArchiveFacts.

Lemma returned_index_in_order_witness :
  exists e rel,
    [ExPac.mkEntry "test.ogg" 23 4 "audio"] !! 0%nat = Some e /\
    ExPac.read_int64 Samples.ogg_archive_v2 11 = Ok rel /\
    ExPac.offset e = rel + 23 /\
    ExPac.read_uint32 Samples.ogg_archive_v2 19 = Ok (ExPac.size e).
Proof.
  destruct (returned_index_in_order Samples.ascii_decode Samples.drop_ext "voice"
              Samples.ogg_archive_v2 [ExPac.mkEntry "test.ogg" 23 4 "audio"] eq_refl)
    as (count & nl & d & version & Hc & Hn & Hd & Hv & _ & Hrec).
  injection Hc as <-. injection Hn as <-. injection Hd as <-. injection Hv as <-.
  exact (Hrec 0%nat ltac:(simpl; lia)).
Defined.

Lemma returned_entries_readable_witness :
  Forall (fun e => 0 <= ExPac.offset e /\ ExPac.offset e + 4 <= 23)
    [ExPac.mkEntry "test.ogg" 19 4 "audio"].
Proof.
  exact (proj1 (returned_entries_readable Samples.ascii_decode Samples.drop_ext "voice"
                  Samples.ogg_archive [ExPac.mkEntry "test.ogg" 19 4 "audio"] eq_refl)).
Defined.

Lemma short_file_no_index_witness :
  ExPac.try_open Samples.ascii_decode Samples.drop_ext "voice" [1] = Raise StructError /\
  forall es,
    ExPac.try_open Samples.ascii_decode Samples.drop_ext "voice" [1; 0; 4; 19; 0; 0]
    <> Ok (Some es).
Proof.
  split.
  - apply (proj2 (short_file_no_index Samples.ascii_decode Samples.drop_ext "voice" [1])).
    simpl. lia.
  - apply (proj1 (short_file_no_index Samples.ascii_decode Samples.drop_ext "voice"
                    [1; 0; 4; 19; 0; 0])).
    simpl. lia.
Defined.

(** ** The script decoder *)

(** The record loop returns, keeps the length and swaps bytes in place. *)
Lemma decode_records_total (n : nat) :
  forall (data : list Z) (pos : Z),
    0 <= pos ->
    exists data',
      ExPac.decode_records n data pos = Ok data' /\
      length data' = length data /\
      (forall i, (i < Z.to_nat pos + 6)%nat -> data' !! i = data !! i) /\
      (forall i, data' !! i = data !! i \/
                 data' !! i = ExPac.swap_nibbles <$> data !! i).
Proof.
  induction n as [|n IH]; intros data pos Hpos.
  - exists data. simpl. repeat split. intros i. left. reflexivity.
  - cbn [ExPac.decode_records].
    destruct (Z.ltb_spec (Z.of_nat (length data)) (pos + 2)).
    { exists data. repeat split. intros i. left. reflexivity. }
    assert (Hslice : length (ExPac.slice data pos (pos + 2)) = 2%nat).
    { unfold ExPac.slice. rewrite length_take, length_drop. lia. }
    unfold unpack_unsigned at 1. rewrite Hslice. cbn [Nat.eqb bind].
    set (chunk_size := le_uint (ExPac.slice data pos (pos + 2)) - 4).
    destruct (Z.ltb_spec (Z.of_nat (length data)) (pos + 6 + chunk_size)).
    { exists data. repeat split. intros i. left. reflexivity. }
    destruct (Z.le_gt_cases chunk_size 0) as [Hempty|Hfull].
    { (* an empty payload: the loop goes on after the header *)
      replace (Z.to_nat chunk_size) with 0%nat by lia. cbn [ExPac.swap_range bind].
      destruct (IH data (pos + 6) ltac:(lia)) as (data' & Hrun & Hlen & Hframe & Heach).
      exists data'. split; [exact Hrun|]. split; [exact Hlen|].
      split; [intros i Hi; apply Hframe; lia | exact Heach]. }
    destruct (swap_range_lookup (Z.to_nat chunk_size) data (Z.to_nat (pos + 6)))
      as (data1 & Hswap & Hlen1 & Hlk1); [lia|].
    rewrite Z2Nat.id in Hswap by lia. rewrite Hswap. cbn [bind].
    destruct (IH data1 (Z.of_nat (Z.to_nat (pos + 6) + Z.to_nat chunk_size)) ltac:(lia))
      as (data' & Hrun & Hlen & Hframe & Heach).
    exists data'. split; [exact Hrun|]. split; [congruence|]. split.
    + intros i Hi. rewrite Hframe by lia. rewrite Hlk1.
      destruct (decide _); [lia | reflexivity].
    + intros i.
      destruct (decide (i < Z.to_nat (pos + 6) + Z.to_nat chunk_size)%nat) as [Hlt|Hge].
      * rewrite Hframe by lia. rewrite Hlk1.
        destruct (decide _); [right | left]; reflexivity.
      * destruct (Heach i) as [H1|H1]; rewrite H1, Hlk1;
          (destruct (decide _); [lia|]); [left | right]; reflexivity.
Qed.

(** X4.  The record loop of [open_entry] never raises, whatever chunk
    lengths the buffer declares: it returns a buffer of the same length in
    which every byte is the input byte or its nibble swap, and the bytes
    before the first payload (the record count and the first chunk header)
    are untouched. *)
Theorem decode_records_safe (n : nat) (data : list Z) (pos : Z) :
  0 <= pos ->
  exists data',
    ExPac.decode_records n data pos = Ok data' /\
    length data' = length data /\
    (forall i, (i < Z.to_nat pos + 6)%nat -> data' !! i = data !! i) /\
    (forall i, data' !! i = data !! i \/
               data' !! i = ExPac.swap_nibbles <$> data !! i).
Proof. intros Hpos. apply decode_records_total. exact Hpos. Qed.

Lemma decode_records_safe_witness :
  exists data',
    ExPac.decode_records 2 [2; 0; 0; 0;  6; 0; 0; 0; 0; 0;  0x12; 0xA7;  0xFF; 0xFF; 0; 0] 4
      = Ok data' /\
    length data' = 16%nat.
Proof.
  destruct (decode_records_safe 2
              [2; 0; 0; 0;  6; 0; 0; 0; 0; 0;  0x12; 0xA7;  0xFF; 0xFF; 0; 0] 4)
    as (data' & Hrun & Hlen & _); [lia|].
  exists data'. split; [exact Hrun | exact Hlen].
Defined.

Section ExtractionFacts.

Import ExPac.

Variable utf8_decode : list Z -> option string.
Variable splitext_root : string -> string.

Local Abbreviation try_open := (ExPac.try_open utf8_decode splitext_root).
Local Abbreviation parse_entry := (ExPac.parse_entry utf8_decode).
Local Abbreviation read_index := (ExPac.read_index utf8_decode).
Local Abbreviation sniff := (ExPac.sniff splitext_root).

(** The sniffer marks an untyped entry as a script only after it has read
    the script signature at its offset. *)
Lemma sniff_script (view : ArcView) (arc : string) (e e' : Entry) :
  sniff view arc e = Ok e' -> type e = EmptyString -> type e' = "script"%string ->
  read_int16 view (offset e + 4) = Ok 6 /\
  read_uint32 view (offset e + 6) = Ok 0x140050 /\
  offset e' = offset e /\ size e' = size e.
Proof.
  unfold ExPac.sniff, set_ext, set_type. intros H Hty Hscript.
  bind_inv H.
  destruct (a =? 0x5367674F); [injection H as <-; discriminate|].
  destruct (_ && _); [injection H as <-; discriminate|].
  bind_inv H. destruct a0; [injection H as <-; discriminate|].
  apply bind_Ok in H as (tag & Htag & H).
  apply bind_Ok in H as (is_script & Hcheck & H).
  destruct is_script.
  - destruct (Z.eqb_spec tag 6) as [->|]; [|discriminate].
    apply bind_Ok in Hcheck as (v & Hv & Hcheck). simpl in Hcheck.
    injection Hcheck as Hq. apply Z.eqb_eq in Hq. subst v.
    split; [assumption|]. split; [assumption|].
    destruct (String.eqb arc "srp"); injection H as <-; split; reflexivity.
  - injection H as <-. rewrite Hty in Hscript. discriminate.
Qed.

Lemma read_bytes_placed (view : ArcView) (off sz : Z) :
  0 <= off -> 0 <= sz -> off + sz <= max_offset view ->
  exists data, read_bytes view off sz = Ok data /\ Z.of_nat (length data) = sz.
Proof.
  intros Hoff Hsz Hfit. unfold read_bytes, seek_read, max_offset in *.
  destruct (Z.ltb_spec off 0); [lia|].
  eexists. split; [reflexivity|]. rewrite length_take, length_drop. lia.
Qed.

(** X5.  Every entry of an index that [try_open] returned for a file of
    bytes can be extracted from that file: [open_entry] raises nothing and
    returns exactly [size] bytes, for script entries as for the others. *)
Theorem returned_entries_extract (arc : string) (view : ArcView) (es : list Entry) :
  Forall is_byte view ->
  try_open arc view = Ok (Some es) ->
  forall e, e ∈ es ->
    exists data, open_entry view e = Ok data /\ Z.of_nat (length data) = size e.
Proof.
  intros Hbytes H e He.
  apply try_open_Some_inv in H
    as (count & nl & d & version & _ & _ & _ & _ & _ & _ & _ & H).
  unfold ExPac.open_as in H. bind_inv H.
  destruct a as [dir_entries|]; [|discriminate].
  bind_inv H. injection H as <-.
  apply read_index_records in Ha as (new & -> & Hlen & Hrec). simpl in *.
  pose proof (sniff_all_each _ _ _ _ _ Ha0) as Heach.
  apply sniff_all_placement in Ha0.
  apply list_elem_of_lookup in He as [i He].
  destruct (Forall2_lookup_r _ _ _ _ _ Heach He) as (stored & Hlk & Hsniff).
  destruct (Forall2_lookup_r _ _ _ _ _ Ha0 He) as (stored' & Hlk' & Ho & Hs).
  assert (stored' = stored) by congruence. subst stored'.
  assert (Hi : (i < length new)%nat) by (eapply lookup_lt_Some; eassumption).
  destruct (Hrec i ltac:(lia)) as (stored' & Hlk'' & Hp & Hplaced).
  assert (stored' = stored) by congruence. subst stored'.
  apply parse_entry_fields in Hp as (_ & _ & _ & Hsize & Hty).
  pose proof (read_uint32_value _ _ _ Hbytes Hsize) as Hsz.
  destruct (sniff_reads_signature _ _ _ _ _ Hsniff) as (sig & Hsig).
  pose proof (read_uint32_Ok _ _ _ Hsig) as (Hoff & _ & _).
  unfold check_placement in Hplaced. apply Z.leb_le in Hplaced.
  destruct (read_bytes_placed view (offset e) (size e)) as (raw & Hraw & Hrawlen);
    [lia | lia | lia |].
  unfold ExPac.open_entry.
  destruct (String.eqb_spec (type e) "script") as [Hscript|Hother]; cbn [negb bind].
  - destruct (sniff_script _ _ _ _ Hsniff Hty Hscript) as (Htag & Hval & _ & _).
    rewrite Ho in Hraw |- *.
    rewrite Htag. cbn [bind]. change (6 =? 6) with true. cbn [negb].
    rewrite Hval. cbn [bind]. change (0x140050 =? 0x140050) with true. cbn [negb].
    rewrite Hsig. cbn [bind]. rewrite Hraw. cbn [bind].
    destruct (decode_records_total (Z.to_nat sig) raw 4 ltac:(lia))
      as (data & Hrun & Hdlen & _).
    exists data. split; [exact Hrun | lia].
  - exists raw. split; assumption.
Qed.

End ExtractionFacts.

Lemma returned_entries_extract_witness :
  exists data,
    ExPac.open_entry Samples.ogg_archive (ExPac.mkEntry "test.ogg" 19 4 "audio") = Ok data /\
    Z.of_nat (length data) = 4.
Proof.
  refine (returned_entries_extract Samples.ascii_decode Samples.drop_ext "voice"
            Samples.ogg_archive [ExPac.mkEntry "test.ogg" 19 4 "audio"] _ eq_refl
            (ExPac.mkEntry "test.ogg" 19 4 "audio") _).
  - repeat (constructor; [unfold is_byte; lia|]). constructor.
  - left.
Defined.

(** ** The index walk stays inside the index *)

Section IndexBounds.

Import ExPac.

Variable utf8_decode : list Z -> option string.

Local Abbreviation parse_entry := (ExPac.parse_entry utf8_decode).
Local Abbreviation read_entry := (ExPac.read_entry utf8_decode).
Local Abbreviation read_index := (ExPac.read_index utf8_decode).

Lemma read_int64_in_range (view : ArcView) (off : Z) :
  0 <= off -> off + 8 <= max_offset view -> exists v, read_int64 view off = Ok v.
Proof.
  intros Hoff Hfit. unfold read_int64, seek_read, unpack_signed, unpack_unsigned.
  unfold max_offset in Hfit.
  destruct (Z.ltb_spec off 0); [lia|]. cbn [bind].
  change (Z.to_nat 8) with 8%nat. rewrite length_take, length_drop.
  destruct (Nat.eqb_spec (8 `min` (length view - Z.to_nat off)) 8); [|lia].
  cbn [bind]. eexists. reflexivity.
Qed.

Lemma parse_entry_in_bounds (view : ArcView) (version nl d io : Z) :
  0 <= io -> 0 <= nl -> io + nl + entry_stride version <= max_offset view ->
  utf8_decode (take (Z.to_nat nl) (drop (Z.to_nat io) view)) <> None ->
  exists e, parse_entry view version nl d io = Ok (e, io + nl + entry_stride version).
Proof.
  intros Hio Hnl Hfit Hname. unfold ExPac.parse_entry, read_string, seek_read, entry_stride in *.
  destruct (Z.ltb_spec io 0); [lia|]. cbn [bind].
  destruct (utf8_decode _) as [s|]; [|contradiction]. cbn [bind].
  destruct (version =? 1).
  - rewrite !read_uint32_in_range by lia. cbn [bind]. eexists. reflexivity.
  - destruct (read_int64_in_range view (io + nl)) as [rel ->]; [lia | lia |].
    rewrite read_uint32_in_range by lia. cbn [bind]. eexists. reflexivity.
Qed.

Lemma read_index_in_bounds (view : ArcView) (version nl d : Z) (n : nat) :
  forall (io : Z) (acc : list Entry),
    0 <= io -> 0 <= nl ->
    io + Z.of_nat n * (nl + entry_stride version) <= max_offset view ->
    (forall i, (i < n)%nat ->
       utf8_decode (take (Z.to_nat nl)
         (drop (Z.to_nat (io + Z.of_nat i * (nl + entry_stride version))) view)) <> None) ->
    exists r, read_index n view version nl d io acc = Ok r.
Proof.
  assert (Hstride : 0 < entry_stride version)
    by (unfold entry_stride; destruct (version =? 1); lia).
  induction n as [|n IH]; intros io acc Hio Hnl Hfit Hnames.
  - eexists. reflexivity.
  - destruct (parse_entry_in_bounds view version nl d io Hio Hnl) as [e Hp].
    + nia.
    + specialize (Hnames 0%nat ltac:(lia)).
      replace (io + Z.of_nat 0 * (nl + entry_stride version)) with io in Hnames by lia.
      exact Hnames.
    + cbn [ExPac.read_index]. unfold ExPac.read_entry. rewrite Hp. cbn [bind].
      destruct (check_placement e (max_offset view)); cbn [negb bind].
      * apply IH; [lia | lia | nia |].
        intros i Hi. specialize (Hnames (S i) ltac:(lia)).
        replace (io + nl + entry_stride version + Z.of_nat i * (nl + entry_stride version))
          with (io + Z.of_nat (S i) * (nl + entry_stride version)) by lia.
        exact Hnames.
      * eexists. reflexivity.
Qed.

(** X6.  Once the header checks have selected a version, the index walk
    reads only inside the index, which ends at [data_offset] and so inside
    the file: if the names decode, it raises nothing. *)
Theorem index_walk_in_bounds (view : ArcView) (count name_length data_offset version : Z) :
  is_sane_count count = true -> 0 < name_length ->
  data_offset < max_offset view ->
  select_version name_length count data_offset = Some version ->
  (forall i, (i < Z.to_nat count)%nat ->
     utf8_decode (take (Z.to_nat name_length)
       (drop (Z.to_nat (7 + Z.of_nat i * (name_length + entry_stride version))) view))
     <> None) ->
  data_offset = 7 + count * (name_length + entry_stride version) /\
  exists r, read_index (Z.to_nat count) view version name_length data_offset 7 [] = Ok r.
Proof.
  intros Hs Hnl Hlt Hv Hnames.
  assert (Hpos : 0 < count).
  { unfold is_sane_count in Hs. apply andb_true_iff in Hs as [Hs _].
    apply Z.ltb_lt in Hs. exact Hs. }
  assert (Hd : data_offset = 7 + count * (name_length + entry_stride version)).
  { unfold select_version, entry_stride in *.
    destruct (Z.eqb_spec data_offset (7 + (name_length + 8) * count)).
    - injection Hv as <-. simpl. lia.
    - destruct (Z.eqb_spec data_offset (7 + (name_length + 8) * count + 4 * count));
        [|discriminate].
      injection Hv as <-. simpl. lia. }
  split; [exact Hd|].
  apply read_index_in_bounds; [lia | lia | | exact Hnames].
  rewrite Z2Nat.id by lia. lia.
Qed.

End IndexBounds.

Lemma index_walk_in_bounds_witness :
  exists r,
    ExPac.read_index Samples.ascii_decode 1 Samples.ogg_archive 1 4 19 7 [] = Ok r.
Proof.
  refine (proj2 (index_walk_in_bounds Samples.ascii_decode Samples.ogg_archive 1 4 19 1
                   eq_refl _ _ eq_refl _)).
  - lia.
  - vm_compute. reflexivity.
  - intros i Hi. assert (i = 0%nat) by (simpl in Hi; lia). subst i.
    vm_compute. discriminate.
Defined.

(** ** The script decoder is its own inverse *)

Lemma slice_ext (d1 d2 : list Z) (lo hi : Z) :
  (forall i, (Z.to_nat lo <= i < Z.to_nat hi)%nat -> d1 !! i = d2 !! i) ->
  ExPac.slice d1 lo hi = ExPac.slice d2 lo hi.
Proof.
  intros Hagree. unfold ExPac.slice. apply list_eq. intros i.
  destruct (decide (i < Z.to_nat hi - Z.to_nat lo)%nat).
  - rewrite !lookup_take_lt, !lookup_drop by assumption. apply Hagree. lia.
  - rewrite !lookup_take_ge by lia. reflexivity.
Qed.

(** The record loop from [pos] on looks only at the bytes from [pos] on. *)
Lemma decode_records_ext (n : nat) :
  forall (d1 d2 r1 r2 : list Z) (pos : Z),
    0 <= pos -> length d1 = length d2 ->
    (forall i, (Z.to_nat pos <= i)%nat -> d1 !! i = d2 !! i) ->
    ExPac.decode_records n d1 pos = Ok r1 ->
    ExPac.decode_records n d2 pos = Ok r2 ->
    forall i, (Z.to_nat pos <= i)%nat -> r1 !! i = r2 !! i.
Proof.
  induction n as [|n IH]; intros d1 d2 r1 r2 pos Hpos Hlen Hagree H1 H2 i Hi.
  - simpl in H1, H2. injection H1 as <-. injection H2 as <-. apply Hagree. assumption.
  - cbn [ExPac.decode_records] in H1, H2. rewrite <- Hlen in H2.
    rewrite <- (slice_ext d1 d2 pos (pos + 2)) in H2 by (intros; apply Hagree; lia).
    destruct (Z.ltb_spec (Z.of_nat (length d1)) (pos + 2)).
    { injection H1 as <-. injection H2 as <-. apply Hagree. assumption. }
    destruct (unpack_unsigned 2 (ExPac.slice d1 pos (pos + 2))) as [u| |];
      cbn [bind] in H1, H2; try discriminate.
    destruct (Z.ltb_spec (Z.of_nat (length d1)) (pos + 6 + (u - 4))).
    { injection H1 as <-. injection H2 as <-. apply Hagree. assumption. }
    destruct (Z.le_gt_cases (u - 4) 0) as [Hempty|Hfull].
    + replace (Z.to_nat (u - 4)) with 0%nat in H1, H2 by lia.
      cbn [ExPac.swap_range bind] in H1, H2.
      destruct (decide (Z.to_nat (pos + 6) <= i)%nat).
      * apply (IH d1 d2 r1 r2 (pos + 6)); try assumption; [lia|].
        intros j Hj. apply Hagree. lia.
      * destruct (decode_records_total n d1 (pos + 6) ltac:(lia)) as (x1 & Hx1 & _ & Hf1 & _).
        destruct (decode_records_total n d2 (pos + 6) ltac:(lia)) as (x2 & Hx2 & _ & Hf2 & _).
        rewrite Hx1 in H1. rewrite Hx2 in H2. injection H1 as <-. injection H2 as <-.
        rewrite Hf1, Hf2 by lia. apply Hagree. assumption.
    + destruct (swap_range_lookup (Z.to_nat (u - 4)) d1 (Z.to_nat (pos + 6)))
        as (s1 & Hs1 & Hl1 & Hlk1); [lia|].
      destruct (swap_range_lookup (Z.to_nat (u - 4)) d2 (Z.to_nat (pos + 6)))
        as (s2 & Hs2 & Hl2 & Hlk2); [lia|].
      rewrite Z2Nat.id in Hs1, Hs2 by lia. rewrite Hs1 in H1. rewrite Hs2 in H2.
      cbn [bind] in H1, H2.
      assert (Hagree' : forall j, (Z.to_nat pos <= j)%nat -> s1 !! j = s2 !! j).
      { intros j Hj. rewrite Hlk1, Hlk2, (Hagree j Hj). reflexivity. }
      set (pos' := Z.of_nat (Z.to_nat (pos + 6) + Z.to_nat (u - 4))) in *.
      destruct (decide (Z.to_nat pos' <= i)%nat).
      * apply (IH s1 s2 r1 r2 pos'); try assumption; [lia | congruence |].
        intros j Hj. apply Hagree'. lia.
      * destruct (decode_records_total n s1 pos' ltac:(lia)) as (x1 & Hx1 & _ & Hf1 & _).
        destruct (decode_records_total n s2 pos' ltac:(lia)) as (x2 & Hx2 & _ & Hf2 & _).
        rewrite Hx1 in H1. rewrite Hx2 in H2. injection H1 as <-. injection H2 as <-.
        rewrite Hf1, Hf2 by lia. apply Hagree'. assumption.
Qed.

(** X7.  Run on its own output with the same record count, the record loop
    of [open_entry] gives the original buffer back: the chunk headers it
    steers by are not among the bytes it swaps. *)
Theorem decode_records_involutive (n : nat) :
  forall (data : list Z) (pos : Z),
    0 <= pos -> Forall is_byte data ->
    exists data',
      ExPac.decode_records n data pos = Ok data' /\
      Forall is_byte data' /\
      ExPac.decode_records n data' pos = Ok data.
Proof.
  induction n as [|n IH]; intros data pos Hpos Hbytes.
  - exists data. repeat split; assumption.
  - destruct (Z.lt_ge_cases (Z.of_nat (length data)) (pos + 2)) as [Hshort|Hlong].
    { assert (E : ExPac.decode_records (S n) data pos = Ok data).
      { cbn [ExPac.decode_records].
        destruct (Z.ltb_spec (Z.of_nat (length data)) (pos + 2)); [reflexivity | lia]. }
      exists data. split; [exact E|]. split; [assumption | exact E]. }
    assert (Hslice : length (ExPac.slice data pos (pos + 2)) = 2%nat).
    { unfold ExPac.slice. rewrite length_take, length_drop. lia. }
    set (chunk_size := le_uint (ExPac.slice data pos (pos + 2)) - 4).
    assert (Hhead : forall d : list Z,
      length d = length data ->
      (forall i, (i < Z.to_nat (pos + 6))%nat -> d !! i = data !! i) ->
      ExPac.decode_records (S n) d pos =
      if Z.of_nat (length data) <? pos + 6 + chunk_size then Ok d else
      let* '(d', pos') := ExPac.swap_range (Z.to_nat chunk_size) d (pos + 6) in
      ExPac.decode_records n d' pos').
    { intros d Hdl Hd. cbn [ExPac.decode_records]. rewrite Hdl.
      destruct (Z.ltb_spec (Z.of_nat (length data)) (pos + 2)); [lia|].
      rewrite (slice_ext d data pos (pos + 2)) by (intros; apply Hd; lia).
      unfold unpack_unsigned. rewrite Hslice. reflexivity. }
    destruct (Z.ltb_spec (Z.of_nat (length data)) (pos + 6 + chunk_size)) as [Hcut|Hfit].
    { assert (E : ExPac.decode_records (S n) data pos = Ok data).
      { rewrite Hhead by reflexivity.
        destruct (Z.ltb_spec (Z.of_nat (length data)) (pos + 6 + chunk_size));
          [reflexivity | lia]. }
      exists data. split; [exact E|]. split; [assumption | exact E]. }
    assert (Hagain : forall d : list Z,
      length d = length data ->
      (forall i, (i < Z.to_nat (pos + 6))%nat -> d !! i = data !! i) ->
      ExPac.decode_records (S n) d pos =
      let* '(d', pos') := ExPac.swap_range (Z.to_nat chunk_size) d (pos + 6) in
      ExPac.decode_records n d' pos').
    { intros d Hdl Hd. rewrite Hhead by assumption.
      destruct (Z.ltb_spec (Z.of_nat (length data)) (pos + 6 + chunk_size));
        [lia | reflexivity]. }
    rewrite (Hagain data) by reflexivity.
    destruct (Z.le_gt_cases chunk_size 0) as [Hempty|Hfull].
    + replace (Z.to_nat chunk_size) with 0%nat in * by lia.
      cbn [ExPac.swap_range bind] in Hagain |- *.
      destruct (IH data (pos + 6) ltac:(lia) Hbytes) as (data' & Hrun & Hb' & Hback).
      destruct (decode_records_total n data (pos + 6) ltac:(lia))
        as (x & Hx & Hxl & Hxf & _).
      rewrite Hrun in Hx. injection Hx as <-.
      exists data'. split; [exact Hrun|]. split; [exact Hb'|].
      rewrite Hagain; [exact Hback | exact Hxl |].
      intros i Hi. apply Hxf. lia.
    + destruct (swap_range_lookup (Z.to_nat chunk_size) data (Z.to_nat (pos + 6)))
        as (data1 & Hswap & Hlen1 & Hlk1); [lia|].
      rewrite Z2Nat.id in Hswap by lia. rewrite Hswap. cbn [bind].
      set (p := Z.to_nat (pos + 6)) in *. set (m := Z.to_nat chunk_size) in *.
      assert (Hb1 : Forall is_byte data1).
      { apply Forall_lookup. intros i b Hb. rewrite Hlk1 in Hb.
        rewrite Forall_lookup in Hbytes.
        destruct (decide _); [|eapply Hbytes; eassumption].
        destruct (data !! i) as [b0|] eqn:Hb0; [|discriminate].
        injection Hb as <-. apply swap_nibbles_byte. eapply Hbytes. eassumption. }
      destruct (IH data1 (Z.of_nat (p + m)) ltac:(lia) Hb1) as (d2 & Hrun & Hb2 & Hback).
      destruct (decode_records_total n data1 (Z.of_nat (p + m)) ltac:(lia))
        as (x & Hx & Hd2l & Hd2f & _).
      rewrite Hrun in Hx. injection Hx as <-.
      exists d2. split; [exact Hrun|]. split; [exact Hb2|].
      rewrite Hagain; [|congruence|].
      2:{ intros i Hi. rewrite Hd2f by lia. rewrite Hlk1.
          destruct (decide _); [lia | reflexivity]. }
      destruct (swap_range_lookup m d2 p) as (d3 & Hswap3 & Hlen3 & Hlk3); [lia|].
      unfold p at 1 in Hswap3. rewrite Z2Nat.id in Hswap3 by lia.
      rewrite Hswap3. cbn [bind].
      destruct (decode_records_total n d3 (Z.of_nat (p + m)) ltac:(lia))
        as (r3 & Hr3 & Hr3l & Hr3f & _).
      rewrite Hr3. f_equal. apply list_eq. intros i.
      destruct (decide (i < p + m)%nat) as [Hlow|Hhigh].
      * rewrite Hr3f by lia. rewrite Hlk3. rewrite Hd2f by lia. rewrite Hlk1.
        destruct (decide _); [|reflexivity].
        destruct (data !! i) as [b|] eqn:Hb; [|reflexivity]. simpl.
        rewrite swap_nibbles_involutive; [reflexivity|].
        rewrite Forall_lookup in Hbytes. eapply Hbytes. eassumption.
      * rewrite (decode_records_ext n d3 d2 r3 data1 (Z.of_nat (p + m)))
          by (lia || congruence || assumption ||
              (intros j Hj; rewrite Hlk3; destruct (decide _); [lia | reflexivity])).
        rewrite Hlk1. destruct (decide _); [lia | reflexivity].
Qed.

Lemma decode_records_involutive_witness :
  exists data',
    ExPac.decode_records 2 [2; 0; 0; 0;  6; 0; 0; 0; 0; 0;  0x12; 0xA7;  4; 0; 0; 0] 4
      = Ok data' /\
    ExPac.decode_records 2 data' 4 =
      Ok [2; 0; 0; 0;  6; 0; 0; 0; 0; 0;  0x12; 0xA7;  4; 0; 0; 0].
Proof.
  destruct (decode_records_involutive 2
              [2; 0; 0; 0;  6; 0; 0; 0; 0; 0;  0x12; 0xA7;  4; 0; 0; 0] 4)
    as (data' & Hrun & _ & Hback); [lia | |].
  - repeat (constructor; [unfold is_byte; lia|]). constructor.
  - exists data'. split; [exact Hrun | exact Hback].
Defined.

(** ** The bit reader *)

(** Within a byte: the next [n] bits are the low bits of [current_byte]. *)
Lemma get_bits_within (rest : list Z) (n : nat) :
  forall (c p : Z),
    0 <= p -> p + Z.of_nat n <= 8 ->
    CodecSpec.get_bits n (Grd2Png.mkBits rest c p) =
    Ok (map (fun i => Z.land (Z.shiftr c (Z.of_nat i)) 1) (seq 0 n),
        Grd2Png.mkBits rest (Z.shiftr c (Z.of_nat n)) (p + Z.of_nat n)).
Proof.
  induction n as [|n IH]; intros c p Hp Hfit.
  - simpl. rewrite Z.shiftr_0_r, Z.add_0_r. reflexivity.
  - cbn [CodecSpec.get_bits]. unfold Grd2Png.get_next_bit.
    cbn [Grd2Png.bit_position Grd2Png.stream Grd2Png.current_byte].
    destruct (Z.eqb_spec p 8); [lia|]. cbn [bind].
    cbn [Grd2Png.bit_position Grd2Png.stream Grd2Png.current_byte].
    rewrite IH by lia. cbn [bind].
    rewrite Z.shiftr_shiftr by lia.
    replace (1 + Z.of_nat n) with (Z.of_nat (S n)) by lia.
    replace (p + 1 + Z.of_nat n) with (p + Z.of_nat (S n)) by lia.
    do 2 f_equal. cbn [seq map]. rewrite Z.shiftr_0_r. f_equal.
    rewrite <- seq_shift, map_map. apply map_ext. intros i.
    rewrite Z.shiftr_shiftr by lia. do 2 f_equal. lia.
Qed.

Lemma get_bits_byte_raw (b : Z) (rest : list Z) :
  CodecSpec.get_bits 8 (Grd2Png.new_bits (b :: rest)) =
  Ok (map (fun i => Z.land (Z.shiftr b (Z.of_nat i)) 1) (seq 0 8),
      Grd2Png.mkBits rest (Z.shiftr b 8) 8).
Proof.
  unfold Grd2Png.new_bits.
  change (CodecSpec.get_bits 8 (Grd2Png.mkBits (b :: rest) 0 8)) with
    (let* '(more, bits'') :=
       CodecSpec.get_bits 7 (Grd2Png.mkBits rest (Z.shiftr b 1) 1) in
     Ok (Z.land b 1 :: more, bits'')).
  rewrite get_bits_within by lia. cbn [bind].
  rewrite Z.shiftr_shiftr by lia. cbn [seq map].
  rewrite !Z.shiftr_shiftr, !Z.shiftr_0_r by lia. reflexivity.
Qed.

(** X8.  Eight calls of [get_next_bit] on a fresh stream use up exactly its
    first byte, least significant bit first, and leave the stream in the
    state of a fresh stream over the rest of the input. *)
Theorem get_next_bit_lsb_first (b : Z) (rest : list Z) :
  is_byte b ->
  exists bs,
    CodecSpec.get_bits 8 (Grd2Png.new_bits (b :: rest)) = Ok (bs, Grd2Png.new_bits rest) /\
    length bs = 8%nat /\
    Forall (fun x => x = 0 \/ x = 1) bs /\
    CodecSpec.of_bits bs = b.
Proof.
  intros Hb.
  pose proof (byte_cases
    (fun b => let bs := map (fun i => Z.land (Z.shiftr b (Z.of_nat i)) 1) (seq 0 8) in
              (Z.shiftr b 8 =? 0) && (CodecSpec.of_bits bs =? b) &&
              forallb (fun x => (x =? 0) || (x =? 1)) bs)
    ltac:(vm_compute; reflexivity) b Hb) as H.
  cbv beta zeta in H.
  apply andb_true_iff in H as [H Hbits]. apply andb_true_iff in H as [Hz Hsum].
  apply Z.eqb_eq in Hz, Hsum.
  exists (map (fun i => Z.land (Z.shiftr b (Z.of_nat i)) 1) (seq 0 8)).
  rewrite get_bits_byte_raw, Hz. split; [reflexivity|]. split; [reflexivity|].
  split; [|exact Hsum].
  apply Forall_forall. intros x Hx. apply list_elem_of_In in Hx.
  rewrite forallb_forall in Hbits. specialize (Hbits x Hx).
  apply orb_true_iff in Hbits as [E|E]; apply Z.eqb_eq in E; [left | right]; exact E.
Qed.

Lemma get_next_bit_lsb_first_witness :
  exists bs,
    CodecSpec.get_bits 8 (Grd2Png.new_bits [0xA5; 7]) = Ok (bs, Grd2Png.new_bits [7]) /\
    CodecSpec.of_bits bs = 0xA5.
Proof.
  destruct (get_next_bit_lsb_first 0xA5 [7]) as (bs & Hrun & _ & _ & Hsum).
  - unfold is_byte. lia.
  - exists bs. split; [exact Hrun | exact Hsum].
Defined.

(** ** The priority list of the Huffman tree builder *)

Section PriorityList.

Import Grd2Png HuffmanSpec CodecSpec.

Lemma ascending_app (l1 l2 : list Z) :
  ascending (l1 ++ l2) <->
  ascending l1 /\ ascending l2 /\ forall x y, x ∈ l1 -> y ∈ l2 -> x <= y.
Proof.
  induction l1 as [|a l1 IH]; simpl.
  - split; [intros H; repeat split; [assumption | intros x y Hx; inversion Hx] | tauto].
  - rewrite IH, Forall_app. split.
    + intros ((Ha1 & Ha2) & H1 & H2 & Hcross). repeat split; try assumption.
      intros x y Hx Hy. apply elem_of_cons in Hx as [->|Hx].
      * rewrite Forall_forall in Ha2. apply Ha2. assumption.
      * apply Hcross; assumption.
    + intros ((Ha1 & H1) & H2 & Hcross). repeat split; try assumption.
      * apply Forall_forall. intros y Hy. apply Hcross; [left | assumption].
      * intros x y Hx Hy. apply Hcross; [right|]; assumption.
Qed.

Lemma freq_of_node (nodes : list HuffmanNode) (i : nat) (nd : HuffmanNode) :
  nodes !! i = Some nd -> freq_of nodes i = freq nd.
Proof. intros H. unfold freq_of. rewrite H. reflexivity. Qed.

Lemma insert_by_freq_sorted (nodes : list HuffmanNode) (f : Z) (index : nat)
    (tree : list nat) :
  Forall (fun i => (i < length nodes)%nat) tree ->
  sorted_by_freq nodes tree ->
  exists pre post, tree = pre ++ post /\
    insert_by_freq nodes f index tree = Ok (pre ++ index :: post) /\
    Forall (fun a => freq_of nodes a <= f) pre /\
    Forall (fun b => f < freq_of nodes b) post.
Proof.
  unfold sorted_by_freq.
  induction 1 as [|i tree Hi _ IH]; intros Hsorted.
  - exists [], []. repeat split; constructor.
  - simpl in Hsorted. destruct Hsorted as [Hmin Hrest].
    destruct (node_at_lt nodes i Hi) as (nd & Hnd & Hat).
    cbn [insert_by_freq]. rewrite Hat. cbn [bind].
    pose proof (freq_of_node _ _ _ Hnd) as Hf.
    destruct (Z.ltb_spec f (freq nd)).
    + exists [], (i :: tree). split; [reflexivity|]. split; [reflexivity|].
      split; [constructor|]. constructor; [lia|].
      rewrite Forall_map in Hmin. eapply Forall_impl; [exact Hmin|].
      simpl. intros; lia.
    + destruct (IH Hrest) as (pre & post & -> & Hins & Hpre & Hpost).
      rewrite Hins. cbn [bind]. exists (i :: pre), post.
      split; [reflexivity|]. split; [reflexivity|].
      split; [constructor; [lia | assumption] | assumption].
Qed.

(** X9.  [add_node] keeps a list that is in ascending order of frequency in
    that order: the new index goes behind every listed node that is not
    more frequent than it, nodes of equal frequency included, and before
    all that are. *)
Theorem add_node_sorted (tree : list nat) (nodes : list HuffmanNode) (index : nat) :
  (index < length nodes)%nat ->
  Forall (fun i => (i < length nodes)%nat) tree ->
  sorted_by_freq nodes tree ->
  exists pre post, tree = pre ++ post /\
    add_node tree nodes index = Ok (pre ++ index :: post) /\
    Forall (fun a => freq_of nodes a <= freq_of nodes index) pre /\
    Forall (fun b => freq_of nodes index < freq_of nodes b) post /\
    sorted_by_freq nodes (pre ++ index :: post).
Proof.
  intros Hi Hvalid Hsorted.
  destruct (node_at_lt nodes index Hi) as (nd & Hnd & Hat).
  destruct (insert_by_freq_sorted nodes (freq nd) index tree Hvalid Hsorted)
    as (pre & post & -> & Hins & Hpre & Hpost).
  rewrite <- (freq_of_node _ _ _ Hnd) in Hpre, Hpost.
  exists pre, post. split; [reflexivity|].
  split; [unfold add_node; rewrite Hat; exact Hins|].
  split; [assumption|]. split; [assumption|].
  unfold sorted_by_freq in *. rewrite map_app in *. cbn [map].
  apply ascending_app in Hsorted as (Hs1 & Hs2 & _).
  apply ascending_app. split; [assumption|]. split.
  - simpl. split; [|assumption].
    apply Forall_map. eapply Forall_impl; [exact Hpost|]. simpl. intros; lia.
  - intros x y Hx Hy.
    apply list_elem_of_fmap in Hx as (a & -> & Ha).
    rewrite Forall_forall in Hpre. specialize (Hpre a Ha).
    apply elem_of_cons in Hy as [->|Hy]; [assumption|].
    apply list_elem_of_fmap in Hy as (b & -> & Hb).
    rewrite Forall_forall in Hpost. specialize (Hpost b Hb). lia.
Qed.

End PriorityList.

Lemma add_node_sorted_witness :
  exists pre post, [0%nat; 2%nat] = pre ++ post /\
    Grd2Png.add_node [0%nat; 2%nat]
      [Grd2Png.mkNode 1 0 0; Grd2Png.mkNode 5 0 0; Grd2Png.mkNode 5 0 0; Grd2Png.mkNode 9 0 0]
      1 = Ok (pre ++ 1%nat :: post) /\
    CodecSpec.sorted_by_freq
      [Grd2Png.mkNode 1 0 0; Grd2Png.mkNode 5 0 0; Grd2Png.mkNode 5 0 0; Grd2Png.mkNode 9 0 0]
      (pre ++ 1%nat :: post).
Proof.
  destruct (add_node_sorted [0%nat; 2%nat]
    [Grd2Png.mkNode 1 0 0; Grd2Png.mkNode 5 0 0; Grd2Png.mkNode 5 0 0; Grd2Png.mkNode 9 0 0]
    1%nat) as (pre & post & Hsplit & Hadd & _ & _ & Hsorted).
  - simpl. lia.
  - repeat (constructor; [simpl; lia|]). constructor.
  - change (CodecSpec.ascending [1; 5]). simpl.
    split; [constructor; [lia | constructor]|]. split; [constructor | exact I].
  - exists pre, post. split; [exact Hsplit|]. split; [exact Hadd | exact Hsorted].
Defined.

(** ** The frequency of the root *)

Section RootFrequency.

Import Grd2Png HuffmanSpec CodecSpec.

Lemma sum_list_app (l1 l2 : list Z) : sum_list (l1 ++ l2) = sum_list l1 + sum_list l2.
Proof. induction l1 as [|x l1 IH]; simpl; lia. Qed.

Lemma sum_take_S (table : list Z) (i : nat) :
  (i < length table)%nat ->
  sum_list (take (S i) table) = sum_list (take i table) + nth i table 0.
Proof.
  revert i. induction table as [|x table IH]; intros i Hi; simpl in Hi; [lia|].
  destruct i as [|i]; [simpl; lia|].
  change (take (S (S i)) (x :: table)) with (x :: take (S i) table).
  change (take (S i) (x :: table)) with (x :: take i table).
  cbn [sum_list nth]. rewrite IH by lia. lia.
Qed.

Lemma fields_length (width count : nat) :
  forall bs, length (fields width count bs) = count.
Proof. induction count as [|count IH]; intros bs; simpl; [|rewrite IH]; reflexivity. Qed.

Lemma sum_freq_insert (nodes : list HuffmanNode) (i : nat) (nd : HuffmanNode)
    (l : list nat) :
  Forall (fun j => (j < i)%nat) l ->
  sum_list (map (freq_of (<[i := nd]> nodes)) l) = sum_list (map (freq_of nodes) l).
Proof.
  induction 1 as [|j l Hj _ IH]; [reflexivity|]. cbn [map sum_list]. rewrite IH.
  unfold freq_of at 1 3. rewrite list_lookup_insert_ne by lia. reflexivity.
Qed.

Lemma freq_of_insert_eq (nodes : list HuffmanNode) (i : nat) (nd : HuffmanNode) :
  (i < length nodes)%nat -> freq_of (<[i := nd]> nodes) i = freq nd.
Proof. intros Hi. unfold freq_of. rewrite list_lookup_insert_eq by lia. reflexivity. Qed.

Lemma seeding_sum_step (table : list Z) (i : nat) (tree : list nat)
    (nodes : list HuffmanNode) :
  length table = 0x100%nat -> (i < 0x100)%nat ->
  seeding_sum table i tree nodes ->
  exists nd tree',
    nodes !! i = Some nd /\
    add_node tree (<[i := mkNode (nth i table 0) (left nd) (right nd)]> nodes) i = Ok tree' /\
    seeding_sum table (S i) tree'
      (<[i := mkNode (nth i table 0) (left nd) (right nd)]> nodes).
Proof.
  intros Htable Hi [Hseed Hsum].
  destruct (seeding_step (nth i table 0) i tree nodes Hi Hseed)
    as (nd & tree' & Hnd & Hadd & Hseed').
  exists nd, tree'. split; [assumption|]. split; [assumption|]. split; [assumption|].
  destruct Hseed as (Hnodes & _ & _ & Hlt & _).
  destruct (add_node_ok tree (<[i := mkNode (nth i table 0) (left nd) (right nd)]> nodes) i)
    as (pre & post & -> & Hadd').
  { rewrite length_insert. lia. }
  { rewrite length_insert. eapply Forall_impl; [exact Hlt|]. simpl. intros; lia. }
  rewrite Hadd' in Hadd. injection Hadd as <-.
  rewrite sum_take_S by lia. rewrite <- Hsum.
  rewrite !map_app, !sum_list_app in *. cbn [map sum_list].
  apply Forall_app in Hlt as [Hpre Hpost].
  rewrite !sum_freq_insert by assumption.
  rewrite freq_of_insert_eq by lia. simpl. lia.
Qed.

Lemma merging_sum_step (total : Z) (l r : nat) (rest : list nat)
    (nodes : list HuffmanNode) (last_node : nat) :
  merging_sum total (l :: r :: rest) nodes last_node ->
  exists nl nr slot tree',
    nodes !! l = Some nl /\ nodes !! r = Some nr /\ nodes !! last_node = Some slot /\
    add_node rest (<[last_node := mkNode (freq nl + freq nr) l r]> nodes) last_node
      = Ok tree' /\
    length tree' = S (length rest) /\
    merging_sum total tree' (<[last_node := mkNode (freq nl + freq nr) l r]> nodes)
      (S last_node).
Proof.
  intros [Hmerge Hsum].
  destruct (merging_step_shape l r rest nodes last_node Hmerge)
    as (nl & nr & slot & pre & post & Hl & Hr & Hslot & -> & Hadd & Hnext).
  exists nl, nr, slot, (pre ++ last_node :: post).
  do 4 (split; [assumption|]).
  split; [rewrite !length_app; simpl; lia|]. split; [assumption|].
  destruct Hmerge as (Hnodes & _ & Hlen & Hlt & _). simpl in Hlen.
  apply Forall_cons in Hlt as [_ Hlt1]. apply Forall_cons in Hlt1 as [_ Hrest].
  apply Forall_app in Hrest as [Hpre Hpost].
  cbn [map sum_list] in Hsum.
  rewrite (freq_of_node _ _ _ Hl), (freq_of_node _ _ _ Hr) in Hsum.
  rewrite !map_app, !sum_list_app in *. cbn [map sum_list].
  rewrite !sum_freq_insert by assumption.
  rewrite freq_of_insert_eq by lia. simpl. lia.
Qed.

(** X10.  The node at which every walk starts carries the sum of the 256
    frequencies of the table: merging adds, without wrap-around, and loses
    no leaf. *)
Theorem root_frequency_is_total (s : list Z) :
  (8 + 4 * 0x100 <= length s)%nat ->
  exists nodes root,
    create_huffman_tree s = Ok (nodes, le_uint (take 4 s), drop (8 + 4 * 0x100) s) /\
    nodes !! 0x1FE%nat = Some root /\
    freq root = sum_list (freq_table s).
Proof.
  intros Hlen.
  assert (Htable : length (freq_table s) = 0x100%nat) by apply fields_length.
  destruct (seed_leaves_invariant (seeding_sum (freq_table s)) 0x100 0 (drop 8 s) []
              (replicate 0x200%nat (mkNode 0 0 0)))
    as (leaves & nodes0 & Hseed & Hseeded & Hsum0).
  { rewrite length_drop. lia. }
  { split; [|reflexivity]. unfold seeding. rewrite length_replicate.
    repeat split; try lia; constructor. }
  { intros j tree nodes Hj Hinv. simpl in Hinv |- *.
    apply (seeding_sum_step (freq_table s)); assumption. }
  replace (0 + 0x100)%nat with 0x100%nat in * by reflexivity.
  rewrite <- Htable, firstn_all in Hsum0.
  destruct (merge_loop_invariant (merging_sum (sum_list (freq_table s)))
              (merging_sum_step (sum_list (freq_table s)))
              (length leaves) leaves nodes0 0x100)
    as (tree & nodes & last_node & Hmerge & Hshort & Hmerged & Hsum).
  { lia. }
  { destruct Hseeded as (Hn & _ & Hl & Hlt & _). split; [|assumption].
    unfold merging. rewrite Hl. repeat split; try lia; assumption. }
  destruct Hmerged as (Hnodes & Hne & Hcount & _ & Hlast).
  assert (Hln : last_node = 0x1FF%nat) by lia. subst last_node.
  assert (Htree : tree = [0x1FE%nat]).
  { destruct tree as [|x [|y tree]]; simpl in Hshort, Hne; try lia.
    specialize (Hlast ltac:(lia)). apply list_elem_of_singleton in Hlast.
    simpl in Hlast. congruence. }
  subst tree. cbn [map sum_list] in Hsum.
  destruct (lookup_lt_is_Some_2 nodes 0x1FE ltac:(lia)) as [root Hroot].
  exists nodes, root. split; [|split; [exact Hroot|]].
  - unfold create_huffman_tree, build_huffman_tree.
    rewrite read_u32_ok by lia. cbn [bind].
    rewrite drop_drop. change (4 + 4)%nat with 8%nat.
    rewrite drop_drop in Hseed. rewrite Hseed. cbn [bind]. rewrite Hmerge. reflexivity.
  - rewrite (freq_of_node _ _ _ Hroot) in Hsum. lia.
Qed.

End RootFrequency.

Lemma root_frequency_is_total_witness :
  exists nodes root,
    Grd2Png.create_huffman_tree (HuffmanSpec.single_symbol_stream 1 65 3 [1]) =
      Ok (nodes, 1, [1]) /\
    nodes !! 0x1FE%nat = Some root /\
    Grd2Png.freq root = 3.
Proof.
  destruct (root_frequency_is_total (HuffmanSpec.single_symbol_stream 1 65 3 [1])
              (sample_length 1 [1]))
    as (nodes & root & Hcreate & Hroot & Hfreq).
  exists nodes, root. split; [exact Hcreate|]. split; [exact Hroot|].
  rewrite Hfreq, sample_table. vm_compute. reflexivity.
Defined.

(** ** The output of the Huffman decoder *)

Lemma walk_ends_at_leaf (fuel : nat) (tree : list Grd2Png.HuffmanNode) :
  forall (node : nat) (bits bits' : Grd2Png.LsbBitStream) (leaf : nat),
    Grd2Png.walk fuel tree node bits = Ok (leaf, bits') -> (leaf <= 0xFF)%nat.
Proof.
  induction fuel as [|fuel IH]; intros node bits bits' leaf H; simpl in H.
  - destruct (Nat.leb_spec node 0xFF); [|discriminate]. injection H as <- _. assumption.
  - destruct (Nat.leb_spec node 0xFF); [injection H as <- _; assumption|].
    bind_inv H. destruct a as [bit bits1]. bind_inv H.
    eapply IH. eassumption.
Qed.

Lemma decode_loop_output (n : nat) (tree : list Grd2Png.HuffmanNode) :
  forall (bits : Grd2Png.LsbBitStream) (unpacked out : list Z) (dst : Z),
    0 <= dst ->
    Grd2Png.decode_loop n tree bits unpacked dst = Ok out ->
    length out = length unpacked /\
    (Forall is_byte unpacked -> Forall is_byte out).
Proof.
  induction n as [|n IH]; intros bits unpacked out dst Hdst H; simpl in H.
  - injection H as <-. split; [reflexivity | tauto].
  - bind_inv H. destruct a as [node bits']. bind_inv H.
    apply walk_ends_at_leaf in Ha.
    apply setitem_Ok in Ha0 as [-> _]; [|assumption].
    apply IH in H as [Hlen Hbytes]; [|lia].
    rewrite length_insert in Hlen. split; [assumption|].
    intros Hall. apply Hbytes. apply Forall_insert; [assumption|].
    unfold is_byte. lia.
Qed.

(** X11.  When [unpack_huffman] returns, its buffer has exactly as many
    bytes as the first header field declares, whatever the payload holds,
    and each of them is a byte value. *)
Theorem unpack_huffman_output (s out : list Z) :
  Grd2Png.unpack_huffman s = Ok out ->
  length out = Z.to_nat (le_uint (take 4 s)) /\ Forall is_byte out.
Proof.
  unfold Grd2Png.unpack_huffman, Grd2Png.create_huffman_tree. intros H.
  apply bind_Ok in H as ([[tree hu] s'] & Hcreate & H).
  apply bind_Ok in Hcreate as (st & Hbuild & Hcreate). simpl in Hcreate.
  injection Hcreate as <- <- <-.
  unfold Grd2Png.build_huffman_tree in Hbuild.
  apply bind_Ok in Hbuild as ([hu s1] & Hread & Hbuild).
  unfold Grd2Png.read_u32 in Hread.
  apply bind_Ok in Hread as (v & Hv & Hread). simpl in Hread. injection Hread as <- <-.
  apply unpack_unsigned_Ok in Hv as [_ ->].
  apply bind_Ok in Hbuild as ([[s2 leaves] nodes0] & _ & Hbuild).
  apply bind_Ok in Hbuild as ([[tree nodes] last_node] & _ & Hbuild).
  simpl in Hbuild. injection Hbuild as <-. simpl in H.
  apply decode_loop_output in H as [Hlen Hbytes]; [|lia].
  rewrite length_replicate in Hlen. split; [exact Hlen|].
  apply Hbytes. apply Forall_replicate. unfold is_byte. lia.
Qed.

Lemma unpack_huffman_output_witness :
  length [65] = Z.to_nat (le_uint (take 4 (HuffmanSpec.single_symbol_stream 1 65 3 [1]))) /\
  Forall is_byte [65].
Proof.
  apply (unpack_huffman_output (HuffmanSpec.single_symbol_stream 1 65 3 [1]) [65]).
  vm_compute. reflexivity.
Defined.

(** ** More on the LZ77 expander *)

Lemma copy_back_length (count : nat) :
  forall (output output' : list Z) (dst dst' offset : Z),
    Grd2Png.copy_back count output dst offset = Ok (output', dst') ->
    length output' = length output /\ dst' = dst + Z.of_nat count.
Proof.
  induction count as [|count IH]; intros output output' dst dst' offset H; simpl in H.
  - injection H as <- <-. split; [reflexivity | lia].
  - bind_inv H. bind_inv H. apply IH in H as [Hlen ->].
    unfold setitem in Ha0. destruct (py_index _ _); [|discriminate].
    injection Ha0 as <-. rewrite length_insert in Hlen. split; [assumption | lia].
Qed.

Lemma setitem_length {A : Type} (l l' : list A) (i : Z) (x : A) :
  setitem l i x = Ok l' -> length l' = length l.
Proof.
  unfold setitem. destruct (py_index _ _); [|discriminate].
  intros [= <-]. apply length_insert.
Qed.

Lemma lz77_step_length (input_data : list Z) (special : Z) (st st' : Grd2Png.lz_state) :
  Grd2Png.lz77_step input_data special st = Ok st' ->
  length (Grd2Png.lz_output st') = length (Grd2Png.lz_output st).
Proof.
  unfold Grd2Png.lz77_step. intros H. bind_inv H.
  destruct (a =? special).
  - bind_inv H. destruct (a0 =? special); cbn [negb] in H.
    + bind_inv H. injection H as <-. simpl. eapply setitem_length. eassumption.
    + bind_inv H. bind_inv H. destruct a2 as [output' dst'].
      injection H as <-. simpl. apply copy_back_length in Ha2 as [Hlen _]. exact Hlen.
  - bind_inv H. injection H as <-. simpl. eapply setitem_length. eassumption.
Qed.

Lemma lz77_loop_length (input_data : list Z) (special : Z) (fuel : nat) :
  forall st st' : Grd2Png.lz_state,
    Grd2Png.lz77_loop fuel input_data special st = Ok st' ->
    length (Grd2Png.lz_output st') = length (Grd2Png.lz_output st) /\
    Z.of_nat (length (Grd2Png.lz_output st')) <= Grd2Png.lz_dst st'.
Proof.
  induction fuel as [|fuel IH]; intros st st' H; simpl in H.
  - destruct (Z.ltb_spec (Grd2Png.lz_dst st) (Z.of_nat (length (Grd2Png.lz_output st))));
      [discriminate|]. injection H as <-. split; [reflexivity | assumption].
  - destruct (Z.ltb_spec (Grd2Png.lz_dst st) (Z.of_nat (length (Grd2Png.lz_output st)))).
    + bind_inv H. apply IH in H as [Hlen Hdst].
      apply lz77_step_length in Ha. split; [congruence | assumption].
    + injection H as <-. split; [reflexivity | assumption].
Qed.

(** X12.  [unpack_lz77] never resizes the channel buffer: every write is a
    store at an index, and an index outside the buffer raises. *)
Theorem unpack_lz77_keeps_length (input_data output output' : list Z) :
  Grd2Png.unpack_lz77 input_data output = Ok output' ->
  length output' = length output.
Proof.
  unfold Grd2Png.unpack_lz77. intros H. bind_inv H. bind_inv H. injection H as <-.
  apply lz77_loop_length in Ha0 as [Hlen _]. exact Hlen.
Qed.

Lemma unpack_lz77_keeps_length_witness :
  length [0x41; 0x41; 0x41; 0x41; 0x41; 0x41] = length [0; 0; 0; 0; 0; 0].
Proof.
  exact (unpack_lz77_keeps_length
           [0; 0; 0; 0; 0; 0; 0; 0; 0xFF; 0; 0; 0; 0x41; 0xFF; 1; 5]
           [0; 0; 0; 0; 0; 0] [0x41; 0x41; 0x41; 0x41; 0x41; 0x41] eq_refl).
Defined.

Lemma lz77_literal_loop (input_data : list Z) (special : Z) (n : nat) (m : nat) :
  (12 + n <= length input_data)%nat ->
  Forall (fun b => b <> special) (take n (drop 12 input_data)) ->
  forall (k fuel : nat) (out : list Z),
    (k + m = n)%nat -> length out = n -> (m <= fuel)%nat ->
    (forall i, (i < k)%nat -> out !! i = drop 12 input_data !! i) ->
    exists out',
      Grd2Png.lz77_loop fuel input_data special
        (Grd2Png.mkLz (12 + Z.of_nat k) (Z.of_nat k) out) =
      Ok (Grd2Png.mkLz (12 + Z.of_nat n) (Z.of_nat n) out') /\
      length out' = n /\
      forall i, (i < n)%nat -> out' !! i = drop 12 input_data !! i.
Proof.
  intros Hinput Hlit.
  induction m as [|m IH]; intros k fuel out Hk Hlen Hfuel Hdone.
  - assert (k = n) by lia. subst k. exists out.
    split; [|split; assumption].
    destruct fuel; simpl; rewrite Hlen;
      (destruct (Z.ltb_spec (Z.of_nat n) (Z.of_nat n)); [lia | reflexivity]).
  - destruct fuel as [|fuel]; [lia|].
    destruct (lookup_lt_is_Some_2 (drop 12 input_data) k) as [b Hb];
      [rewrite length_drop; lia|].
    assert (Hne : b <> special).
    { rewrite Forall_lookup in Hlit. apply (Hlit k).
      rewrite lookup_take_lt by lia. exact Hb. }
    pose proof Hb as Hin. rewrite lookup_drop in Hin.
    cbn [Grd2Png.lz77_loop Grd2Png.lz_dst Grd2Png.lz_output]. rewrite Hlen.
    destruct (Z.ltb_spec (Z.of_nat k) (Z.of_nat n)); [|lia].
    unfold Grd2Png.lz77_step. cbn [Grd2Png.lz_src Grd2Png.lz_dst Grd2Png.lz_output].
    replace (12 + Z.of_nat k) with (Z.of_nat (12 + k)) by lia.
    rewrite (getitem_nat _ _ _ Hin). cbn [bind].
    destruct (Z.eqb_spec b special); [contradiction|].
    rewrite setitem_nat by lia. cbn [bind].
    destruct (IH (S k) fuel (<[k := b]> out)) as (out' & Hrun & Hlen' & Hall).
    + lia.
    + rewrite length_insert. assumption.
    + lia.
    + intros i Hi. destruct (decide (i = k)) as [->|Hik].
      * rewrite list_lookup_insert_eq by lia. symmetry. exact Hb.
      * rewrite list_lookup_insert_ne by congruence. apply Hdone. lia.
    + exists out'. split; [|split; assumption].
      rewrite <- Hrun. do 2 f_equal; lia.
Qed.

(** X13.  A stream in which the escape byte does not occur is copied
    through: the output is the input from position 12 on, as many bytes as
    the channel buffer holds, whatever the buffer held before. *)
Theorem unpack_lz77_literals (input_data output : list Z) (special : Z) :
  input_data !! 8%nat = Some special ->
  (12 + length output <= length input_data)%nat ->
  Forall (fun b => b <> special) (take (length output) (drop 12 input_data)) ->
  Grd2Png.unpack_lz77 input_data output = Ok (take (length output) (drop 12 input_data)).
Proof.
  intros Hspecial Hlen Hlit. unfold Grd2Png.unpack_lz77.
  change 8 with (Z.of_nat 8).
  rewrite (getitem_nat input_data 8 special Hspecial). cbn [bind].
  destruct (lz77_literal_loop input_data special (length output) (length output) Hlen Hlit
              0%nat (length input_data) output)
    as (out' & Hrun & Hlen' & Hall); [lia | reflexivity | lia | intros; lia |].
  change (12 + Z.of_nat 0) with 12 in Hrun. change (Z.of_nat 0) with 0 in Hrun.
  rewrite Hrun. cbn [bind Grd2Png.lz_output]. f_equal.
  apply list_eq. intros i. destruct (decide (i < length output)%nat).
  - rewrite lookup_take_lt by assumption. apply Hall. assumption.
  - rewrite lookup_take_ge by lia. apply lookup_ge_None_2. lia.
Qed.

Lemma unpack_lz77_literals_witness :
  Grd2Png.unpack_lz77 [0; 0; 0; 0; 0; 0; 0; 0; 0xFF; 0; 0; 0; 1; 2; 3; 4] [9; 9; 9] =
  Ok [1; 2; 3].
Proof.
  apply (unpack_lz77_literals [0; 0; 0; 0; 0; 0; 0; 0; 0xFF; 0; 0; 0; 1; 2; 3; 4]
           [9; 9; 9] 0xFF).
  - reflexivity.
  - simpl. lia.
  - repeat (constructor; [discriminate|]). constructor.
Defined.

(** X14.  A back-reference that starts inside the output and fits the
    buffer repeats the last [offset] bytes before [dst] periodically, for
    any count, shorter or longer than the offset. *)
Theorem copy_back_periodic (count : nat) (output : list Z) (dst offset : nat) :
  (1 <= offset <= dst)%nat -> (dst + count <= length output)%nat ->
  exists output',
    Grd2Png.copy_back count output (Z.of_nat dst) (Z.of_nat offset) =
      Ok (output', Z.of_nat (dst + count)) /\
    length output' = length output /\
    (forall i, (i < dst \/ dst + count <= i)%nat -> output' !! i = output !! i) /\
    (forall i, (i < count)%nat ->
       output' !! (dst + i)%nat = output !! (dst - offset + i mod offset)%nat).
Proof.
  intros Hoff Hfit.
  destruct (copy_back_lookup count output dst offset Hoff Hfit)
    as (output' & Hrun & Hlen & Hframe & Hcopy).
  exists output'. do 3 (split; [assumption|]).
  intros i. induction i as [i IH] using lt_wf_ind. intros Hi.
  rewrite Hcopy by lia.
  destruct (Nat.lt_ge_cases i offset) as [Hsmall|Hbig].
  - rewrite Nat.mod_small by assumption. rewrite Hframe by lia. f_equal. lia.
  - replace (dst + i - offset)%nat with (dst + (i - offset))%nat by lia.
    rewrite IH by lia. do 2 f_equal.
    replace i with ((i - offset) + 1 * offset)%nat at 2 by lia.
    rewrite Nat.Div0.mod_add. reflexivity.
Qed.

Lemma copy_back_periodic_witness :
  exists output',
    Grd2Png.copy_back 5 [1; 2; 3; 0; 0; 0; 0; 0] 3 2 = Ok (output', 8) /\
    forall i, (i < 5)%nat -> output' !! (3 + i)%nat = [1; 2; 3; 0; 0; 0; 0; 0] !! (1 + i mod 2)%nat.
Proof.
  destruct (copy_back_periodic 5 [1; 2; 3; 0; 0; 0; 0; 0] 3 2)
    as (output' & Hrun & _ & _ & Hper); [lia | simpl; lia |].
  exists output'. split; [exact Hrun | exact Hper].
Defined.

(** X15.  A back-reference that reaches before the start of the output
    does not raise as long as it stays within one buffer length: the index
    is negative and counts from the end of the channel buffer.  Beyond that
    it raises IndexError. *)
Theorem copy_back_before_start (count : nat) (output : list Z) (dst offset : nat) (x : Z) :
  (dst < offset)%nat -> (dst < length output)%nat ->
  ((offset <= dst + length output)%nat ->
   output !! (length output + dst - offset)%nat = Some x ->
   Grd2Png.copy_back (S count) output (Z.of_nat dst) (Z.of_nat offset) =
   Grd2Png.copy_back count (<[dst := x]> output) (Z.of_nat dst + 1) (Z.of_nat offset)) /\
  ((dst + length output < offset)%nat ->
   Grd2Png.copy_back (S count) output (Z.of_nat dst) (Z.of_nat offset) = Raise IndexError).
Proof.
  intros Hbefore Hdst. split.
  - intros Hwrap Hx. cbn [Grd2Png.copy_back]. unfold getitem, py_index.
    destruct (Z.ltb_spec (Z.of_nat dst - Z.of_nat offset) 0); [|lia].
    destruct (Z.leb_spec 0 (Z.of_nat (length output) + (Z.of_nat dst - Z.of_nat offset)));
      [|lia].
    replace (Z.to_nat (Z.of_nat (length output) + (Z.of_nat dst - Z.of_nat offset)))
      with (length output + dst - offset)%nat by lia.
    rewrite Hx. cbn [bind]. rewrite setitem_nat by assumption. reflexivity.
  - intros Hfar. cbn [Grd2Png.copy_back]. unfold getitem, py_index.
    destruct (Z.ltb_spec (Z.of_nat dst - Z.of_nat offset) 0); [|lia].
    destruct (Z.leb_spec 0 (Z.of_nat (length output) + (Z.of_nat dst - Z.of_nat offset)));
      [lia | reflexivity].
Qed.

Lemma copy_back_before_start_witness :
  Grd2Png.copy_back 1 [0; 0; 0; 7] 0 1 = Ok ([7; 0; 0; 7], 1) /\
  Grd2Png.copy_back 1 [0; 0; 0; 7] 0 5 = Raise IndexError.
Proof.
  split.
  - refine (proj1 (copy_back_before_start 0 [0; 0; 0; 7] 0 1 7 _ _) _ eq_refl);
      simpl; lia.
  - refine (proj2 (copy_back_before_start 0 [0; 0; 0; 7] 0 5 0 _ _) _); simpl; lia.
Defined.

(** ** More on the RLE expander *)

(** X16.  A repeat run that starts inside the channel buffer is not clipped
    to it: the run is written whole, and where it crosses the end of the
    buffer the buffer grows to hold it. *)
Theorem rle_run_extends (c v : Z) (rest : list Z) (src : Z) (dst : nat) (channel : list Z) :
  is_byte c -> 0x80 <= c -> (dst <= length channel)%nat ->
  exists channel',
    Grd2Png.rle_step (Grd2Png.mkRle (c :: v :: rest) src (Z.of_nat dst) channel) =
      Ok (Grd2Png.mkRle rest (src + 2) (Z.of_nat dst + (c - 0x80)) channel') /\
    length channel' = (length channel `max` (dst + Z.to_nat (c - 0x80)))%nat /\
    (forall i, (i < dst)%nat -> channel' !! i = channel !! i) /\
    (forall i, (dst <= i < dst + Z.to_nat (c - 0x80))%nat -> channel' !! i = Some v) /\
    (forall i, (dst + Z.to_nat (c - 0x80) <= i)%nat -> channel' !! i = channel !! i).
Proof.
  intros Hb Hc Hdst. unfold Grd2Png.rle_step.
  cbn [Grd2Png.rle_input Grd2Png.rle_src Grd2Png.rle_dst Grd2Png.rle_channel
       Grd2Png.read1 bind].
  destruct (Z.ltb_spec 0x7F c); [|lia].
  rewrite (repeat_count_high c Hb Hc). cbn [bind]. rewrite Nat2Z.id.
  set (n := Z.to_nat (c - 0x80)).
  eexists. split; [do 2 f_equal; lia|].
  unfold slice_assign. split; [|split; [|split]].
  - rewrite !length_app, length_take, length_replicate, length_drop. lia.
  - intros i Hi. rewrite lookup_app_l by (rewrite length_take; lia).
    apply lookup_take_lt. assumption.
  - intros i Hi. rewrite lookup_app_r by (rewrite length_take; lia).
    rewrite length_take, Nat.min_l by lia.
    rewrite lookup_app_l by (rewrite length_replicate; lia).
    apply lookup_replicate_2. lia.
  - intros i Hi. rewrite lookup_app_r by (rewrite length_take; lia).
    rewrite length_take, Nat.min_l by lia.
    rewrite lookup_app_r by (rewrite length_replicate; lia).
    rewrite length_replicate, lookup_drop. f_equal. lia.
Qed.

Lemma rle_run_extends_witness :
  exists channel',
    Grd2Png.rle_step (Grd2Png.mkRle [0x83; 7; 1] 0 1 [0; 0]) =
      Ok (Grd2Png.mkRle [1] 2 4 channel') /\
    length channel' = 4%nat.
Proof.
  destruct (rle_run_extends 0x83 7 [1] 0 1 [0; 0])
    as (channel' & Hstep & Hlen & _); [unfold is_byte; lia | lia | simpl; lia |].
  exists channel'. split; [exact Hstep | exact Hlen].
Defined.

(** ** What the interleaving writes *)

Lemma interleave_row_writes (n : nat) :
  forall (output channel : list Z) (src dst pixel_size : Z) output' dst',
    0 <= src -> 0 <= dst -> 1 <= pixel_size ->
    Grd2Png.interleave_row n output channel src dst pixel_size = Ok (output', dst') ->
    forall k : nat, (k < n)%nat ->
      is_Some (channel !! Z.to_nat (src + Z.of_nat k)) /\
      output' !! Z.to_nat (dst + Z.of_nat k * pixel_size) =
      channel !! Z.to_nat (src + Z.of_nat k).
Proof.
  induction n as [|n IH]; intros output channel src dst ps output' dst' Hsrc Hdst Hps H k Hk;
    [lia|].
  simpl in H. bind_inv H. bind_inv H.
  apply getitem_Ok in Ha as [Hv _]; [|assumption].
  apply setitem_Ok in Ha0 as [-> Hlt]; [|assumption].
  destruct k as [|k].
  - replace (src + Z.of_nat 0) with src by lia.
    replace (dst + Z.of_nat 0 * ps) with dst by lia.
    rewrite Hv. split; [eauto|].
    apply interleave_row_frame in H as (_ & _ & Hframe); [|lia|lia].
    rewrite Hframe; [apply list_lookup_insert_eq; lia|].
    intros j Hj. nia.
  - assert (Hsrc' : 0 <= src + 1) by lia. assert (Hdst' : 0 <= dst + ps) by lia.
    destruct (IH _ _ _ _ _ _ _ Hsrc' Hdst' Hps H k ltac:(lia)) as [Hsome Hw].
    replace (src + Z.of_nat (S k)) with (src + 1 + Z.of_nat k) by lia.
    replace (dst + Z.of_nat (S k) * ps) with (dst + ps + Z.of_nat k * ps) by lia.
    split; assumption.
Qed.

Lemma interleave_writes (rows : nat) (width : Z) :
  forall (output channel : list Z) (dst pixel_size : Z) output' dst',
    0 <= width -> 0 <= dst -> 1 <= pixel_size ->
    Grd2Png.interleave rows width output channel dst pixel_size = Ok (output', dst') ->
    forall j x : nat, (j < rows)%nat -> Z.of_nat x < width ->
      is_Some (channel !! Z.to_nat ((Z.of_nat rows - 1 - Z.of_nat j) * width + Z.of_nat x)) /\
      output' !! Z.to_nat (dst + (Z.of_nat j * width + Z.of_nat x) * pixel_size) =
      channel !! Z.to_nat ((Z.of_nat rows - 1 - Z.of_nat j) * width + Z.of_nat x).
Proof.
  induction rows as [|y IH]; intros output channel dst ps output' dst' Hw Hdst Hps H j x Hj Hx;
    [lia|].
  simpl in H. bind_inv H. destruct a as [output1 dst1].
  assert (Hps0 : 0 <= ps) by lia.
  pose proof (interleave_row_frame _ _ _ _ _ _ _ _ Hdst Hps0 Ha) as (Hdst1 & _ & _).
  rewrite Z2Nat.id in Hdst1 by assumption.
  destruct j as [|j].
  - assert (Hsrc : 0 <= Z.of_nat y * width) by nia.
    destruct (interleave_row_writes _ _ _ _ _ _ _ _ Hsrc Hdst Hps Ha x ltac:(lia))
      as [Hsome Hrow].
    replace ((Z.of_nat (S y) - 1 - Z.of_nat 0) * width + Z.of_nat x)
      with (Z.of_nat y * width + Z.of_nat x) by lia.
    replace (dst + (Z.of_nat 0 * width + Z.of_nat x) * ps)
      with (dst + Z.of_nat x * ps) by lia.
    split; [assumption|]. rewrite <- Hrow.
    apply interleave_frame in H as (_ & _ & Hframe); [|nia|lia].
    apply Hframe. intros k Hk. subst dst1. nia.
  - assert (Hdst1' : 0 <= dst1) by (subst dst1; nia).
    destruct (IH _ _ _ _ _ _ Hw Hdst1' Hps H j x ltac:(lia) Hx) as [Hsome Hrest].
    replace ((Z.of_nat (S y) - 1 - Z.of_nat (S j)) * width + Z.of_nat x)
      with ((Z.of_nat y - 1 - Z.of_nat j) * width + Z.of_nat x) by lia.
    replace (dst + (Z.of_nat (S j) * width + Z.of_nat x) * ps)
      with (dst1 + (Z.of_nat j * width + Z.of_nat x) * ps) by (subst dst1; lia).
    split; assumption.
Qed.

(** X17.  [unpack_channel] flips the image: pixel [x] of output row [j]
    gets, at the channel's offset [d], the byte [x] of row
    [Height - 1 - j] of the decoded channel. *)
Theorem unpack_channel_flips (r r' : Grd2Png.GrdReader) (d src_pos src_size : Z) :
  0 <= d -> 1 <= Grd2Png.pixel_size r ->
  Grd2Png.unpack_channel r d src_pos src_size = Ok r' ->
  forall j x : nat,
    let width := Grd2Png.Width (Grd2Png.info r) in
    let height := Grd2Png.Height (Grd2Png.info r) in
    Z.of_nat j < height -> Z.of_nat x < width ->
    Grd2Png.output r' !! Z.to_nat (d + (Z.of_nat j * width + Z.of_nat x) * Grd2Png.pixel_size r) =
    Grd2Png.channel r' !! Z.to_nat ((height - 1 - Z.of_nat j) * width + Z.of_nat x).
Proof.
  intros Hd Hps H j x width height Hj Hx. unfold Grd2Png.unpack_channel in H.
  bind_inv H. bind_inv H. destruct a0 as [output' dst']. injection H as <-. simpl.
  assert (Hwidth : 0 <= Grd2Png.Width (Grd2Png.info r)) by (subst width; lia).
  destruct (interleave_writes _ _ _ _ _ _ _ _ Hwidth Hd Hps Ha0 j x ltac:(lia) Hx)
    as [_ Hw].
  rewrite Z2Nat.id in Hw by lia. exact Hw.
Qed.

Lemma unpack_channel_flips_witness :
  exists r',
    Grd2Png.unpack_channel (Grd2Png.new_reader Samples.rle_image Samples.rle_image_info)
      0 0x20 5 = Ok r' /\
    Grd2Png.output r' !! Z.to_nat (0 + (Z.of_nat 0 * 2 + Z.of_nat 1) * 3) =
    Grd2Png.channel r' !! Z.to_nat ((2 - 1 - Z.of_nat 0) * 2 + Z.of_nat 1).
Proof.
  eexists. split; [reflexivity|].
  refine (unpack_channel_flips
            (Grd2Png.new_reader Samples.rle_image Samples.rle_image_info)
            _ 0 0x20 5 _ _ eq_refl 0%nat 1%nat _ _);
    try (change (Grd2Png.pixel_size _) with 3); simpl; lia.
Defined.

(** ** More on the GRD header *)

Lemma unpack_fields_Ok (width count : nat) (bs l : list Z) :
  Grd2Png.unpack_fields width count bs = Ok l -> length bs = (width * count)%nat.
Proof.
  unfold Grd2Png.unpack_fields.
  destruct (Nat.eqb_spec (length bs) (width * count)); [tauto | discriminate].
Qed.

Lemma read_grd_metadata_Some_length (file : list Z) (info : Grd2Png.GrdMetaData) :
  Grd2Png.read_grd_metadata file = Ok (Some info) -> (32 <= length file)%nat.
Proof.
  unfold Grd2Png.read_grd_metadata. intros H.
  apply bind_Ok in H as (h0 & _ & H).
  destruct (negb _); [discriminate|].
  apply bind_Ok in H as (h1 & _ & H).
  destruct (negb _); [discriminate|].
  apply bind_Ok in H as (bpp & _ & H).
  destruct (negb _); [discriminate|].
  apply bind_Ok in H as (screen & _ & H).
  apply bind_Ok in H as (bounds & _ & H).
  apply bind_Ok in H as (format & _ & H).
  apply bind_Ok in H as (sizes & Hsizes & H).
  apply unpack_fields_Ok in Hsizes. unfold Grd2Png.slice in Hsizes.
  rewrite length_take, length_drop, length_take in Hsizes. lia.
Qed.

(** X18.  A file shorter than the 32 header bytes never yields metadata:
    the parser raises or rejects, and on an empty file the first subscript
    raises IndexError. *)
Theorem truncated_header_no_metadata (file : list Z) :
  ((length file < 32)%nat ->
   forall info, Grd2Png.read_grd_metadata file <> Ok (Some info)) /\
  (file = [] -> Grd2Png.read_grd_metadata file = Raise IndexError).
Proof.
  split.
  - intros Hshort info H. apply read_grd_metadata_Some_length in H. lia.
  - intros ->. reflexivity.
Qed.

Lemma truncated_header_no_metadata_witness :
  Grd2Png.read_grd_metadata [] = Raise IndexError /\
  forall info, Grd2Png.read_grd_metadata (take 31 Samples.rle_image) <> Ok (Some info).
Proof.
  split.
  - apply (proj2 (truncated_header_no_metadata [])). reflexivity.
  - apply (proj1 (truncated_header_no_metadata (take 31 Samples.rle_image))).
    simpl. lia.
Defined.

(** X19.  Metadata that [read_grd_metadata] accepts fits the reader built
    from it: the pack type is header byte 1, so 1, 0xA1 or 0xA2, a pixel has
    3 or 4 bytes, width and height are not negative, the two buffers have
    [Width * Height * pixel_size] and [Width * Height] bytes, and the four
    channel sizes fill the file after the header. *)
Theorem accepted_metadata_reader (file : list Z) (info : Grd2Png.GrdMetaData) :
  Grd2Png.read_grd_metadata file = Ok (Some info) ->
  let r := Grd2Png.new_reader file info in
  (Grd2Png.pack_type r = 1 \/ Grd2Png.pack_type r = 0xA1 \/ Grd2Png.pack_type r = 0xA2) /\
  Grd2Png.pack_type r = nth 1 file 0 /\
  (Grd2Png.BPP info = 24 /\ Grd2Png.pixel_size r = 3 \/
   Grd2Png.BPP info = 32 /\ Grd2Png.pixel_size r = 4) /\
  0 <= Grd2Png.Width info /\ 0 <= Grd2Png.Height info /\
  Z.of_nat (length (Grd2Png.output r)) =
    Grd2Png.Width info * Grd2Png.Height info * Grd2Png.pixel_size r /\
  Z.of_nat (length (Grd2Png.channel r)) = Grd2Png.Width info * Grd2Png.Height info /\
  0x20 + Grd2Png.AlphaSize info + Grd2Png.RSize info + Grd2Png.GSize info +
    Grd2Png.BSize info = Z.of_nat (length file).
Proof.
  intros H. pose proof (read_grd_metadata_Some_length file info H) as Hlen.
  do 32 (destruct file as [|? file]; [simpl in Hlen; lia|]).
  clear Hlen. unfold Grd2Png.read_grd_metadata in H. simpl in H.
  unfold Grd2Png.new_reader. cbn [Grd2Png.pack_type Grd2Png.pixel_size Grd2Png.output
    Grd2Png.channel nth]. rewrite !length_replicate.
  destruct (Z.eqb_spec z 1) as [->|]; [|destruct (Z.eqb_spec z 2) as [->|]];
    simpl in H; try discriminate;
    (destruct (Z.eqb_spec z0 1) as [->|];
     [|destruct (Z.eqb_spec z0 0xA1) as [->|];
       [|destruct (Z.eqb_spec z0 0xA2) as [->|]]]; simpl in H; try discriminate);
    (destruct (Z.eqb_spec (z5 + 256 * (z6 + 256 * 0)) 24) as [Hbpp|];
     [|destruct (Z.eqb_spec (z5 + 256 * (z6 + 256 * 0)) 32) as [Hbpp|]];
     simpl in H; try discriminate);
    match type of H with
    | (if negb (?a =? ?b) then _ else _) = _ =>
        destruct (Z.eqb_spec a b) as [Hsize|]; simpl in H; [|discriminate]
    end;
    injection H as <-;
    cbn [Grd2Png.Format Grd2Png.Width Grd2Png.Height Grd2Png.BPP Grd2Png.AlphaSize
         Grd2Png.RSize Grd2Png.GSize Grd2Png.BSize];
    rewrite Hbpp;
    (split; [vm_compute; tauto|]); (split; [vm_compute; reflexivity|]);
    (split; [first [left; split; reflexivity | right; split; reflexivity]|]);
    (split; [apply Z.abs_nonneg|]); (split; [apply Z.abs_nonneg|]);
    pose proof (Z.abs_nonneg (z9 + 256 * (z10 + 256 * 0) - (z7 + 256 * (z8 + 256 * 0))));
    pose proof (Z.abs_nonneg (z13 + 256 * (z14 + 256 * 0) - (z11 + 256 * (z12 + 256 * 0))));
    (split; [change (24 / 8) with 3; change (32 / 8) with 4;
             apply Z2Nat.id;
             apply Z.mul_nonneg_nonneg; [apply Z.mul_nonneg_nonneg|]; lia|]);
    (split; [apply Z2Nat.id; apply Z.mul_nonneg_nonneg; lia|]);
    cbn [length]; lia.
Qed.

Lemma accepted_metadata_reader_witness :
  Grd2Png.pack_type (Grd2Png.new_reader Samples.rle_image Samples.rle_image_info) = 1 /\
  Grd2Png.pixel_size (Grd2Png.new_reader Samples.rle_image Samples.rle_image_info) = 3 /\
  Z.of_nat (length (Grd2Png.output
     (Grd2Png.new_reader Samples.rle_image Samples.rle_image_info))) = 2 * 2 * 3.
Proof.
  destruct (accepted_metadata_reader Samples.rle_image Samples.rle_image_info eq_refl)
    as (_ & Hpack & Hbpp & _ & _ & Hout & _).
  split; [exact Hpack|]. split; [|exact Hout].
  destruct Hbpp as [[_ Hps]|[Hbpp _]]; [exact Hps | discriminate Hbpp].
Defined.

(** ** The planes in the pixel buffer *)

(** What one [unpack_channel] does to the reader. *)
Lemma unpack_channel_effect (r r' : Grd2Png.GrdReader) (d src_pos src_size : Z) :
  0 <= d -> 1 <= Grd2Png.pixel_size r ->
  Grd2Png.unpack_channel r d src_pos src_size = Ok r' ->
  Grd2Png.input r' = Grd2Png.input r /\ Grd2Png.info r' = Grd2Png.info r /\
  Grd2Png.pack_type r' = Grd2Png.pack_type r /\
  Grd2Png.pixel_size r' = Grd2Png.pixel_size r /\
  length (Grd2Png.output r') = length (Grd2Png.output r) /\
  (forall i : nat,
     d < Grd2Png.pixel_size r -> Z.of_nat i mod Grd2Png.pixel_size r <> d ->
     Grd2Png.output r' !! i = Grd2Png.output r !! i) /\
  (forall j x : nat,
     Z.of_nat j < Grd2Png.Height (Grd2Png.info r) ->
     Z.of_nat x < Grd2Png.Width (Grd2Png.info r) ->
     Grd2Png.output r' !!
       Z.to_nat (d + (Z.of_nat j * Grd2Png.Width (Grd2Png.info r) + Z.of_nat x)
                     * Grd2Png.pixel_size r) =
     Grd2Png.channel r' !!
       Z.to_nat ((Grd2Png.Height (Grd2Png.info r) - 1 - Z.of_nat j)
                 * Grd2Png.Width (Grd2Png.info r) + Z.of_nat x)).
Proof.
  intros Hd Hps H. unfold Grd2Png.unpack_channel in H.
  bind_inv H. bind_inv H. destruct a0 as [output' dst']. injection H as <-. simpl.
  assert (Hps0 : 0 <= Grd2Png.pixel_size r) by lia.
  pose proof (interleave_frame _ _ _ _ _ _ _ _ Hd Hps0 Ha0) as (_ & Hlen & Hframe).
  do 4 (split; [reflexivity|]). split; [exact Hlen|]. split.
  - intros i Hlt Hmod. apply Hframe. intros k _ Heq. apply Hmod.
    rewrite Heq, Z.mod_add by lia. apply Z.mod_small. lia.
  - intros j x Hj Hx.
    assert (Hwidth : 0 <= Grd2Png.Width (Grd2Png.info r)) by lia.
    destruct (interleave_writes _ _ _ _ _ _ _ _ Hwidth Hd Hps Ha0 j x ltac:(lia) Hx)
      as [_ Hw].
    rewrite Z2Nat.id in Hw by lia. exact Hw.
Qed.

(** X20.  The three colour planes end up side by side in every pixel: after
    [unpack], bytes 0, 1 and 2 of a pixel are the bytes that the red, green
    and blue decodes left in the shared channel buffer for the mirrored
    row; a later plane overwrites no byte of an earlier one.  The reader
    before the red plane is the given one, or the one the alpha plane
    left. *)
Theorem unpack_planes (r r' : Grd2Png.GrdReader) :
  3 <= Grd2Png.pixel_size r ->
  Grd2Png.unpack r = Ok r' ->
  let info := Grd2Png.info r in
  let ps := Grd2Png.pixel_size r in
  exists r0 r1 r2 pos,
    (Grd2Png.BPP info = 32 /\ 0 < Grd2Png.AlphaSize info /\
     Grd2Png.unpack_channel r 3 0x20 (Grd2Png.AlphaSize info) = Ok r0 /\
     pos = 0x20 + Grd2Png.AlphaSize info
     \/
     ~ (Grd2Png.BPP info = 32 /\ 0 < Grd2Png.AlphaSize info) /\ r0 = r /\ pos = 0x20) /\
    Grd2Png.unpack_channel r0 0 pos (Grd2Png.RSize info) = Ok r1 /\
    Grd2Png.unpack_channel r1 1 (pos + Grd2Png.RSize info) (Grd2Png.GSize info) = Ok r2 /\
    Grd2Png.unpack_channel r2 2 (pos + Grd2Png.RSize info + Grd2Png.GSize info)
      (Grd2Png.BSize info) = Ok r' /\
    length (Grd2Png.output r') = length (Grd2Png.output r) /\
    forall j x : nat,
      Z.of_nat j < Grd2Png.Height info -> Z.of_nat x < Grd2Png.Width info ->
      let p := Z.of_nat j * Grd2Png.Width info + Z.of_nat x in
      let q := Z.to_nat ((Grd2Png.Height info - 1 - Z.of_nat j) * Grd2Png.Width info
                         + Z.of_nat x) in
      Grd2Png.output r' !! Z.to_nat (0 + p * ps) = Grd2Png.channel r1 !! q /\
      Grd2Png.output r' !! Z.to_nat (1 + p * ps) = Grd2Png.channel r2 !! q /\
      Grd2Png.output r' !! Z.to_nat (2 + p * ps) = Grd2Png.channel r' !! q.
Proof.
  intros Hps H info ps. unfold Grd2Png.unpack in H.
  apply bind_Ok in H as ([r0 pos] & Halpha & H).
  assert (Hr0 : Grd2Png.info r0 = info /\ Grd2Png.pixel_size r0 = ps /\
                length (Grd2Png.output r0) = length (Grd2Png.output r) /\
                (Grd2Png.BPP info = 32 /\ 0 < Grd2Png.AlphaSize info /\
                 Grd2Png.unpack_channel r 3 0x20 (Grd2Png.AlphaSize info) = Ok r0 /\
                 pos = 0x20 + Grd2Png.AlphaSize info
                 \/
                 ~ (Grd2Png.BPP info = 32 /\ 0 < Grd2Png.AlphaSize info) /\
                 r0 = r /\ pos = 0x20)).
  { fold info in Halpha.
    destruct (Z.eqb_spec (Grd2Png.BPP info) 32) as [Hbpp|Hbpp];
      [destruct (Z.ltb_spec 0 (Grd2Png.AlphaSize info)) as [Ha|Ha]|]; simpl in Halpha.
    - apply bind_Ok in Halpha as (ra & Hra & Halpha). injection Halpha as <- <-.
      pose proof (unpack_channel_effect r ra 3 _ _ ltac:(lia) ltac:(lia) Hra)
        as (_ & Hi & _ & Hp & Hl & _).
      split; [exact Hi|]. split; [exact Hp|]. split; [exact Hl|].
      left. repeat split; assumption.
    - injection Halpha as <- <-. do 3 (split; [reflexivity|]).
      right. split; [lia | split; reflexivity].
    - injection Halpha as <- <-. do 3 (split; [reflexivity|]).
      right. split; [tauto | split; reflexivity]. }
  destruct Hr0 as (Hinfo0 & Hps0 & Hlen0 & Hcase).
  simpl in H.
  apply bind_Ok in H as (r1 & Hred & H).
  pose proof (unpack_channel_effect r0 r1 0 _ _ ltac:(lia) ltac:(lia) Hred)
    as (_ & Hinfo1 & _ & Hps1 & Hlen1 & _ & Hw1).
  apply bind_Ok in H as (r2 & Hgreen & H).
  pose proof (unpack_channel_effect r1 r2 1 _ _ ltac:(lia) ltac:(lia) Hgreen)
    as (_ & Hinfo2 & _ & Hps2 & Hlen2 & Hf2 & Hw2).
  pose proof (unpack_channel_effect r2 r' 2 _ _ ltac:(lia) ltac:(lia) H)
    as (_ & Hinfo3 & _ & Hps3 & Hlen3 & Hf3 & Hw3).
  rewrite Hinfo1, Hinfo0 in Hgreen, H. rewrite Hinfo2, Hinfo1, Hinfo0 in H.
  rewrite Hinfo0 in Hred.
  rewrite Hps1, Hps0 in *. rewrite Hps2 in *.
  rewrite Hinfo0 in Hw1. rewrite Hinfo1, Hinfo0 in Hw2.
  rewrite Hinfo2, Hinfo1, Hinfo0 in Hw3.
  exists r0, r1, r2, pos.
  split; [exact Hcase|]. split; [exact Hred|]. split; [exact Hgreen|].
  split; [exact H|]. split; [congruence|].
  intros j x Hj Hx p q.
  assert (Hp : 0 <= p) by (subst p; nia).
  assert (Hmod : forall c, 0 <= c < ps ->
            Z.of_nat (Z.to_nat (c + p * ps)) mod ps = c).
  { intros c Hc. rewrite Z2Nat.id by nia. rewrite Z.mod_add by lia.
    apply Z.mod_small. assumption. }
  split; [|split].
  - rewrite Hf3 by (try rewrite Hmod; lia). rewrite Hf2 by (try rewrite Hmod; lia).
    apply Hw1; assumption.
  - rewrite Hf3 by (try rewrite Hmod; lia). apply Hw2; assumption.
  - apply Hw3; assumption.
Qed.

Lemma unpack_planes_witness :
  exists r',
    Grd2Png.unpack (Grd2Png.new_reader Samples.rle_image Samples.rle_image_info) = Ok r' /\
    length (Grd2Png.output r') = 12%nat /\
    Grd2Png.channel r' = [1; 2; 3; 4].
Proof.
  eexists. split; [reflexivity|]. split; [|reflexivity].
  destruct (unpack_planes (Grd2Png.new_reader Samples.rle_image Samples.rle_image_info)
              _ ltac:(change (Grd2Png.pixel_size _) with 3; lia) eq_refl)
    as (_ & _ & _ & _ & _ & _ & _ & _ & Hlen & _).
  exact Hlen.
Defined.

(** ** The mode handed to the image encoder *)

(** X21.  The mode chosen by [convert_grd_to_png] agrees with the pixel size
    of the buffer except for 32-bit images without alpha data: there the
    mode is RGB although the buffer has four bytes per pixel, and the
    fourth byte of every pixel is the zero the buffer was created with. *)
Theorem rgb_mode_for_four_byte_pixels (file : list Z) (info : Grd2Png.GrdMetaData) :
  let r := Grd2Png.new_reader file info in
  ((Grd2Png.BPP info = 24 \/ Grd2Png.BPP info = 32) ->
   (Convert.mode_bytes (Convert.image_mode info) = Grd2Png.pixel_size r <->
    ~ (Grd2Png.BPP info = 32 /\ Grd2Png.AlphaSize info <= 0))) /\
  (Grd2Png.BPP info = 32 -> Grd2Png.AlphaSize info <= 0 ->
   forall r', Grd2Png.unpack r = Ok r' ->
     Convert.image_mode info = "RGB"%string /\
     Grd2Png.pixel_size r' = 4 /\
     length (Grd2Png.output r') =
       Z.to_nat (Grd2Png.Width info * Grd2Png.Height info * 4) /\
     forall i : nat, (i < length (Grd2Png.output r'))%nat -> Z.of_nat i mod 4 = 3 ->
       Grd2Png.output r' !! i = Some 0).
Proof.
  intros r. split.
  - intros Hbpp. unfold Convert.image_mode, Convert.mode_bytes, r, Grd2Png.new_reader.
    cbn [Grd2Png.pixel_size].
    destruct Hbpp as [Hbpp|Hbpp]; rewrite Hbpp; simpl.
    + split; [intros _ [Hc _]; discriminate Hc | reflexivity].
    + destruct (Z.ltb_spec 0 (Grd2Png.AlphaSize info)) as [Hsome|Hnone]; simpl.
      * split; [intros _ [_ Hc]; lia | reflexivity].
      * split; [discriminate | intros Hc; exfalso; apply Hc; split; [reflexivity | lia]].
  - intros Hbpp Halpha r' H.
    assert (Hps : Grd2Png.pixel_size r = 4).
    { unfold r, Grd2Png.new_reader. cbn [Grd2Png.pixel_size]. rewrite Hbpp. reflexivity. }
    assert (Hinfo : Grd2Png.info r = info) by reflexivity.
    unfold Grd2Png.unpack in H. rewrite Hinfo, Hbpp in H.
    destruct (Z.ltb_spec 0 (Grd2Png.AlphaSize info)); [lia|]. simpl in H.
    apply bind_Ok in H as (r1 & Hred & H).
    pose proof (unpack_channel_effect r r1 0 _ _ ltac:(lia) ltac:(lia) Hred)
      as (_ & _ & _ & Hps1 & Hlen1 & Hf1 & _).
    apply bind_Ok in H as (r2 & Hgreen & H).
    pose proof (unpack_channel_effect r1 r2 1 _ _ ltac:(lia) ltac:(lia) Hgreen)
      as (_ & _ & _ & Hps2 & Hlen2 & Hf2 & _).
    pose proof (unpack_channel_effect r2 r' 2 _ _ ltac:(lia) ltac:(lia) H)
      as (_ & _ & _ & Hps3 & Hlen3 & Hf3 & _).
    rewrite Hps1 in *. rewrite Hps2 in *. rewrite Hps in *.
    assert (Hlen : length (Grd2Png.output r') =
                   Z.to_nat (Grd2Png.Width info * Grd2Png.Height info * 4)).
    { rewrite Hlen3, Hlen2, Hlen1. unfold r, Grd2Png.new_reader.
      cbn [Grd2Png.output]. rewrite length_replicate, Hbpp. reflexivity. }
    split.
    { unfold Convert.image_mode. rewrite Hbpp. simpl.
      destruct (Z.ltb_spec 0 (Grd2Png.AlphaSize info)); [lia | reflexivity]. }
    split; [exact Hps3|]. split; [exact Hlen|].
    intros i Hi Hmod.
    rewrite Hf3, Hf2, Hf1 by lia.
    unfold r, Grd2Png.new_reader. cbn [Grd2Png.output].
    apply lookup_replicate_2. rewrite Hbpp. change (32 / 8) with 4. lia.
Qed.

Lemma rgb_mode_for_four_byte_pixels_witness :
  Convert.mode_bytes (Convert.image_mode Samples.rle_image_info) =
  Grd2Png.pixel_size (Grd2Png.new_reader Samples.rle_image Samples.rle_image_info).
Proof.
  apply (proj1 (rgb_mode_for_four_byte_pixels Samples.rle_image Samples.rle_image_info)).
  - left. reflexivity.
  - intros [H _]. discriminate H.
Defined.
